(** * mini-dynamo: a shallow embedding of the storage engine, the placement
    ring and the replication coordinator, with the properties checked
    against them.

    Layout of the development:
    - [Go]         the pieces of the Go runtime and standard library the code
                   relies on (errors, fixed-width conversions, big-endian
                   encoding, CRC-32, [sort.Search], [sort.Slice]);
    - [murmur3]    the hash function of github.com/spaolacci/murmur3;
    - [types]      pkg/types (entries, consistency levels, nodes, hints);
    - [Index]      internal/storage/index.go;
    - [Bitcask]    internal/storage/bitcask.go;
    - [HashRing]   internal/ring/hash_ring.go;
    - [HintedHandoffStore], [QuorumManager]
                   internal/replication/handoff.go and quorum.go;
    - [versioning] the conflict resolver of package versioning;
    - [config]     internal/config/config.go;
    - [Node]       the objects one running node shares between its parts;
    - [Coordinator] internal/replication/coordinator.go;
    - [Server]     the HTTP handlers of internal/api;
    - [Spec]       the vocabulary of the statements;
    - [Demo]       the inputs of the examples;
    - the theorems, grouped by component. *)

From Stdlib Require Import ZArith Lia.
From Stdlib.Strings Require Import Byte.
From stdpp Require Import gmap strings list sorting pretty.

Local Open Scope Z_scope.

(* ===================================================================== *)
(** * Go runtime and standard library *)
(* ===================================================================== *)

Module Go.

(** Go [error] values.  The sentinel errors of internal/storage/engine.go and
    of package io are constructors; [Errorf] is [fmt.Errorf] without a wrapped
    error and [Wrap] is [fmt.Errorf("...: %w", err)].  A run-time panic is
    carried as [Panic]. *)
Inductive error : Type :=
  | ErrKeyNotFound
  | ErrKeyDeleted
  | ErrStorageFull
  | ErrCorruptData
  | ErrStorageClosed
  | EOF
  | ErrUnexpectedEOF
  | Errorf (msg : string)
  | Wrap (msg : string) (err : error)
  | Panic (msg : string).

#[global] Instance error_eq_dec : EqDecision error.
Proof. solve_decision. Defined.

(** A call that returns [(T, error)]. *)
Inductive result (A : Type) : Type :=
  | Ok (a : A)
  | Err (e : error).
Arguments Ok {A} a.
Arguments Err {A} e.

Definition is_ok {A} (r : result A) : bool :=
  match r with Ok _ => true | Err _ => false end.

(** Fixed-width conversions, wrap-around written out. *)
Definition uint32 (z : Z) : Z := z mod 2 ^ 32.
Definition uint64 (z : Z) : Z := z mod 2 ^ 64.
Definition int64 (z : Z) : Z := (z + 2 ^ 63) mod 2 ^ 64 - 2 ^ 63.
Definition int32 (z : Z) : Z := (z + 2 ^ 31) mod 2 ^ 32 - 2 ^ 31.

(** [len(s)] as a Go [int]. *)
Definition len {A} (l : list A) : Z := Z.of_nat (length l).

(** Bytes. *)
#[global] Instance byte_eq_dec : EqDecision byte := Byte.byte_eq_dec.

Definition byte_to_Z (b : byte) : Z := Z.of_N (Byte.to_N b).

Definition byte_of_Z (z : Z) : byte :=
  match Byte.of_N (Z.to_N (z mod 256)) with
  | Some b => b
  | None => x00
  end.

(** [[]byte(s)] and [string(b)]: a Go string is its bytes. *)
Definition bytes_of_string (s : string) : list byte := String.list_byte_of_string s.
Definition string_of_bytes (b : list byte) : string := String.string_of_list_byte b.

(** [bytes.Equal]. *)
Definition bytes_Equal (a b : list byte) : bool := bool_decide (a = b).

(** [binary.BigEndian.PutUint32], [PutUint64], [Uint32], [Uint64]. *)
Definition PutUint32 (v : Z) : list byte :=
  [byte_of_Z (Z.shiftr v 24); byte_of_Z (Z.shiftr v 16);
   byte_of_Z (Z.shiftr v 8); byte_of_Z v].

Definition PutUint64 (v : Z) : list byte :=
  [byte_of_Z (Z.shiftr v 56); byte_of_Z (Z.shiftr v 48);
   byte_of_Z (Z.shiftr v 40); byte_of_Z (Z.shiftr v 32);
   byte_of_Z (Z.shiftr v 24); byte_of_Z (Z.shiftr v 16);
   byte_of_Z (Z.shiftr v 8); byte_of_Z v].

(** Big-endian value of a byte string (of any length). *)
Definition BigEndian (b : list byte) : Z :=
  foldl (λ acc x, Z.lor (Z.shiftl acc 8) (byte_to_Z x)) 0 b.

(** [crc32.ChecksumIEEE]: the reflected CRC-32 with polynomial 0xEDB88320,
    computed bit by bit. *)
Definition crc_poly : Z := 0xEDB88320.

Definition crc_shift (c : Z) : Z :=
  if Z.testbit c 0 then Z.lxor (Z.shiftr c 1) crc_poly else Z.shiftr c 1.

Definition crc_byte (c : Z) (b : byte) : Z :=
  Nat.iter 8 crc_shift (Z.lxor c (byte_to_Z b)).

Definition ChecksumIEEE (data : list byte) : Z :=
  Z.lxor (foldl crc_byte 0xFFFFFFFF data) 0xFFFFFFFF.

(** [sort.Search(n, f)]: the binary search of package sort,
<<
      i, j := 0, n
      for i < j {
          h := int(uint(i+j) >> 1)
          if !f(h) { i = h + 1 } else { j = h }
      }
      return i
>>
    The loop runs at most [j - i] times, which is the fuel given to it. *)
Fixpoint search_loop (fuel : nat) (f : nat → bool) (i j : nat) : nat :=
  match fuel with
  | O => i
  | S fuel' =>
      if (i <? j)%nat then
        let h := ((i + j) / 2)%nat in
        if negb (f h) then search_loop fuel' f (h + 1)%nat j
        else search_loop fuel' f i h
      else i
  end.

Definition Search (n : nat) (f : nat → bool) : nat := search_loop n f 0%nat n.

(** [sort.Slice(x, less)].  The package documents only that the result is
    sorted by [less] and is a rearrangement of the input ("the sort is not
    guaranteed to be stable"); the algorithm is left to the library.  The
    code is therefore modelled over any sorting routine, and reasoned about
    under the contract [SorterLaws].  The premises of [sort_Slice_sorted] say
    that [less] is a strict weak ordering, which is what package sort asks of
    it: [less] is asymmetric and [λ a b, less b a = false] is transitive. *)
Class Sorter : Type :=
  sort_Slice : ∀ {A : Type}, (A → A → bool) → list A → list A.

Class SorterLaws (S : Sorter) : Prop := {
  sort_Slice_perm : ∀ {A : Type} (less : A → A → bool) (l : list A),
    sort_Slice less l ≡ₚ l;
  sort_Slice_sorted : ∀ {A : Type} (less : A → A → bool) (l : list A),
    (∀ a b, less a b = true → less b a = false) →
    (∀ a b c, less b a = false → less c b = false → less c a = false) →
    StronglySorted (λ a b, less b a = false) (sort_Slice less l);
}.

(** What package sort does on slices of at most twelve elements:
    [insertionSortLessFunc],
<<
      for i := a + 1; i < b; i++ {
          for j := i; j > a && less(data[j], data[j-1]); j-- {
              data.Swap(j, j-1)
          }
      }
>>
    [sift less x rev_prefix] is the inner loop: the sorted prefix is held
    reversed, so that its head is [data[j-1]]. *)
Fixpoint sift {A} (less : A → A → bool) (x : A) (rev_prefix : list A) : list A :=
  match rev_prefix with
  | [] => [x]
  | y :: rest => if less x y then y :: sift less x rest else x :: y :: rest
  end.

Definition insertionSort {A} (less : A → A → bool) (l : list A) : list A :=
  rev (foldl (λ rev_prefix x, sift less x rev_prefix) [] l).

(** The sorting routine of the examples. *)
Definition insertion_Sorter : Sorter := @insertionSort.

End Go.

Export Go.

(* ===================================================================== *)
(** * github.com/spaolacci/murmur3 *)
(* ===================================================================== *)

(** [murmur3.New64()], [Write] and [Sum64]: the first 64 bits of
    MurmurHash3_x64_128 with seed 0.  The package is not part of the
    repository; the definition below follows the published algorithm and is
    checked against the test vectors of the package in [murmur3_vectors]. *)
Module murmur3.

Definition c1 : Z := 0x87c37b91114253d5.
Definition c2 : Z := 0x4cf5ad432745937f.

Definition mul64 (a b : Z) : Z := uint64 (a * b).
Definition add64 (a b : Z) : Z := uint64 (a + b).

Definition rotl64 (x r : Z) : Z :=
  uint64 (Z.lor (Z.shiftl x r) (Z.shiftr x (64 - r))).

Definition fmix64 (k : Z) : Z :=
  let k := Z.lxor k (Z.shiftr k 33) in
  let k := mul64 k 0xff51afd7ed558ccd in
  let k := Z.lxor k (Z.shiftr k 33) in
  let k := mul64 k 0xc4ceb9fe1a85ec53 in
  Z.lxor k (Z.shiftr k 33).

(** Little-endian value of up to eight bytes. *)
Definition le64 (b : list byte) : Z :=
  foldr (λ x acc, Z.lor (Z.shiftl acc 8) (byte_to_Z x)) 0 b.

Definition mix_k1 (k1 : Z) : Z := mul64 (rotl64 (mul64 k1 c1) 31) c2.
Definition mix_k2 (k2 : Z) : Z := mul64 (rotl64 (mul64 k2 c2) 33) c1.

(** One 16-byte block. *)
Definition block (h : Z * Z) (b : list byte) : Z * Z :=
  let '(h1, h2) := h in
  let k1 := le64 (take 8 b) in
  let k2 := le64 (drop 8 b) in
  let h1 := Z.lxor h1 (mix_k1 k1) in
  let h1 := add64 (rotl64 h1 27) h2 in
  let h1 := add64 (mul64 h1 5) 0x52dce729 in
  let h2 := Z.lxor h2 (mix_k2 k2) in
  let h2 := add64 (rotl64 h2 31) h1 in
  let h2 := add64 (mul64 h2 5) 0x38495ab5 in
  (h1, h2).

(** All full blocks, and the tail of fewer than 16 bytes. *)
Fixpoint blocks (fuel : nat) (h : Z * Z) (data : list byte) : (Z * Z) * list byte :=
  match fuel with
  | O => (h, data)
  | S fuel' =>
      if (16 <=? length data)%nat then
        blocks fuel' (block h (take 16 data)) (drop 16 data)
      else (h, data)
  end.

Definition Sum64 (data : list byte) : Z :=
  let '((h1, h2), tail) := blocks (length data) (0, 0) data in
  let h2 := if (8 <? length tail)%nat
            then Z.lxor h2 (mix_k2 (le64 (drop 8 tail))) else h2 in
  let h1 := if (0 <? length tail)%nat
            then Z.lxor h1 (mix_k1 (le64 (take 8 tail))) else h1 in
  let h1 := Z.lxor h1 (len data) in
  let h2 := Z.lxor h2 (len data) in
  let h1 := add64 h1 h2 in
  let h2 := add64 h2 h1 in
  let h1 := fmix64 h1 in
  let h2 := fmix64 h2 in
  add64 h1 h2.

End murmur3.

(* ===================================================================== *)
(** * pkg/types *)
(* ===================================================================== *)

Module types.

(** [type ConsistencyLevel string]. *)
Definition ConsistencyLevel : Type := string.
Definition ConsistencyOne : ConsistencyLevel := "one".
Definition ConsistencyQuorum : ConsistencyLevel := "quorum".
Definition ConsistencyAll : ConsistencyLevel := "all".

Inductive NodeState : Type := NodeAlive | NodeSuspect | NodeDead.

#[global] Instance NodeState_eq_dec : EqDecision NodeState.
Proof. solve_decision. Defined.

(** [Node]; [LastSeen] and [TokenRing] are not read by the code modelled. *)
Record Node : Type := {
  ID : string;
  Address : string;
  Port : Z;
  State : NodeState;
}.

(** [KeyValueEntry].  The [Version] vector clock is never assigned on the
    paths modelled and is left out. *)
Record KeyValueEntry : Type := {
  Key : string;
  Value : list byte;
  Timestamp : Z;
  IsDeleted : bool;
}.

#[global] Instance KeyValueEntry_eq_dec : EqDecision KeyValueEntry.
Proof. solve_decision. Defined.

(** [HintedHandoff]; [CreatedAt] is the reading of the clock at creation. *)
Record HintedHandoff : Type := {
  TargetNode : string;
  Entry : KeyValueEntry;
  CreatedAt : Z;
  Attempts : Z;
}.

(** [ReplicationRequest]. *)
Record ReplicationRequest : Type := {
  req_Entry : KeyValueEntry;
  FromNode : string;
  IsHandoff : bool;
}.

#[global] Instance ReplicationRequest_eq_dec : EqDecision ReplicationRequest.
Proof. solve_decision. Defined.

(** [type VectorClock map[string]uint64] and its methods. *)
Module VectorClock.

Definition t : Type := gmap string Z.

(** [vc[k]]: a missing key reads as zero. *)
Definition get (vc : t) (k : string) : Z := default 0 (vc !! k).

(** [Increment], on a map made with [make] as its callers have it (the
    assignment panics on a nil map). *)
Definition Increment (vc : t) (nodeID : string) : t :=
  <[nodeID := uint64 (get vc nodeID + 1)]> vc.

(** One turn of the second loop of [Merge]. *)
Definition Merge_step (result : t) (kv : string * Z) : t :=
  if get result kv.1 <? kv.2 then <[kv.1 := kv.2]> result else result.

(** [Merge], its range over [other] running in the order [order].  The first
    loop copies [vc]. *)
Definition Merge_in (order : list (string * Z)) (vc : t) : t :=
  foldl Merge_step vc order.

Definition Merge (vc other : t) : t := Merge_in (map_to_list other) vc.

(** One turn of the loop of [Compare] over [allKeys]. *)
Definition Compare_step (vc other : t) (flags : bool * bool) (k : string)
    : bool * bool :=
  let '(less, greater) := flags in
  let v1 := get vc k in
  let v2 := get other k in
  (if v1 <? v2 then true else less, if v2 <? v1 then true else greater).

(** [Compare], its range over [allKeys] running in the order [keys]. *)
Definition Compare_in (keys : list string) (vc other : t) : Z :=
  let '(less, greater) := foldl (Compare_step vc other) (false, false) keys in
  if less && negb greater then -1
  else if greater && negb less then 1
  else 0.

Definition Compare (vc other : t) : Z :=
  Compare_in (elements (dom vc ∪ dom other)) vc other.

Definition Copy (vc : t) : t := vc.

End VectorClock.

End types.

(* ===================================================================== *)
(** * internal/storage/index.go *)
(* ===================================================================== *)

Module Index.

Record IndexEntry : Type := {
  Offset : Z;
  Size : Z;
  Timestamp : Z;
  IsDeleted : bool;
}.

#[global] Instance IndexEntry_eq_dec : EqDecision IndexEntry.
Proof. solve_decision. Defined.

(** [Index]: the map and the two counters of [stats].  The counters are
    [int64] in the source; they move by one per call. *)
Record t : Type := {
  entries : gmap string IndexEntry;
  active : Z;
  deleted : Z;
}.

Definition NewIndex : t := {| entries := ∅; active := 0; deleted := 0 |}.

Definition Get (idx : t) (key : string) : option IndexEntry :=
  entries idx !! key.

Definition Put (idx : t) (key : string) (offset size timestamp : Z) : t :=
  let existing := entries idx !! key in
  let '(active', deleted') :=
    match existing with
    | Some e =>
        if IsDeleted e then (active idx, int64 (deleted idx - 1))
        else (active idx, deleted idx)
    | None => (int64 (active idx + 1), deleted idx)
    end in
  {| entries := <[key := {| Offset := offset; Size := size;
                            Timestamp := timestamp; IsDeleted := false |}]>
                  (entries idx);
     active := active';
     deleted := deleted' |}.

(** [Delete] returns the new index and the boolean the source returns. *)
Definition Delete (idx : t) (key : string) (timestamp : Z) : t * bool :=
  match entries idx !! key with
  | None =>
      ({| entries := <[key := {| Offset := 0; Size := 0;
                                 Timestamp := timestamp; IsDeleted := true |}]>
                       (entries idx);
          active := active idx;
          deleted := int64 (deleted idx + 1) |}, false)
  | Some entry =>
      if negb (IsDeleted entry) then
        ({| entries := <[key := {| Offset := Offset entry; Size := Size entry;
                                   Timestamp := timestamp; IsDeleted := true |}]>
                         (entries idx);
            active := int64 (active idx - 1);
            deleted := int64 (deleted idx + 1) |}, true)
      else (idx, false)
  end.

Definition Has (idx : t) (key : string) : bool :=
  match entries idx !! key with
  | Some entry => negb (IsDeleted entry)
  | None => false
  end.

(** [Keys] ranges over the map; Go leaves the order of a map range
    unspecified, the order below is one of the possible ones. *)
Definition Keys (idx : t) : list string :=
  (filter (λ kv, IsDeleted kv.2 = false) (map_to_list (entries idx))).*1.

(** [Keys] with the allocation of its result,
    [make([]string, 0, idx.stats.active)]: the run time panics when the
    capacity asked for is negative. *)
Definition Keys_alloc (idx : t) : result (list string) :=
  if active idx <? 0 then Err (Panic "makeslice: cap out of range")
  else Ok (Keys idx).

Definition Count (idx : t) : Z := active idx.

Definition DeletedCount (idx : t) : Z := deleted idx.

Definition Clear (idx : t) : t := NewIndex.

Definition Size_ (idx : t) : Z := Z.of_nat (size (entries idx)).

(** [All] hands out a copy of the map. *)
Definition All (idx : t) : gmap string IndexEntry := entries idx.

Definition UpdateOffset (idx : t) (key : string) (newOffset newSize : Z) : t :=
  match entries idx !! key with
  | Some entry =>
      {| entries := <[key := {| Offset := newOffset; Size := newSize;
                                Timestamp := Timestamp entry;
                                IsDeleted := IsDeleted entry |}]> (entries idx);
         active := active idx;
         deleted := deleted idx |}
  | None => idx
  end.

End Index.

(* ===================================================================== *)
(** * internal/storage/bitcask.go *)
(* ===================================================================== *)

Module Bitcask.

(** File format: CRC32(4) + Timestamp(8) + KeyLen(4) + ValueLen(4) +
    Deleted(1) + Key + Value. *)
Definition headerSize : Z := 4 + 8 + 4 + 4 + 1.

(** [storage.Entry]. *)
Record Entry : Type := {
  Key : string;
  Value : list byte;
  Timestamp : Z;
  IsDeleted : bool;
  Offset : Z;
  Size : Z;
}.

(** [Bitcask].  [dataFile] is the content of data.db, [writer] the bytes the
    [bufio.Writer] still holds.  (A [bufio.Writer] may hand part of its
    buffer to the file before it is asked to; every path that reads the file
    flushes first, so only [dataFile ++ writer] is ever observed.)
    File offsets are [int64] in the source and are bounded by the size of
    the file.  Operations of the operating system are taken to succeed. *)
Record t : Type := {
  dataFile : list byte;
  writer : list byte;
  index : Index.t;
  position : Z;
  closed : bool;
  syncWrite : bool;
  totalReads : Z;
  totalWrites : Z;
}.

Definition set_files (bc : t) (file buf : list byte) : t :=
  {| dataFile := file; writer := buf; index := index bc;
     position := position bc; closed := closed bc; syncWrite := syncWrite bc;
     totalReads := totalReads bc; totalWrites := totalWrites bc |}.

Definition set_index (bc : t) (idx : Index.t) : t :=
  {| dataFile := dataFile bc; writer := writer bc; index := idx;
     position := position bc; closed := closed bc; syncWrite := syncWrite bc;
     totalReads := totalReads bc; totalWrites := totalWrites bc |}.

Definition set_position (bc : t) (pos : Z) : t :=
  {| dataFile := dataFile bc; writer := writer bc; index := index bc;
     position := pos; closed := closed bc; syncWrite := syncWrite bc;
     totalReads := totalReads bc; totalWrites := totalWrites bc |}.

Definition set_closed (bc : t) (c : bool) : t :=
  {| dataFile := dataFile bc; writer := writer bc; index := index bc;
     position := position bc; closed := c; syncWrite := syncWrite bc;
     totalReads := totalReads bc; totalWrites := totalWrites bc |}.

Definition add_read (bc : t) : t :=
  {| dataFile := dataFile bc; writer := writer bc; index := index bc;
     position := position bc; closed := closed bc; syncWrite := syncWrite bc;
     totalReads := uint64 (totalReads bc + 1); totalWrites := totalWrites bc |}.

Definition add_write (bc : t) : t :=
  {| dataFile := dataFile bc; writer := writer bc; index := index bc;
     position := position bc; closed := closed bc; syncWrite := syncWrite bc;
     totalReads := totalReads bc; totalWrites := uint64 (totalWrites bc + 1) |}.

(** [bc.writer.Flush()]. *)
Definition Flush (bc : t) : t := set_files bc (dataFile bc ++ writer bc) [].

(** [io.ReadFull(reader, buf)] with [len(buf) = n]: the bytes read and the
    rest of the stream, [io.EOF] when nothing could be read and
    [io.ErrUnexpectedEOF] when the stream ends early. *)
Definition ReadFull (reader : list byte) (n : nat) : result (list byte * list byte) :=
  if decide (n = 0%nat) then Ok ([], reader)
  else if decide (length reader = 0%nat) then Err EOF
  else if decide (length reader < n)%nat then Err ErrUnexpectedEOF
  else Ok (take n reader, drop n reader).

(** The 21 header bytes. *)
Definition header_fields (timestamp keyLen valueLen : Z) (isDeleted : bool) : list byte :=
  PutUint64 (uint64 timestamp) ++ PutUint32 keyLen ++ PutUint32 valueLen
  ++ [if isDeleted then x01 else x00].

(** The bytes [writeEntry] produces for a record. *)
Definition encode (key : string) (value : list byte) (timestamp : Z)
    (isDeleted : bool) : list byte :=
  let keyBytes := bytes_of_string key in
  let keyLen := uint32 (len keyBytes) in
  let valueLen := uint32 (len value) in
  let fields := header_fields timestamp keyLen valueLen isDeleted in
  let data := fields ++ keyBytes ++ value in
  let crc := ChecksumIEEE data in
  PutUint32 crc ++ fields ++ keyBytes ++ value.

(** [readEntry]: the entry and the number of bytes it occupies.  (On an
    error the source also returns the count of header bytes read, which no
    caller looks at.) *)
Definition readEntry (reader : list byte) (offset : Z) : result (Entry * Z) :=
  match ReadFull reader (Z.to_nat headerSize) with
  | Err e => Err e
  | Ok (header, reader) =>
      let storedCRC := BigEndian (take 4 header) in
      let timestamp := int64 (BigEndian (take 8 (drop 4 header))) in
      let keyLen := BigEndian (take 4 (drop 12 header)) in
      let valueLen := BigEndian (take 4 (drop 16 header)) in
      let isDeleted := bool_decide (header !! 20%nat = Some x01) in
      match ReadFull reader (Z.to_nat keyLen) with
      | Err e => Err (Wrap "failed to read key" e)
      | Ok (key, reader) =>
          match ReadFull reader (Z.to_nat valueLen) with
          | Err e => Err (Wrap "failed to read value" e)
          | Ok (value, _) =>
              let data := drop 4 header ++ key ++ value in
              let calculatedCRC := ChecksumIEEE data in
              if bool_decide (storedCRC ≠ calculatedCRC) then Err ErrCorruptData
              else
                let totalBytes := headerSize + keyLen + valueLen in
                Ok ({| Key := string_of_bytes key; Value := value;
                       Timestamp := timestamp; IsDeleted := isDeleted;
                       Offset := offset; Size := int32 valueLen |}, totalBytes)
          end
      end
  end.

(** [writeEntry]: the new state and the offset of the record. *)
Definition writeEntry (bc : t) (key : string) (value : list byte)
    (timestamp : Z) (isDeleted : bool) : t * Z :=
  let record := encode key value timestamp isDeleted in
  let offset := position bc in
  let totalSize := len record in
  let bc := set_files bc (dataFile bc) (writer bc ++ record) in
  let bc := set_position bc (position bc + totalSize) in
  let bc := if syncWrite bc then Flush bc else bc in
  (bc, offset).

(** [bc.dataFile.Seek(offset, io.SeekStart)] followed by a read: the bytes of
    the file from [offset] on.  A negative offset is refused by [Seek]. *)
Definition seek (file : list byte) (offset : Z) : result (list byte) :=
  if offset <? 0 then Err (Errorf "invalid argument")
  else Ok (drop (Z.to_nat offset) file).

Definition Get (bc : t) (key : string) : t * result (list byte * Z) :=
  if closed bc then (bc, Err ErrStorageClosed)
  else
    let bc := add_read bc in
    match Index.Get (index bc) key with
    | None => (bc, Err ErrKeyNotFound)
    | Some entry =>
        if Index.IsDeleted entry then (bc, Err ErrKeyDeleted)
        else
          let bc := Flush bc in
          match seek (dataFile bc) (Index.Offset entry) with
          | Err e => (bc, Err (Wrap "failed to seek" e))
          | Ok reader =>
              match readEntry reader (Index.Offset entry) with
              | Err e => (bc, Err (Wrap "failed to read entry" e))
              | Ok (readEntry, _) => (bc, Ok (Value readEntry, Timestamp readEntry))
              end
          end
    end.

Definition Put (bc : t) (key : string) (value : list byte) (timestamp : Z)
    : t * option error :=
  if closed bc then (bc, Some ErrStorageClosed)
  else
    let bc := add_write bc in
    let '(bc, offset) := writeEntry bc key value timestamp false in
    (set_index bc (Index.Put (index bc) key offset (int32 (len value)) timestamp),
     None).

Definition Delete (bc : t) (key : string) (timestamp : Z) : t * option error :=
  if closed bc then (bc, Some ErrStorageClosed)
  else
    let bc := add_write bc in
    let '(bc, _) := writeEntry bc key [] timestamp true in
    (set_index bc (Index.Delete (index bc) key timestamp).1, None).

Definition Has (bc : t) (key : string) : bool :=
  if closed bc then false else Index.Has (index bc) key.

Definition Keys (bc : t) : list string :=
  if closed bc then [] else Index.Keys (index bc).

(** [Keys] with the allocation [Index.Keys] makes. *)
Definition Keys_alloc (bc : t) : result (list string) :=
  if closed bc then Ok [] else Index.Keys_alloc (index bc).

Definition Count (bc : t) : Z := Index.Count (index bc).

Definition Close (bc : t) : t :=
  if closed bc then bc else Flush (set_closed bc true).

Definition Sync (bc : t) : t * option error :=
  if closed bc then (bc, Some ErrStorageClosed) else (Flush bc, None).

(** The loop of [rebuildIndex].  Every record read takes at least the 21
    header bytes off the stream, so a fuel of one more than the length of the
    stream is never used up ([rebuild_loop_fuel] below). *)
Fixpoint rebuild_loop (fuel : nat) (reader : list byte) (offset : Z)
    (idx : Index.t) : result Index.t :=
  match fuel with
  | O => Err (Errorf "unreachable")
  | S fuel' =>
      match readEntry reader offset with
      | Err EOF => Ok idx
      | Err err => Err (Wrap ("error at offset " +:+ pretty offset) err)
      | Ok (entry, bytesRead) =>
          let idx :=
            if IsDeleted entry then
              (Index.Delete idx (Key entry) (Timestamp entry)).1
            else Index.Put idx (Key entry) offset (Size entry) (Timestamp entry) in
          rebuild_loop fuel' (drop (Z.to_nat bytesRead) reader)
            (offset + bytesRead) idx
      end
  end.

(** [rebuildIndex] reads data.db from its start into [bc.index]. *)
Definition rebuildIndex (bc : t) : result t :=
  match rebuild_loop (S (length (dataFile bc))) (dataFile bc) 0 (index bc) with
  | Ok idx => Ok (set_index bc idx)
  | Err e => Err e
  end.

(** [NewBitcask(dataDir, syncWrite)], where [file] is the content of
    dataDir/data.db when the store is opened (empty when it is created). *)
Definition NewBitcask (file : list byte) (syncWrite : bool) : result t :=
  let bc := {| dataFile := file; writer := []; index := Index.NewIndex;
               position := 0; closed := false; syncWrite := syncWrite;
               totalReads := 0; totalWrites := 0 |} in
  let pos := len file in
  let bc := set_position bc pos in
  if 0 <? pos then
    match rebuildIndex bc with
    | Err err => Err (Wrap "failed to rebuild index" err)
    | Ok bc => Ok bc
    end
  else Ok bc.

(** The body of the loop of [Compact] for one [key, entry] of the old index:
    [tmp] is what has been written to data.db.tmp. *)
Definition compact_step (file : list byte)
    (acc : result (list byte * Index.t * Z)) (kv : string * Index.IndexEntry)
    : result (list byte * Index.t * Z) :=
  match acc with
  | Err e => Err e
  | Ok (tmp, newIndex, newPosition) =>
      let '(key, entry) := kv in
      if Index.IsDeleted entry then acc
      else
        match seek file (Index.Offset entry) with
        | Err e => Err (Wrap "failed to seek" e)
        | Ok reader =>
            match readEntry reader (Index.Offset entry) with
            | Err e => Err (Wrap "failed to read entry" e)
            | Ok (readEntry, _) =>
                let record := encode key (Value readEntry) (Timestamp readEntry) false in
                let offset := newPosition in
                let totalSize := len record in
                Ok (tmp ++ record,
                    Index.Put newIndex key offset (int32 (len (Value readEntry)))
                      (Timestamp readEntry),
                    newPosition + totalSize)
            end
        end
  end.

(** [Compact], for the order [order] in which the range over
    [bc.index.All()] visits the map (any order is possible in Go).  On an
    error the data file is the old one. *)
Definition CompactIn (order : list (string * Index.IndexEntry)) (bc : t)
    : t * option error :=
  if closed bc then (bc, Some ErrStorageClosed)
  else
    let bc := Flush bc in
    match foldl (compact_step (dataFile bc)) (Ok ([], Index.NewIndex, 0)) order with
    | Err e => (bc, Some e)
    | Ok (tmp, newIndex, newPosition) =>
        (set_position (set_index (set_files bc tmp []) newIndex) newPosition, None)
    end.

Definition Compact (bc : t) : t * option error :=
  CompactIn (map_to_list (Index.All (index bc))) bc.

(** [storage.Stats]. *)
Record Stats : Type := {
  ActiveKeys : Z;
  DeletedKeys : Z;
  DataFileSize : Z;
  IndexSize : Z;
  TotalReads : Z;
  TotalWrites : Z;
}.

Definition Stats_ (bc : t) : Stats :=
  {| ActiveKeys := Index.Count (index bc);
     DeletedKeys := Index.DeletedCount (index bc);
     DataFileSize := len (dataFile bc);
     IndexSize := Index.Size_ (index bc);
     TotalReads := totalReads bc;
     TotalWrites := totalWrites bc |}.

End Bitcask.

(* ===================================================================== *)
(** * internal/ring/hash_ring.go *)
(* ===================================================================== *)

Module HashRing.

Record VNode : Type := {
  Hash : Z;
  NodeID : string;
  VNodeIdx : Z;
}.

#[global] Instance VNode_inhabited : Inhabited VNode :=
  populate {| Hash := 0; NodeID := ""; VNodeIdx := 0 |}.

#[global] Instance VNode_eq_dec : EqDecision VNode.
Proof. solve_decision. Defined.

Record t : Type := {
  vnodes : list VNode;
  nodeVNodes : gmap string (list Z);
  virtualCount : Z;
}.

Definition NewHashRing (virtualNodes : Z) : t :=
  {| vnodes := [];
     nodeVNodes := ∅;
     virtualCount := if virtualNodes <? 1 then 150 else virtualNodes |}.

(** [hash] computes the 64-bit MurmurHash3 of a string. *)
Definition hash (key : string) : Z := murmur3.Sum64 (bytes_of_string key).

Section ring.

Context `{Sorter}.

(** The virtual nodes the loop of [AddNode] appends, in order. *)
Definition new_vnodes (nodeID : string) (count : Z) : list VNode :=
  (λ i, {| Hash := hash (nodeID +:+ "#vnode" +:+ pretty i);
           NodeID := nodeID;
           VNodeIdx := i |}) <$> seqZ 0 count.

Definition AddNode (r : t) (nodeID : string) : t :=
  match nodeVNodes r !! nodeID with
  | Some _ => r
  | None =>
      let added := new_vnodes nodeID (virtualCount r) in
      let vnodeHashes := Hash <$> added in
      {| vnodes := sort_Slice (λ a b, Hash a <? Hash b) (vnodes r ++ added);
         nodeVNodes := <[nodeID := vnodeHashes]> (nodeVNodes r);
         virtualCount := virtualCount r |}
  end.

Definition RemoveNode (r : t) (nodeID : string) : t :=
  match nodeVNodes r !! nodeID with
  | None => r
  | Some _ =>
      {| vnodes := filter (λ vn, NodeID vn ≠ nodeID) (vnodes r);
         nodeVNodes := delete nodeID (nodeVNodes r);
         virtualCount := virtualCount r |}
  end.

(** The binary search shared by [GetNode] and [GetNodes], with the wrap
    to index 0. *)
Definition start_index (r : t) (key : string) : nat :=
  let h := hash key in
  let idx := Search (length (vnodes r)) (λ i, h <=? Hash (vnodes r !!! i)) in
  if (length (vnodes r) <=? idx)%nat then 0%nat else idx.

Definition GetNode (r : t) (key : string) : result string :=
  if decide (length (vnodes r) = 0%nat) then Err (Errorf "no nodes in ring")
  else Ok (NodeID (vnodes r !!! start_index r key)).

(** The loop of [GetNodes],
<<
      for i := 0; i < len(r.vnodes) && len(nodes) < n; i++ { ... }
>>
    which runs at most [len(r.vnodes)] times. *)
Fixpoint collect (fuel : nat) (vns : list VNode) (startIdx : nat) (n : Z)
    (i : nat) (nodes : list string) (seen : gset string) : list string :=
  match fuel with
  | O => nodes
  | S fuel' =>
      if (i <? length vns)%nat && (len nodes <? n) then
        let idx := ((startIdx + i) `mod` length vns)%nat in
        let nodeID := NodeID (vns !!! idx) in
        if decide (nodeID ∈ seen) then
          collect fuel' vns startIdx n (S i) nodes seen
        else
          collect fuel' vns startIdx n (S i) (nodes ++ [nodeID]) ({[nodeID]} ∪ seen)
      else nodes
  end.

(** [GetNodes(key, n)].  [make([]string, 0, n)] panics for a negative [n]. *)
Definition GetNodes (r : t) (key : string) (n : Z) : result (list string) :=
  if decide (length (vnodes r) = 0%nat) then Err (Errorf "no nodes in ring")
  else if n <? 0 then Err (Panic "makeslice: cap out of range")
  else
    let startIdx := start_index r key in
    Ok (collect (length (vnodes r)) (vnodes r) startIdx n 0 [] ∅).

(** Map ranges: the order is one of the possible ones. *)
Definition GetAllNodes (r : t) : list string := (map_to_list (nodeVNodes r)).*1.

Definition Size (r : t) : Z := Z.of_nat (size (nodeVNodes r)).

Definition IsEmpty (r : t) : bool := bool_decide (length (vnodes r) = 0%nat).

Definition HasNode (r : t) (nodeID : string) : bool :=
  bool_decide (is_Some (nodeVNodes r !! nodeID)).

Definition GetRingTokens (r : t) : list VNode := vnodes r.

End ring.

End HashRing.

(* ===================================================================== *)
(** * internal/replication/handoff.go *)
(* ===================================================================== *)

Module HintedHandoffStore.

Record t : Type := {
  hints : gmap string (list types.HintedHandoff);
  maxAge : Z;
  maxSize : Z;
}.

Definition NewHintedHandoffStore (maxAge maxSize : Z) : t :=
  {| hints := ∅; maxAge := maxAge; maxSize := maxSize |}.

(** [Store(targetNode, entry)] at clock reading [now].  [hints[1:]] panics on
    an empty queue, which the limit check reaches only for [maxSize <= 0]. *)
Definition Store (s : t) (now : Z) (targetNode : string)
    (entry : types.KeyValueEntry) : result t :=
  let hint := {| types.TargetNode := targetNode; types.Entry := entry;
                 types.CreatedAt := now; types.Attempts := 0 |} in
  let queue := default [] (hints s !! targetNode) in
  if maxSize s <=? len queue then
    match queue with
    | [] => Err (Panic "slice bounds out of range [1:0]")
    | _ :: rest =>
        Ok {| hints := <[targetNode := rest ++ [hint]]> (hints s);
              maxAge := maxAge s; maxSize := maxSize s |}
    end
  else
    Ok {| hints := <[targetNode := queue ++ [hint]]> (hints s);
          maxAge := maxAge s; maxSize := maxSize s |}.

Definition GetHints (s : t) (targetNode : string) : list types.HintedHandoff :=
  default [] (hints s !! targetNode).

Definition GetAllTargets (s : t) : list string := (map_to_list (hints s)).*1.

Definition Count (s : t) : Z :=
  map_fold (λ _ queue count, count + len queue) 0 (hints s).

End HintedHandoffStore.

(* ===================================================================== *)
(** * internal/replication/quorum.go *)
(* ===================================================================== *)

Module QuorumManager.

Record t : Type := {
  replicationFactor : Z;
  readQuorum : Z;
  writeQuorum : Z;
}.

Definition NewQuorumManager (n r w : Z) : t :=
  {| replicationFactor := n; readQuorum := r; writeQuorum := w |}.

Definition getWriteRequirement (qm : t) (consistency : types.ConsistencyLevel) : Z :=
  if decide (consistency = types.ConsistencyOne) then 1
  else if decide (consistency = types.ConsistencyAll) then replicationFactor qm
  else writeQuorum qm.

Definition getReadRequirement (qm : t) (consistency : types.ConsistencyLevel) : Z :=
  if decide (consistency = types.ConsistencyOne) then 1
  else if decide (consistency = types.ConsistencyAll) then replicationFactor qm
  else readQuorum qm.

Definition ValidateQuorum (qm : t) : bool :=
  replicationFactor qm <? writeQuorum qm + readQuorum qm.

End QuorumManager.

(* ===================================================================== *)
(** * package versioning *)
(* ===================================================================== *)

Module versioning.
Import types.

(** [types.KeyValueEntry] with the [Version] field the resolver reads. *)
Record KeyValueEntry : Type := {
  entry : types.KeyValueEntry;
  Version : VectorClock.t;
}.

(** [types.KeyValueEntry{}]. *)
Definition zero : KeyValueEntry :=
  {| entry := {| Key := ""; Value := []; Timestamp := 0; IsDeleted := false |};
     Version := ∅ |}.

(** [type ResolveStrategy int]. *)
Definition ResolveStrategy : Type := Z.
Definition LastWriteWins : ResolveStrategy := 0.
Definition VectorClockBased : ResolveStrategy := 1.

Record Resolver : Type := { strategy : ResolveStrategy }.

Definition NewResolver (strategy : ResolveStrategy) : Resolver :=
  {| strategy := strategy |}.

(** [resolveByTimestamp]: [entries[0]] panics on an empty slice. *)
Definition resolveByTimestamp (entries : list KeyValueEntry) : result KeyValueEntry :=
  match entries with
  | [] => Err (Panic "index out of range [0] with length 0")
  | first :: rest =>
      Ok (foldl (λ winner e,
                   if Timestamp (entry winner) <? Timestamp (entry e) then e else winner)
            first rest)
  end.

(** The inner loop of [resolveByVectorClock] for the entry [e1] at index [i]. *)
Definition dominated (entries : list KeyValueEntry) (i : nat) (e1 : KeyValueEntry)
    : bool :=
  existsb (λ je2 : nat * KeyValueEntry,
             bool_decide (i ≠ je2.1)
             && (VectorClock.Compare (Version e1) (Version je2.2) <? 0))
    (imap pair entries).

Definition resolveByVectorClock (entries : list KeyValueEntry) : result KeyValueEntry :=
  let candidates :=
    (filter (λ ie1 : nat * KeyValueEntry, dominated entries ie1.1 ie1.2 = false)
       (imap pair entries)).*2 in
  match candidates with
  | [candidate] => Ok candidate
  | _ => resolveByTimestamp candidates
  end.

Definition Resolve (r : Resolver) (entries : list KeyValueEntry) : result KeyValueEntry :=
  match entries with
  | [] => Ok zero
  | [e] => Ok e
  | _ =>
      if strategy r =? LastWriteWins then resolveByTimestamp entries
      else if strategy r =? VectorClockBased then resolveByVectorClock entries
      else resolveByTimestamp entries
  end.

Definition IsConcurrent (a b : KeyValueEntry) : bool :=
  (VectorClock.Compare (Version a) (Version b) =? 0)
  && negb (Timestamp (entry a) =? Timestamp (entry b)).

(** [Resolver.Merge]. *)
Definition Merge (r : Resolver) (entries : list KeyValueEntry) (nodeID : string)
    : result KeyValueEntry :=
  match entries with
  | [] => Ok zero
  | _ =>
      match Resolve r entries with
      | Err err => Err err
      | Ok winner =>
          let mergedClock :=
            foldl (λ mergedClock e, VectorClock.Merge mergedClock (Version e))
              ∅ entries in
          let mergedClock := VectorClock.Increment mergedClock nodeID in
          Ok {| entry := entry winner; Version := mergedClock |}
      end
  end.

(** [HappensBefore], [HappensAfter], [AreConcurrent]. *)
Definition HappensBefore (a b : VectorClock.t) : bool := VectorClock.Compare a b <? 0.
Definition HappensAfter (a b : VectorClock.t) : bool := 0 <? VectorClock.Compare a b.
Definition AreConcurrent (a b : VectorClock.t) : bool := VectorClock.Compare a b =? 0.

End versioning.

(* ===================================================================== *)
(** * internal/config/config.go *)
(* ===================================================================== *)

Module config.

(** The fields of [Config] that [Validate] and the address functions read.
    The fields are Go [int]s. *)
Record Config : Type := {
  NodeID : string;
  Address : string;
  Port : Z;
  DataDir : string;
  ReplicationFactor : Z;
  ReadQuorum : Z;
  WriteQuorum : Z;
  VirtualNodes : Z;
  GossipPort : Z;
}.

(** [Validate]: nil ([None]) or the first complaint.  The warning it prints
    when [W + R <= N] is no error. *)
Definition Validate (c : Config) : option error :=
  if decide (NodeID c = "") then Some (Errorf "node_id is required")
  else if (Port c <=? 0) || (65535 <? Port c) then
    Some (Errorf ("invalid port: " +:+ pretty (Port c)))
  else if decide (DataDir c = "") then Some (Errorf "data_dir is required")
  else if ReplicationFactor c <? 1 then
    Some (Errorf "replication_factor must be at least 1")
  else if (ReadQuorum c <? 1) || (ReplicationFactor c <? ReadQuorum c) then
    Some (Errorf "read_quorum must be between 1 and replication_factor")
  else if (WriteQuorum c <? 1) || (ReplicationFactor c <? WriteQuorum c) then
    Some (Errorf "write_quorum must be between 1 and replication_factor")
  else if VirtualNodes c <? 1 then
    Some (Errorf "virtual_nodes must be at least 1")
  else None.

(** [DefaultConfig], with the host name the operating system reports. *)
Definition DefaultConfig_of (hostname : string) : Config :=
  {| NodeID := hostname; Address := "127.0.0.1"; Port := 8080;
     DataDir := "./data"; ReplicationFactor := 3; ReadQuorum := 2;
     WriteQuorum := 2; VirtualNodes := 150; GossipPort := 7946 |}.

Definition FullAddress (c : Config) : string :=
  Address c +:+ ":" +:+ pretty (Port c).

Definition GossipAddress (c : Config) : string :=
  Address c +:+ ":" +:+ pretty (GossipPort c).

End config.

(* ===================================================================== *)
(** * The objects of one running node *)
(* ===================================================================== *)

(** [main] creates one store, one ring, one coordinator and one hinted-handoff
    store, and hands the same store to the coordinator and to the API server.
    [Node.t] holds these shared objects; the coordinator and the handlers
    below act on it.  [sent] records, oldest first, the requests sent to
    peers; [spawned] the goroutines started with [go] and not yet run. *)
Module Node.

Inductive Rpc : Type :=
  | PostReplicate (nodeID : string) (req : types.ReplicationRequest)
  | GetRead (nodeID : string) (key : string).

#[global] Instance Rpc_eq_dec : EqDecision Rpc.
Proof. solve_decision. Defined.

(** What the peers answer: whether POST /internal/replicate to a node comes
    back with status 200, and the entry GET /internal/read yields (none on a
    transport error, another status or an undecodable body). *)
Record Transport : Type := {
  replicate_ok : string → types.ReplicationRequest → bool;
  read_reply : string → string → option types.KeyValueEntry;
}.

(** The fields of [config.Config] the coordinator reads. *)
Record Config : Type := {
  NodeID : string;
  ReplicationFactor : Z;
  ReadQuorum : Z;
  WriteQuorum : Z;
}.

(** What the coordinator reads of a configuration. *)
Definition of_config (c : config.Config) : Config :=
  {| NodeID := config.NodeID c;
     ReplicationFactor := config.ReplicationFactor c;
     ReadQuorum := config.ReadQuorum c;
     WriteQuorum := config.WriteQuorum c |}.

Record t : Type := {
  storage : Bitcask.t;
  ring : HashRing.t;
  nodes : gmap string types.Node;
  handoffStore : HintedHandoffStore.t;
  sent : list Rpc;
  spawned : list (list string * types.KeyValueEntry);
}.

Definition set_storage (st : t) (s : Bitcask.t) : t :=
  {| storage := s; ring := ring st; nodes := nodes st;
     handoffStore := handoffStore st; sent := sent st; spawned := spawned st |}.

Definition set_ring (st : t) (r : HashRing.t) : t :=
  {| storage := storage st; ring := r; nodes := nodes st;
     handoffStore := handoffStore st; sent := sent st; spawned := spawned st |}.

Definition set_nodes (st : t) (ns : gmap string types.Node) : t :=
  {| storage := storage st; ring := ring st; nodes := ns;
     handoffStore := handoffStore st; sent := sent st; spawned := spawned st |}.

Definition send (st : t) (rpc : Rpc) : t :=
  {| storage := storage st; ring := ring st; nodes := nodes st;
     handoffStore := handoffStore st; sent := sent st ++ [rpc];
     spawned := spawned st |}.

Definition go_readRepair (st : t) (task : list string * types.KeyValueEntry) : t :=
  {| storage := storage st; ring := ring st; nodes := nodes st;
     handoffStore := handoffStore st; sent := sent st;
     spawned := spawned st ++ [task] |}.

End Node.

(* ===================================================================== *)
(** * internal/replication/coordinator.go *)
(* ===================================================================== *)

Module Coordinator.
Import Node.

Section coordinator.

Context `{Sorter}.
Variable cfg : Config.
Variable net : Transport.

Definition RegisterNode (st : t) (node : types.Node) : t :=
  set_ring (set_nodes st (<[types.ID node := node]> (nodes st)))
    (HashRing.AddNode (ring st) (types.ID node)).

Definition UnregisterNode (st : t) (nodeID : string) : t :=
  set_ring (set_nodes st (delete nodeID (nodes st)))
    (HashRing.RemoveNode (ring st) nodeID).

Definition getWriteQuorum (consistency : types.ConsistencyLevel) : Z :=
  if decide (consistency = types.ConsistencyOne) then 1
  else if decide (consistency = types.ConsistencyAll) then ReplicationFactor cfg
  else WriteQuorum cfg.

Definition getReadQuorum (consistency : types.ConsistencyLevel) : Z :=
  if decide (consistency = types.ConsistencyOne) then 1
  else if decide (consistency = types.ConsistencyAll) then ReplicationFactor cfg
  else ReadQuorum cfg.

(** [sendReplication]: no request leaves the node for an id that is not in
    [c.nodes]. *)
Definition sendReplication (st : t) (nodeID : string)
    (entry : types.KeyValueEntry) : t * bool :=
  match nodes st !! nodeID with
  | None => (st, false)
  | Some _ =>
      let req := {| types.req_Entry := entry; types.FromNode := NodeID cfg;
                    types.IsHandoff := false |} in
      (send st (PostReplicate nodeID req), replicate_ok net nodeID req)
  end.

Definition fetchFromNode (st : t) (nodeID key : string)
    : t * option types.KeyValueEntry :=
  match nodes st !! nodeID with
  | None => (st, None)
  | Some _ => (send st (GetRead nodeID key), read_reply net nodeID key)
  end.

(** One goroutine of [replicateToNodes].  The goroutines of one call work on
    different nodes; they are run here in the order of the list. *)
Definition replicate_one (entry : types.KeyValueEntry)
    (acc : t * gmap string bool) (nodeID : string) : t * gmap string bool :=
  let '(st, results) := acc in
  let '(st, success) :=
    if decide (nodeID = NodeID cfg) then
      let '(s, err) := Bitcask.Put (storage st) (types.Key entry)
                         (types.Value entry) (types.Timestamp entry) in
      (set_storage st s, bool_decide (err = None))
    else sendReplication st nodeID entry in
  (st, <[nodeID := success]> results).

Definition replicateToNodes (st : t) (nodes : list string)
    (entry : types.KeyValueEntry) : t * gmap string bool :=
  foldl (replicate_one entry) (st, ∅) nodes.

(** The goroutine [readFromNodes] starts for position [idx] of the list: it
    fills [responses[idx]]. *)
Definition read_one (nodes : list string) (key : string)
    (acc : t * list (option types.KeyValueEntry)) (idx : nat)
    : t * list (option types.KeyValueEntry) :=
  match nodes !! idx with
  | None => acc
  | Some nodeID =>
      let '(st, responses) := acc in
      let '(st, entry) :=
        if decide (nodeID = NodeID cfg) then
          let '(s, r) := Bitcask.Get (storage st) key in
          (set_storage st s,
           match r with
           | Ok (value, timestamp) =>
               Some {| types.Key := key; types.Value := value;
                       types.Timestamp := timestamp; types.IsDeleted := false |}
           | Err _ => None
           end)
        else fetchFromNode st nodeID key in
      (st, <[idx := entry]> responses)
  end.

(** [readFromNodes], with its goroutines run in the order [schedule]: a
    rearrangement of the positions of [nodes], which one is up to the Go
    scheduler.  [responses] starts as [len(nodes)] nil pointers. *)
Definition readFromNodes (schedule : list nat) (st : t) (nodes : list string)
    (key : string) : t * list (option types.KeyValueEntry) :=
  foldl (read_one nodes key) (st, replicate (length nodes) None) schedule.

(** [Put] at clock reading [now]. *)
Definition Put (st : t) (now : Z) (key : string) (value : list byte)
    (consistency : types.ConsistencyLevel) : t * option error :=
  let timestamp := now in
  match HashRing.GetNodes (ring st) key (ReplicationFactor cfg) with
  | Err err => (st, Some (Wrap "failed to get preference list" err))
  | Ok preferenceList =>
      let requiredAcks := getWriteQuorum consistency in
      let entry := {| types.Key := key; types.Value := value;
                      types.Timestamp := timestamp; types.IsDeleted := false |} in
      let '(st, results) := replicateToNodes st preferenceList entry in
      let successCount :=
        map_fold (λ _ (success : bool) count, if success then count + 1 else count)
          0 results in
      if successCount <? requiredAcks then
        (st, Some (Errorf ("quorum not met: got " +:+ pretty successCount
                           +:+ " acks, needed " +:+ pretty requiredAcks)))
      else (st, None)
  end.

(** The comparison [Get] gives to [sort.Slice]. *)
Definition newer (a b : types.KeyValueEntry) : bool :=
  types.Timestamp b <? types.Timestamp a.

(** [Get], for the order [schedule] in which the goroutines of
    [readFromNodes] run.  The read repair it starts with [go] is queued in
    [spawned]. *)
Definition Get (schedule : list nat) (st : t) (key : string)
    (consistency : types.ConsistencyLevel) : t * result (list byte * Z) :=
  match HashRing.GetNodes (ring st) key (ReplicationFactor cfg) with
  | Err err => (st, Err (Wrap "failed to get preference list" err))
  | Ok preferenceList =>
      let requiredReads := getReadQuorum consistency in
      let '(st, responses) := readFromNodes schedule st preferenceList key in
      let successfulResponses := omap id responses in
      if len successfulResponses <? requiredReads then
        (st, Err (Errorf "key not found"))
      else
        match sort_Slice newer successfulResponses with
        | [] => (st, Err (Panic "index out of range [0] with length 0"))
        | latest :: _ =>
            (go_readRepair st (preferenceList, latest),
             Ok (types.Value latest, types.Timestamp latest))
        end
  end.

(** One turn of the loop of [readRepair]. *)
Definition repair_one (latest : types.KeyValueEntry) (st : t) (nodeID : string) : t :=
  if decide (nodeID = NodeID cfg) then
    let '(s, r) := Bitcask.Get (storage st) (types.Key latest) in
    let st := set_storage st s in
    let put (st : t) : t :=
      set_storage st
        (Bitcask.Put (storage st) (types.Key latest) (types.Value latest)
           (types.Timestamp latest)).1 in
    match r with
    | Err _ => put st
    | Ok (value, timestamp) =>
        if timestamp <? types.Timestamp latest then put st
        else if (timestamp =? types.Timestamp latest)
                && negb (bytes_Equal value (types.Value latest)) then put st
        else st
    end
  else (sendReplication st nodeID latest).1.

Definition readRepair (st : t) (nodes : list string)
    (latest : types.KeyValueEntry) : t :=
  foldl (repair_one latest) st nodes.

(** Running the oldest goroutine started by [Get]. *)
Definition run_spawned (st : t) : t :=
  match spawned st with
  | [] => st
  | (nodes, latest) :: rest =>
      readRepair
        {| storage := storage st; ring := ring st; Node.nodes := Node.nodes st;
           handoffStore := handoffStore st; sent := sent st; spawned := rest |}
        nodes latest
  end.

End coordinator.

End Coordinator.

(* ===================================================================== *)
(** * internal/api: the handlers *)
(* ===================================================================== *)

Module Server.
Import Node.

(** The status and, for a read, the entry of a response. *)
Record Response : Type := {
  StatusCode : Z;
  Body : option types.KeyValueEntry;
}.

Definition StatusOK : Z := 200.
Definition StatusBadRequest : Z := 400.
Definition StatusNotFound : Z := 404.
Definition StatusInternalServerError : Z := 500.

Definition writeError (statusCode : Z) : Response :=
  {| StatusCode := statusCode; Body := None |}.

(** [handleDelete] for the path variable [key], at clock reading [now]. *)
Definition handleDelete (st : t) (now : Z) (key : string) : t * Response :=
  if decide (key = "") then (st, writeError StatusBadRequest)
  else
    let timestamp := now in
    let '(s, err) := Bitcask.Delete (storage st) key timestamp in
    let st := set_storage st s in
    match err with
    | Some _ => (st, writeError StatusInternalServerError)
    | None => (st, {| StatusCode := StatusOK; Body := None |})
    end.

(** [handleReplication] for a decoded request body. *)
Definition handleReplication (st : t) (req : types.ReplicationRequest) : t * Response :=
  let entry := types.req_Entry req in
  let '(s, err) :=
    if types.IsDeleted entry then
      Bitcask.Delete (storage st) (types.Key entry) (types.Timestamp entry)
    else
      Bitcask.Put (storage st) (types.Key entry) (types.Value entry)
        (types.Timestamp entry) in
  let st := set_storage st s in
  match err with
  | Some _ => (st, writeError StatusInternalServerError)
  | None => (st, {| StatusCode := StatusOK; Body := None |})
  end.

(** [handleInternalRead] for the query parameter [key]. *)
Definition handleInternalRead (st : t) (key : string) : t * Response :=
  if decide (key = "") then (st, writeError StatusBadRequest)
  else
    let '(s, r) := Bitcask.Get (storage st) key in
    let st := set_storage st s in
    match r with
    | Err _ => (st, writeError StatusNotFound)
    | Ok (value, timestamp) =>
        (st, {| StatusCode := StatusOK;
                Body := Some {| types.Key := key; types.Value := value;
                                types.Timestamp := timestamp;
                                types.IsDeleted := false |} |})
    end.

End Server.
(* ===================================================================== *)
(** * Vocabulary of the statements *)
(* ===================================================================== *)

Module Spec.

(** The [k] low-order bytes of [v], most significant first. *)
Definition be_digits (k : nat) (v : Z) : list byte :=
  (λ i, byte_of_Z (Z.shiftr v (8 * Z.of_nat i))) <$> rev (seq 0 k).

(** The elements of [l] not in [seen], each at its first occurrence. *)
Fixpoint first_occurrences (l : list string) (seen : gset string) : list string :=
  match l with
  | [] => []
  | x :: l =>
      if decide (x ∈ seen) then first_occurrences l seen
      else x :: first_occurrences l ({[x]} ∪ seen)
  end.

(** The node ids met when walking the token list forward from position
    [start], wrapping at the end. *)
Definition walk (vns : list HashRing.VNode) (start : nat) : list string :=
  HashRing.NodeID <$> (drop start vns ++ take start vns).

(** [start] is the position of the first token whose hash is at least [h],
    or 0 when every token is below [h]. *)
Definition first_token_from (vns : list HashRing.VNode) (h : Z) (start : nat) : Prop :=
  (start < length vns)%nat
  ∧ ((h ≤ HashRing.Hash (vns !!! start)
      ∧ ∀ k, (k < start)%nat → HashRing.Hash (vns !!! k) < h)
     ∨ (start = 0%nat
        ∧ ∀ k, (k < length vns)%nat → HashRing.Hash (vns !!! k) < h)).

(** The true numbers of live keys and of tombstones in an index. *)
Definition live_count (idx : Index.t) : Z :=
  Z.of_nat (size (filter (λ kv, Index.IsDeleted kv.2 = false) (Index.entries idx))).

Definition tombstone_count (idx : Index.t) : Z :=
  Z.of_nat (size (filter (λ kv, Index.IsDeleted kv.2 = true) (Index.entries idx))).

(** The records of the data model: the key and the value have lengths that
    fit in 32 bits, the timestamp is an [int64]. *)
Record wf_record (key : string) (value : list byte) (timestamp : Z) : Prop := {
  wf_key : len (bytes_of_string key) < 2 ^ 32;
  wf_value : len value < 2 ^ 32;
  wf_timestamp : - 2 ^ 63 ≤ timestamp < 2 ^ 63;
}.

(** A record of the log. *)
Record LogRecord : Type := {
  rec_key : string;
  rec_value : list byte;
  rec_timestamp : Z;
  rec_deleted : bool;
}.

Definition encode_record (r : LogRecord) : list byte :=
  Bitcask.encode (rec_key r) (rec_value r) (rec_timestamp r) (rec_deleted r).

Definition wf_log_record (r : LogRecord) : Prop :=
  wf_record (rec_key r) (rec_value r) (rec_timestamp r).

(** What the keys hold after a sequence of records: nothing for a key never
    written, [None] for a key whose last record is a tombstone, the value and
    timestamp of its last record otherwise. *)
Definition replay (recs : list LogRecord) : gmap string (option (list byte * Z)) :=
  foldl (λ m r, <[rec_key r := if rec_deleted r then None
                               else Some (rec_value r, rec_timestamp r)]> m)
    ∅ recs.

(** The content without its tombstones. *)
Definition live_only (m : gmap string (option (list byte * Z)))
    : gmap string (option (list byte * Z)) :=
  Some <$> omap id m.

(** What [Get] is to answer for a key. *)
Definition view (m : gmap string (option (list byte * Z))) (key : string)
    : result (list byte * Z) :=
  match m !! key with
  | None => Err ErrKeyNotFound
  | Some None => Err ErrKeyDeleted
  | Some (Some found) => Ok found
  end.

(** The bytes of the log: what is on the file and what is still buffered. *)
Definition log (bc : Bitcask.t) : list byte :=
  Bitcask.dataFile bc ++ Bitcask.writer bc.

(** The file holds the live record [(key, value, timestamp)] at [offset]. *)
Definition record_at (file : list byte) (offset : Z) (key : string)
    (value : list byte) (timestamp : Z) : Prop :=
  0 ≤ offset ∧ wf_record key value timestamp
  ∧ ∃ rest, drop (Z.to_nat offset) file
            = Bitcask.encode key value timestamp false ++ rest.

(** The index agrees with the content [m] and points into [file]. *)
Definition index_ok (file : list byte) (idx : Index.t)
    (m : gmap string (option (list byte * Z))) : Prop :=
  ∀ key,
    match m !! key with
    | None => Index.entries idx !! key = None
    | Some None =>
        ∃ e, Index.entries idx !! key = Some e ∧ Index.IsDeleted e = true
    | Some (Some (value, timestamp)) =>
        ∃ e, Index.entries idx !! key = Some e ∧ Index.IsDeleted e = false
             ∧ record_at file (Index.Offset e) key value timestamp
    end.

(** An open store whose log consists of the records [recs]. *)
Record store_ok (bc : Bitcask.t) (recs : list LogRecord) : Prop := {
  ok_open : Bitcask.closed bc = false;
  ok_position : Bitcask.position bc = len (log bc);
  ok_log : log bc = flat_map encode_record recs;
  ok_wf : Forall wf_log_record recs;
  ok_index : index_ok (log bc) (Bitcask.index bc) (replay recs);
}.

(** The state of the loop of [Compact] after it has visited the keys [D]. *)
Definition compact_inv (m : gmap string (option (list byte * Z))) (D : gset string)
    (tmp : list byte) (newIndex : Index.t) (recs' : list LogRecord) : Prop :=
  tmp = flat_map encode_record recs'
  ∧ Forall wf_log_record recs'
  ∧ index_ok tmp newIndex (replay recs')
  ∧ ∀ key, replay recs' !! key
           = if decide (key ∈ D) then live_only m !! key else None.

(** The store [NewBitcask] returns for a data directory without data.db. *)
Definition empty_store (syncWrite : bool) : Bitcask.t :=
  {| Bitcask.dataFile := []; Bitcask.writer := []; Bitcask.index := Index.NewIndex;
     Bitcask.position := 0; Bitcask.closed := false;
     Bitcask.syncWrite := syncWrite;
     Bitcask.totalReads := 0; Bitcask.totalWrites := 0 |}.

(** What the replica [nodeID] answers when the coordinator in state [st]
    reads [key] from it: the coordinator's own store is read directly, a
    peer the coordinator has no address for gives nothing. *)
Definition response_of (cfg : Node.Config) (net : Node.Transport) (st : Node.t)
    (key nodeID : string) : option types.KeyValueEntry :=
  if decide (nodeID = Node.NodeID cfg) then
    match (Bitcask.Get (Node.storage st) key).2 with
    | Ok (value, timestamp) =>
        Some {| types.Key := key; types.Value := value;
                types.Timestamp := timestamp; types.IsDeleted := false |}
    | Err _ => None
    end
  else
    match Node.nodes st !! nodeID with
    | None => None
    | Some _ => Node.read_reply net nodeID key
    end.

(** Whether the replica [nodeID] acknowledges the write of [entry] the
    coordinator in state [st] sends it: the coordinator's own store by the
    result of [Put], a peer by the result of [sendReplication]. *)
Definition acks (cfg : Node.Config) (net : Node.Transport) (st : Node.t)
    (entry : types.KeyValueEntry) (nodeID : string) : bool :=
  if decide (nodeID = Node.NodeID cfg) then
    bool_decide ((Bitcask.Put (Node.storage st) (types.Key entry)
                    (types.Value entry) (types.Timestamp entry)).2 = None)
  else (Coordinator.sendReplication cfg net st nodeID entry).2.

(** The count [Put] takes of the results of [replicateToNodes]. *)
Definition successes (results : gmap string bool) : Z :=
  map_fold (λ (_ : string) (success : bool) (count : Z),
              if success then count + 1 else count) 0 results.

(** The replication request the coordinator sends for [entry]. *)
Definition request (cfg : Node.Config) (entry : types.KeyValueEntry)
    : types.ReplicationRequest :=
  {| types.req_Entry := entry; types.FromNode := Node.NodeID cfg;
     types.IsHandoff := false |}.

(** The peers among [nodes] a request goes out to: every node other than
    the coordinator that the coordinator has an address for. *)
Definition reached (cfg : Node.Config) (st : Node.t) (nodes : list string)
    : list string :=
  filter (λ id, id ≠ Node.NodeID cfg ∧ is_Some (Node.nodes st !! id)) nodes.

(** The node a request is addressed to. *)
Definition target (rpc : Node.Rpc) : string :=
  match rpc with
  | Node.PostReplicate nodeID _ => nodeID
  | Node.GetRead nodeID _ => nodeID
  end.

(** Two stores with the same content: [Get] cannot tell them apart. *)
Definition same_content (s s' : Bitcask.t) : Prop :=
  Bitcask.closed s = Bitcask.closed s'
  ∧ Bitcask.index s = Bitcask.index s'
  ∧ log s = log s'.

(** Whether read repair finds the coordinator's own copy, as [Get] on the
    local store reports it, in need of the winning record [latest]: missing
    or unreadable, older, or of the same timestamp with another value. *)
Definition needs_repair (latest : types.KeyValueEntry)
    (own : result (list byte * Z)) : bool :=
  match own with
  | Err _ => true
  | Ok (value, timestamp) =>
      (timestamp <? types.Timestamp latest)
      || ((timestamp =? types.Timestamp latest)
          && negb (bytes_Equal value (types.Value latest)))
  end.

(** The local store after read repair looked at it: read once, and written
    with the winning record when the copy read needs it. *)
Definition local_repair (latest : types.KeyValueEntry) (s : Bitcask.t) : Bitcask.t :=
  let '(s, own) := Bitcask.Get s (types.Key latest) in
  if needs_repair latest own then
    (Bitcask.Put s (types.Key latest) (types.Value latest) (types.Timestamp latest)).1
  else s.

(** The open stores the program can reach: a store created on an empty
    directory, and what [Put], [Delete], [Get], [Sync] and [Compact] (in any
    order of its map range) make of a reachable store, as well as the store
    opened on the file a reachable store leaves when it is closed.  (A
    closed store answers [ErrStorageClosed] to everything and stays as it
    is.) *)
Inductive store_reachable : Bitcask.t → Prop :=
  | store_new syncWrite :
      store_reachable (empty_store syncWrite)
  | store_put bc key value timestamp :
      store_reachable bc → wf_record key value timestamp →
      store_reachable (Bitcask.Put bc key value timestamp).1
  | store_delete bc key timestamp :
      store_reachable bc → wf_record key [] timestamp →
      store_reachable (Bitcask.Delete bc key timestamp).1
  | store_get bc key :
      store_reachable bc → store_reachable (Bitcask.Get bc key).1
  | store_sync bc :
      store_reachable bc → store_reachable (Bitcask.Sync bc).1
  | store_compact bc order :
      store_reachable bc →
      order ≡ₚ map_to_list (Index.All (Bitcask.index bc)) →
      store_reachable (Bitcask.CompactIn order bc).1
  | store_reopen bc syncWrite bc' :
      store_reachable bc →
      Bitcask.NewBitcask (Bitcask.dataFile (Bitcask.Close bc)) syncWrite = Ok bc' →
      store_reachable bc'.

(** The offsets recovery reaches by reading records from the start of the
    file: [valid_prefix file o] says that the file up to [o] parses as
    records. *)
Inductive valid_prefix (file : list byte) : Z → Prop :=
  | valid_start : valid_prefix file 0
  | valid_next o entry n :
      valid_prefix file o →
      Bitcask.readEntry (drop (Z.to_nat o) file) o = Ok (entry, n) →
      valid_prefix file (o + n).

(** Sequences of writes to the log store. *)
Inductive Op : Type :=
  | OpPut (key : string) (value : list byte) (timestamp : Z)
  | OpDelete (key : string) (timestamp : Z).

Definition op_key (op : Op) : string :=
  match op with OpPut key _ _ => key | OpDelete key _ => key end.

Definition op_timestamp (op : Op) : Z :=
  match op with OpPut _ _ timestamp => timestamp | OpDelete _ timestamp => timestamp end.

Definition wf_op (op : Op) : Prop :=
  match op with
  | OpPut key value timestamp => wf_record key value timestamp
  | OpDelete key timestamp => wf_record key [] timestamp
  end.

Definition apply_op (bc : Bitcask.t) (op : Op) : Bitcask.t * option error :=
  match op with
  | OpPut key value timestamp => Bitcask.Put bc key value timestamp
  | OpDelete key timestamp => Bitcask.Delete bc key timestamp
  end.

(** The store after the operations, or the error of the first that fails. *)
Fixpoint run (ops : list Op) (bc : Bitcask.t) : result Bitcask.t :=
  match ops with
  | [] => Ok bc
  | op :: ops =>
      match apply_op bc op with
      | (bc, None) => run ops bc
      | (_, Some err) => Err err
      end
  end.

(** The most recent operation on [key]. *)
Definition last_op_on (key : string) (ops : list Op) : option Op :=
  last (filter (λ op, op_key op = key) ops).

(** What a read of [key] is to return after [ops]. *)
Definition expected (ops : list Op) (key : string) : result (list byte * Z) :=
  match last_op_on key ops with
  | None => Err ErrKeyNotFound
  | Some (OpPut _ value timestamp) => Ok (value, timestamp)
  | Some (OpDelete _ _) => Err ErrKeyDeleted
  end.

(** The record an operation appends to the log. *)
Definition op_record (op : Op) : LogRecord :=
  match op with
  | OpPut key value timestamp =>
      {| rec_key := key; rec_value := value; rec_timestamp := timestamp;
         rec_deleted := false |}
  | OpDelete key timestamp =>
      {| rec_key := key; rec_value := []; rec_timestamp := timestamp;
         rec_deleted := true |}
  end.

(** Opening the store on [file] succeeds, whatever the sync option, and the
    store opened answers [Get] and [Has] for every key as [bc] does. *)
Definition recovers (file : list byte) (bc : Bitcask.t) : Prop :=
  ∀ syncWrite, ∃ bc',
    Bitcask.NewBitcask file syncWrite = Ok bc'
    ∧ ∀ key, (Bitcask.Get bc' key).2 = (Bitcask.Get bc key).2
             ∧ Bitcask.Has bc' key = Bitcask.Has bc key.

(** The number of puts in [ops] that find their key tombstoned, [dead]
    being the keys that are tombstoned before [ops]. *)
Fixpoint revived (dead : gset string) (ops : list Op) : Z :=
  match ops with
  | [] => 0
  | OpPut key _ _ :: ops =>
      (if decide (key ∈ dead) then 1 else 0) + revived (dead ∖ {[key]}) ops
  | OpDelete key _ :: ops => revived ({[key]} ∪ dead) ops
  end.

(** Whether the index holds a tombstone for [key]. *)
Definition tombstoned (idx : Index.t) (key : string) : bool :=
  match Index.entries idx !! key with
  | Some e => Index.IsDeleted e
  | None => false
  end.

(** The two counters of an index against its entries: the tombstone counter
    is exact, the counter of active keys is [short] below the number of live
    entries (both modulo 2^64, as [int64] counters are). *)
Definition counters_short (short : Z) (idx : Index.t) : Prop :=
  Index.deleted idx = int64 (tombstone_count idx)
  ∧ Index.active idx = int64 (live_count idx - short).

(** The record a compaction writes for [key], if any: the one the content
    [m] holds for it when the key is live. *)
Definition kept (m : gmap string (option (list byte * Z))) (key : string)
    : list LogRecord :=
  match m !! key with
  | Some (Some (value, timestamp)) =>
      [{| rec_key := key; rec_value := value; rec_timestamp := timestamp;
          rec_deleted := false |}]
  | _ => []
  end.

(** The store after [ops], applied one after the other. *)
Definition after (ops : list Op) (bc : Bitcask.t) : Bitcask.t :=
  foldl (λ bc op, (apply_op bc op).1) bc ops.

(** The token [t] of the list [vns] that owns the hash [h]: a token with
    the least hash among those at or above [h], or a token with the least
    hash of all when every token is below [h]. *)
Definition successor (vns : list HashRing.VNode) (h : Z) (t : HashRing.VNode) : Prop :=
  t ∈ vns
  ∧ ((h ≤ HashRing.Hash t
      ∧ ∀ u, u ∈ vns → h ≤ HashRing.Hash u → HashRing.Hash t ≤ HashRing.Hash u)
     ∨ ((∀ u, u ∈ vns → HashRing.Hash u < h)
        ∧ ∀ u, u ∈ vns → HashRing.Hash t ≤ HashRing.Hash u)).

(** The rings the program can build. *)
Inductive ring_reachable `{Sorter} : HashRing.t → Prop :=
  | ring_new virtualNodes :
      ring_reachable (HashRing.NewHashRing virtualNodes)
  | ring_add r nodeID :
      ring_reachable r → ring_reachable (HashRing.AddNode r nodeID)
  | ring_remove r nodeID :
      ring_reachable r → ring_reachable (HashRing.RemoveNode r nodeID).

(** What holds of every ring the program builds. *)
Record ring_inv (r : HashRing.t) : Prop := {
  inv_sorted :
    StronglySorted (λ a b, HashRing.Hash a ≤ HashRing.Hash b) (HashRing.vnodes r);
  inv_count : 1 ≤ HashRing.virtualCount r;
  inv_nodes : ∀ id,
    id ∈ HashRing.NodeID <$> HashRing.vnodes r
    ↔ is_Some (HashRing.nodeVNodes r !! id);
}.




(** A vector clock as the type has it: every counter is a [uint64]. *)
Definition clock_ok (vc : types.VectorClock.t) : Prop :=
  map_Forall (λ _ v, 0 ≤ v < 2 ^ 64) vc.

(** [a] happened before [b]: no counter of [a] exceeds that of [b], and one
    at least is below it. *)
Definition before (a b : types.VectorClock.t) : Prop :=
  (∀ k, types.VectorClock.get a k ≤ types.VectorClock.get b k)
  ∧ ∃ k, types.VectorClock.get a k < types.VectorClock.get b k.

End Spec.

(* ===================================================================== *)
(** * Inputs used in the examples *)
(* ===================================================================== *)

Module Demo.

(** The examples sort with the routine package sort uses on short slices. *)
#[local] Existing Instance insertion_Sorter.

(** Two nodes with two tokens each. *)
Definition ring : HashRing.t :=
  HashRing.AddNode (HashRing.AddNode (HashRing.NewHashRing 2) "n1") "n2".

(** A node [n1] that knows itself and its peer [n2], as [main] and the
    membership callbacks set it up, with replication factor 2. *)
Definition cfg (r w : Z) : Node.Config :=
  {| Node.NodeID := "n1"; Node.ReplicationFactor := 2;
     Node.ReadQuorum := r; Node.WriteQuorum := w |}.

Definition peer (id : string) (port : Z) : types.Node :=
  {| types.ID := id; types.Address := "127.0.0.1"; types.Port := port;
     types.State := types.NodeAlive |}.

Definition node : Node.t :=
  let fresh :=
    {| Node.storage := Spec.empty_store false;
       Node.ring := HashRing.NewHashRing 2;
       Node.nodes := ∅;
       Node.handoffStore := HintedHandoffStore.NewHintedHandoffStore 86400000000000 1000;
       Node.sent := [];
       Node.spawned := [] |} in
  Coordinator.RegisterNode
    (Coordinator.RegisterNode fresh (peer "n1" 8001)) (peer "n2" 8002).

(** The same node with [value] stored locally under [key] at [timestamp]. *)
Definition node_with (key : string) (value : list byte) (timestamp : Z) : Node.t :=
  Node.set_storage node (Bitcask.Put (Node.storage node) key value timestamp).1.

(** A peer that holds [value] at [timestamp] for every key and accepts
    ([accept = true]) or fails ([accept = false]) every replicated write. *)
Definition net (accept : bool) (value : list byte) (timestamp : Z) : Node.Transport :=
  {| Node.replicate_ok := λ _ _, accept;
     Node.read_reply := λ _ key,
       Some {| types.Key := key; types.Value := value;
               types.Timestamp := timestamp; types.IsDeleted := false |} |}.

(** A sequence of writes with increasing timestamps. *)
Definition ops : list Spec.Op :=
  [Spec.OpPut "k1" (bytes_of_string "v1") 100;
   Spec.OpPut "k2" (bytes_of_string "v2") 101;
   Spec.OpDelete "k1" 102;
   Spec.OpPut "k3" (bytes_of_string "v3") 103;
   Spec.OpPut "k2" (bytes_of_string "v2b") 104].

(** A log store that went through writes, a delete and a read. *)
Definition store : Bitcask.t :=
  (Bitcask.Get
     (Bitcask.Put
        (Bitcask.Delete
           (Bitcask.Put
              (Bitcask.Put (Spec.empty_store false) "k1" (bytes_of_string "v1") 100).1
              "k2" (bytes_of_string "v2") 101).1
           "k1" 102).1
        "k3" (bytes_of_string "v3") 103).1
     "k2").1.

(** A data file whose first record is intact and whose second record has
    its last byte changed. *)
Definition torn_file : list byte :=
  Bitcask.encode "k1" (bytes_of_string "v1") 100 false
  ++ <[24%nat := "X"%byte]> (Bitcask.encode "k2" (bytes_of_string "v2") 101 false).

(** An entry for key [k] with the value [value]. *)
Definition entry (value : string) : types.KeyValueEntry :=
  {| types.Key := "k"; types.Value := bytes_of_string value;
     types.Timestamp := 7; types.IsDeleted := false |}.

(** Three versions of one key: [old] is the newest by timestamp and its
    clock happened before the clocks of [left] and [right], which are
    concurrent. *)
Definition version (value : string) (timestamp : Z) (clock : types.VectorClock.t)
    : versioning.KeyValueEntry :=
  {| versioning.entry :=
       {| types.Key := "k"; types.Value := bytes_of_string value;
          types.Timestamp := timestamp; types.IsDeleted := false |};
     versioning.Version := clock |}.

Definition old : versioning.KeyValueEntry := version "a" 5 {[ "n1" := 1 ]}.
Definition left : versioning.KeyValueEntry :=
  version "b" 3 {[ "n1" := 1; "n2" := 1 ]}.
Definition right : versioning.KeyValueEntry := version "c" 4 {[ "n1" := 2 ]}.

End Demo.
(* ===================================================================== *)
(** * Facts about the Go library functions *)
(* ===================================================================== *)

(** The test vectors of the murmur3 package. *)
Example murmur3_vectors :
  murmur3.Sum64 (bytes_of_string "") = 0
  ∧ murmur3.Sum64 (bytes_of_string "hello") = 0xcbd8a7b341bd9b02
  ∧ murmur3.Sum64 (bytes_of_string "hello, world") = 0x342fac623a5ebc8e
  ∧ murmur3.Sum64 (bytes_of_string "The quick brown fox jumps over the lazy dog")
    = 0xe34bbc7bbc071b6c.
Proof. vm_compute. repeat split. Qed.

(** The check value of CRC-32. *)
Example ChecksumIEEE_check :
  ChecksumIEEE (bytes_of_string "123456789") = 0xCBF43926.
Proof. vm_compute. reflexivity. Qed.

Section go_facts.
Import Spec.

Lemma byte_to_of_Z z : byte_to_Z (byte_of_Z z) = z mod 256.
Proof.
  unfold byte_to_Z, byte_of_Z.
  assert (Hr : 0 <= z mod 256 < 256) by (apply Z.mod_pos_bound; lia).
  destruct (Byte.of_N (Z.to_N (z mod 256))) as [b|] eqn:E.
  - apply Byte.to_of_N in E. rewrite E. lia.
  - apply Byte.of_N_None_iff in E. lia.
Qed.

Lemma byte_to_Z_range b : 0 <= byte_to_Z b < 256.
Proof. unfold byte_to_Z. pose proof (Byte.to_N_bounded b). lia. Qed.

(** Appending a byte to a big-endian number. *)
Lemma lor_shiftl_byte acc b :
  0 <= b < 256 → Z.lor (Z.shiftl acc 8) b = acc * 256 + b.
Proof.
  intros Hb. rewrite Z.shiftl_mul_pow2 by lia. change (2 ^ 8) with 256.
  rewrite <- Z.lxor_lor, <- Z.add_nocarry_lxor; try reflexivity.
  all: apply Z.bits_inj'; intros n Hn; rewrite Z.land_spec, Z.bits_0.
  all: destruct (Z.lt_ge_cases n 8) as [Hlt|Hge].
  all: try (change 256 with (2 ^ 8); rewrite Z.mul_pow2_bits_low by lia; reflexivity).
  all: rewrite (Z.bits_above_log2 b n), andb_false_r; try reflexivity; try lia.
  all: destruct (Z.eq_dec b 0) as [->|Hne]; [simpl; lia|].
  all: apply Z.lt_le_trans with 8; [apply Z.log2_lt_pow2; lia | lia].
Qed.

Lemma foldl_be_digits k v acc :
  foldl (λ acc x, Z.lor (Z.shiftl acc 8) (byte_to_Z x)) acc (be_digits k v)
  = acc * 2 ^ (8 * Z.of_nat k) + v mod 2 ^ (8 * Z.of_nat k).
Proof.
  revert acc. induction k as [|k IH]; intros acc.
  - simpl. rewrite Z.mod_1_r. lia.
  - unfold be_digits in *. rewrite seq_S, rev_app_distr. cbn [rev app fmap list_fmap foldl].
    cbn [fmap] in IH. rewrite IH.
    rewrite lor_shiftl_byte by apply byte_to_Z_range.
    rewrite byte_to_of_Z, Z.shiftr_div_pow2 by lia.
    replace (8 * Z.of_nat (S k)) with (8 * Z.of_nat k + 8) by lia.
    rewrite Z.pow_add_r by lia. change (2 ^ 8) with 256.
    rewrite (Z.rem_mul_r v (2 ^ (8 * Z.of_nat k)) 256) by lia.
    simpl Z.of_nat. ring.
Qed.

Lemma BigEndian_be_digits k v :
  0 <= v < 2 ^ (8 * Z.of_nat k) → BigEndian (be_digits k v) = v.
Proof.
  intros Hv. unfold BigEndian. rewrite foldl_be_digits.
  rewrite Z.mod_small by lia. lia.
Qed.

Lemma BigEndian_PutUint32 v : 0 <= v < 2 ^ 32 → BigEndian (PutUint32 v) = v.
Proof. intros Hv. apply (BigEndian_be_digits 4 v). exact Hv. Qed.

Lemma BigEndian_PutUint64 v : 0 <= v < 2 ^ 64 → BigEndian (PutUint64 v) = v.
Proof. intros Hv. apply (BigEndian_be_digits 8 v). exact Hv. Qed.

Lemma int64_uint64 ts : - 2 ^ 63 <= ts < 2 ^ 63 → int64 (uint64 ts) = ts.
Proof.
  intros Hts. unfold int64, uint64.
  rewrite Zplus_mod_idemp_l. rewrite Z.mod_small; lia.
Qed.

Lemma uint64_range z : 0 <= uint64 z < 2 ^ 64.
Proof. apply Z.mod_pos_bound. lia. Qed.

Lemma uint32_small z : 0 <= z < 2 ^ 32 → uint32 z = z.
Proof. apply Z.mod_small. Qed.

(** CRC-32 values are 32-bit. *)
Lemma lxor_bound n a b :
  0 <= n → 0 <= a < 2 ^ n → 0 <= b < 2 ^ n → 0 <= Z.lxor a b < 2 ^ n.
Proof.
  intros Hn Ha Hb.
  assert (H0 : 0 <= Z.lxor a b) by (apply Z.lxor_nonneg; lia).
  split; [exact H0|].
  destruct (Z.eq_dec (Z.lxor a b) 0) as [->|Hne]; [lia|].
  assert (Hpos : 0 < n).
  { destruct (Z.eq_dec n 0) as [->|?]; [|lia]. exfalso. apply Hne.
    replace a with 0 by (simpl in Ha; lia). replace b with 0 by (simpl in Hb; lia).
    reflexivity. }
  apply Z.log2_lt_pow2; [lia|].
  eapply Z.le_lt_trans; [apply Z.log2_lxor; lia|].
  apply Z.max_lub_lt.
  - destruct (Z.eq_dec a 0) as [->|?]; [simpl; lia|]. apply Z.log2_lt_pow2; lia.
  - destruct (Z.eq_dec b 0) as [->|?]; [simpl; lia|]. apply Z.log2_lt_pow2; lia.
Qed.

Lemma crc_shift_range c : 0 <= c < 2 ^ 32 → 0 <= crc_shift c < 2 ^ 32.
Proof.
  intros Hc. unfold crc_shift.
  assert (Hs : 0 <= Z.shiftr c 1 < 2 ^ 32).
  { rewrite Z.shiftr_div_pow2 by lia. change (2 ^ 1) with 2.
    split; [apply Z.div_pos; lia|]. apply Z.div_lt_upper_bound; lia. }
  destruct (Z.testbit c 0); [|exact Hs].
  apply lxor_bound; [lia|exact Hs|]. unfold crc_poly. lia.
Qed.

Lemma crc_byte_range c b : 0 <= c < 2 ^ 32 → 0 <= crc_byte c b < 2 ^ 32.
Proof.
  intros Hc. unfold crc_byte.
  assert (Hx : 0 <= Z.lxor c (byte_to_Z b) < 2 ^ 32).
  { apply lxor_bound; [lia|exact Hc|]. pose proof (byte_to_Z_range b). lia. }
  generalize dependent (Z.lxor c (byte_to_Z b)). intros x Hx.
  assert (Hit : ∀ k, 0 <= Nat.iter k crc_shift x < 2 ^ 32).
  { induction k as [|k IH]; [exact Hx|]. simpl. apply crc_shift_range, IH. }
  apply Hit.
Qed.

Lemma ChecksumIEEE_range data : 0 <= ChecksumIEEE data < 2 ^ 32.
Proof.
  unfold ChecksumIEEE. apply lxor_bound; [lia| |lia].
  assert (Hf : ∀ c, 0 <= c < 2 ^ 32 → 0 <= foldl crc_byte c data < 2 ^ 32).
  { induction data as [|b data IH]; intros c Hc; [exact Hc|].
    simpl. apply IH, crc_byte_range, Hc. }
  apply Hf. lia.
Qed.

End go_facts.

(** ** [sort.Search] *)

Lemma search_loop_spec fuel f i j :
  (j - i ≤ fuel)%nat → (i ≤ j)%nat →
  (∀ a b, (i ≤ a)%nat → (a ≤ b)%nat → (b < j)%nat → f a = true → f b = true) →
  (i ≤ search_loop fuel f i j ≤ j)%nat
  ∧ (∀ k, (i ≤ k)%nat → (k < search_loop fuel f i j)%nat → f k = false)
  ∧ (∀ k, (search_loop fuel f i j ≤ k)%nat → (k < j)%nat → f k = true).
Proof.
  revert i j. induction fuel as [|fuel IH]; intros i j Hfuel Hij Hmono.
  - simpl. repeat split; intros; lia.
  - cbn [search_loop]. destruct (Nat.ltb_spec i j) as [Hlt|Hge].
    2: { repeat split; intros; lia. }
    cbv zeta. set (h := ((i + j) / 2)%nat).
    assert (Hh : (i ≤ h < j)%nat).
    { unfold h. pose proof (Nat.div_mod_eq (i + j) 2) as E.
      pose proof (Nat.mod_upper_bound (i + j) 2). lia. }
    destruct (f h) eqn:Hfh; cbn [negb].
    + destruct (IH i h) as (Hr & Hlo & Hhi); [lia|lia| |].
      { intros a b ? ? ?. apply Hmono; lia. }
      repeat split; try lia; [exact Hlo|].
      intros k Hk1 Hk2. destruct (Nat.lt_ge_cases k h) as [Hkh|Hkh].
      * apply Hhi; lia.
      * apply (Hmono h k); auto; lia.
    + destruct (IH (h + 1)%nat j) as (Hr & Hlo & Hhi); [lia|lia| |].
      { intros a b ? ? ?. apply Hmono; lia. }
      repeat split; try lia; [|exact Hhi].
      intros k Hk1 Hk2. destruct (Nat.lt_ge_cases h k) as [Hkh|Hkh].
      * apply Hlo; lia.
      * destruct (f k) eqn:Hfk; [|reflexivity].
        rewrite (Hmono k h) in Hfh; auto; lia.
Qed.

Lemma Search_spec n f :
  (∀ a b, (a ≤ b)%nat → (b < n)%nat → f a = true → f b = true) →
  (Search n f ≤ n)%nat
  ∧ (∀ k, (k < Search n f)%nat → f k = false)
  ∧ (∀ k, (Search n f ≤ k)%nat → (k < n)%nat → f k = true).
Proof.
  intros Hmono. unfold Search.
  destruct (search_loop_spec n f 0%nat n) as (Hr & Hlo & Hhi); [lia|lia| |].
  { intros a b _ ? ?. apply Hmono; lia. }
  repeat split; [lia| |exact Hhi]. intros k Hk. apply Hlo; lia.
Qed.

(** ** Insertion sort meets the contract of [sort.Slice] *)

Section insertion.
Context {A : Type} (less : A → A → bool).

Lemma sift_perm x rp : sift less x rp ≡ₚ x :: rp.
Proof.
  induction rp as [|y rp IH]; simpl; [reflexivity|].
  destruct (less x y); [|reflexivity].
  rewrite IH. apply Permutation_swap.
Qed.

Lemma insertion_fold_perm l rp :
  foldl (λ rev_prefix x, sift less x rev_prefix) rp l ≡ₚ l ++ rp.
Proof.
  revert rp. induction l as [|x l IH]; intros rp; simpl; [reflexivity|].
  rewrite IH, sift_perm. symmetry. apply Permutation_middle.
Qed.

Lemma insertionSort_perm l : insertionSort less l ≡ₚ l.
Proof.
  unfold insertionSort. rewrite <- Permutation_rev, insertion_fold_perm.
  by rewrite app_nil_r.
Qed.

Hypothesis less_asym : ∀ a b, less a b = true → less b a = false.
Hypothesis less_trans :
  ∀ a b c, less b a = false → less c b = false → less c a = false.

Lemma sift_sorted x rp :
  StronglySorted (λ a b, less a b = false) rp →
  StronglySorted (λ a b, less a b = false) (sift less x rp).
Proof.
  induction rp as [|y rp IH]; intros Hs; simpl.
  - repeat constructor.
  - apply StronglySorted_cons in Hs as [Hy Hs].
    destruct (less x y) eqn:Hxy.
    + apply StronglySorted_cons. split; [|by apply IH].
      rewrite Forall_forall. intros z Hz.
      rewrite sift_perm in Hz. apply elem_of_cons in Hz as [->|Hz].
      * by apply less_asym.
      * rewrite Forall_forall in Hy. by apply Hy.
    + apply StronglySorted_cons. split.
      * apply Forall_cons. split; [exact Hxy|].
        rewrite Forall_forall in Hy |- *. intros z Hz.
        apply (less_trans z y x); [by apply Hy|exact Hxy].
      * apply StronglySorted_cons. by split.
Qed.

Lemma insertion_fold_sorted l rp :
  StronglySorted (λ a b, less a b = false) rp →
  StronglySorted (λ a b, less a b = false)
    (foldl (λ rev_prefix x, sift less x rev_prefix) rp l).
Proof.
  revert rp. induction l as [|x l IH]; intros rp Hs; simpl; [exact Hs|].
  by apply IH, sift_sorted.
Qed.

Lemma StronglySorted_rev_flip (R : relation A) l :
  StronglySorted (flip R) l → StronglySorted R (rev l).
Proof.
  induction l as [|y l IH]; intros Hs; simpl; [constructor|].
  apply StronglySorted_cons in Hs as [Hy Hs].
  apply StronglySorted_app. split_and!; [|by apply IH|repeat constructor].
  intros x1 Hx1 x2 Hx2. apply list_elem_of_singleton in Hx2 as ->.
  rewrite Forall_forall in Hy. apply Hy.
  apply list_elem_of_In. apply in_rev. by apply list_elem_of_In.
Qed.

Lemma insertionSort_sorted l :
  StronglySorted (λ a b, less b a = false) (insertionSort less l).
Proof.
  unfold insertionSort. apply StronglySorted_rev_flip.
  apply insertion_fold_sorted. constructor.
Qed.

End insertion.

(** The sorting routine package sort runs on slices of at most twelve
    elements meets the contract. *)
#[local] Instance insertion_SorterLaws : SorterLaws insertion_Sorter.
Proof.
  split.
  - intros A less l. apply insertionSort_perm.
  - intros A less l Hasym Htrans. by apply insertionSort_sorted.
Qed.

#[local] Existing Instance insertion_Sorter.
(* ===================================================================== *)
(** * The placement ring *)
(* ===================================================================== *)

Section ring_facts.
Import HashRing Spec.

Lemma StronglySorted_weaken {A} (R R' : relation A) l :
  (∀ a b, R a b → R' a b) → StronglySorted R l → StronglySorted R' l.
Proof.
  intros HR. induction 1 as [|a l _ IH Ha]; constructor; [done|].
  eapply Forall_impl; [exact Ha|]. intros b. apply HR.
Qed.

Lemma first_occurrences_elem l seen x :
  x ∈ first_occurrences l seen ↔ x ∈ l ∧ x ∉ seen.
Proof.
  revert seen. induction l as [|y l IH]; intros seen; simpl.
  - split; [intros Hx|intros [Hx _]]; by apply elem_of_nil in Hx.
  - destruct (decide (y ∈ seen)) as [Hin|Hnin].
    + rewrite IH, elem_of_cons. split; [tauto|].
      intros [[->|Hx] Hseen]; [done|tauto].
    + rewrite !elem_of_cons, IH, not_elem_of_union, not_elem_of_singleton.
      split.
      * intros [->|(? & ? & ?)]; tauto.
      * intros [[->|?] ?]; [tauto|].
        destruct (decide (x = y)) as [->|?]; tauto.
Qed.

Lemma first_occurrences_NoDup l seen : NoDup (first_occurrences l seen).
Proof.
  revert seen. induction l as [|y l IH]; intros seen; simpl; [constructor|].
  destruct (decide (y ∈ seen)); [apply IH|].
  constructor; [|apply IH]. rewrite first_occurrences_elem.
  intros [_ Hy]. apply Hy, elem_of_union_l. by apply elem_of_singleton.
Qed.

Lemma first_occurrences_length l seen :
  length (first_occurrences l seen) = size (list_to_set l ∖ seen : gset string).
Proof.
  rewrite <- (size_list_to_set (C := gset string)) by apply first_occurrences_NoDup.
  f_equal. apply set_eq. intros x.
  rewrite elem_of_list_to_set, first_occurrences_elem, elem_of_difference,
    elem_of_list_to_set. done.
Qed.

Lemma lookup_walk vns start i :
  (start < length vns)%nat → (i < length vns)%nat →
  walk vns start !! i = Some (NodeID (vns !!! ((start + i) `mod` length vns)%nat)).
Proof.
  intros Hs Hi. unfold walk. rewrite list_lookup_fmap.
  assert (Hidx : (drop start vns ++ take start vns) !! i
                 = vns !! ((start + i) `mod` length vns)%nat).
  { destruct (Nat.lt_ge_cases (start + i) (length vns)) as [Hlt|Hge].
    - rewrite Nat.mod_small by lia.
      rewrite lookup_app_l by (rewrite length_drop; lia).
      by rewrite lookup_drop.
    - rewrite lookup_app_r by (rewrite length_drop; lia).
      rewrite length_drop, lookup_take_lt by lia.
      f_equal. apply (Nat.mod_unique _ _ 1). all: lia. }
  rewrite Hidx.
  assert (Hlt : ((start + i) `mod` length vns < length vns)%nat)
    by (apply Nat.mod_upper_bound; lia).
  destruct (lookup_lt_is_Some_2 vns _ Hlt) as [v Hv].
  rewrite Hv. simpl. by rewrite (list_lookup_total_correct _ _ _ Hv).
Qed.

Lemma length_walk vns start : length (walk vns start) = length vns.
Proof.
  unfold walk. rewrite length_fmap, length_app, length_drop, length_take. lia.
Qed.

Lemma walk_elem vns start x : x ∈ walk vns start ↔ x ∈ NodeID <$> vns.
Proof.
  unfold walk. rewrite <- (take_drop start vns) at 3.
  rewrite !fmap_app, !elem_of_app. tauto.
Qed.

(** The loop of [GetNodes] collects the first occurrences along the walk. *)
Lemma collect_spec fuel vns start n i nodes seen :
  (start < length vns)%nat → (length vns - i ≤ fuel)%nat →
  collect fuel vns start n i nodes seen
  = nodes ++ take (Z.to_nat n - length nodes)
               (first_occurrences (drop i (walk vns start)) seen).
Proof.
  intros Hs. revert i nodes seen.
  induction fuel as [|fuel IH]; intros i nodes seen Hfuel.
  - simpl. rewrite drop_ge by (rewrite length_walk; lia).
    simpl. by rewrite take_nil, app_nil_r.
  - cbn [collect]. destruct (Nat.ltb_spec i (length vns)) as [Hi|Hi]; simpl.
    2: { rewrite drop_ge by (rewrite length_walk; lia).
         simpl. by rewrite take_nil, app_nil_r. }
    unfold len. destruct (Z.ltb_spec (Z.of_nat (length nodes)) n) as [Hn|Hn].
    2: { replace (Z.to_nat n - length nodes)%nat with 0%nat by lia.
         by rewrite take_0, app_nil_r. }
    rewrite (drop_S _ _ _ (lookup_walk vns start i Hs Hi)).
    cbn [first_occurrences].
    destruct (decide (_ ∈ seen)) as [Hin|Hnin].
    + rewrite IH by lia. done.
    + rewrite IH by lia. rewrite length_app. simpl.
      replace (Z.to_nat n - length nodes)%nat
        with (S (Z.to_nat n - (length nodes + 1)))%nat by lia.
      simpl. by rewrite <- app_assoc.
Qed.

Context `{SorterLaws}.

Lemma new_vnodes_elem nodeID count id :
  1 ≤ count → id ∈ NodeID <$> new_vnodes nodeID count ↔ id = nodeID.
Proof.
  intros Hc. unfold new_vnodes. rewrite <- list_fmap_compose.
  rewrite list_elem_of_fmap. split.
  - intros (i & -> & _). done.
  - intros ->. exists 0. split; [done|]. apply elem_of_seqZ. lia.
Qed.

Lemma ring_reachable_inv r : ring_reachable r → ring_inv r.
Proof.
  induction 1 as [v|r nodeID _ IH|r nodeID _ IH].
  - split; simpl.
    + constructor.
    + destruct (Z.ltb_spec v 1); lia.
    + intros id. rewrite lookup_empty. split; [|by intros []].
      intros Hin. by apply elem_of_nil in Hin.
  - destruct IH as [Hsorted Hcount Hnodes]. unfold AddNode.
    destruct (nodeVNodes r !! nodeID) eqn:Hlk; [by split|].
    split; simpl; [|done|].
    + eapply StronglySorted_weaken;
        [|apply (sort_Slice_sorted (λ a b : VNode, Hash a <? Hash b))].
      * intros a b Hab. simpl in Hab. apply Z.ltb_ge in Hab. exact Hab.
      * intros a b Hab. apply Z.ltb_lt in Hab. apply Z.ltb_ge. lia.
      * intros a b c Hab Hbc. apply Z.ltb_ge in Hab, Hbc. apply Z.ltb_ge. lia.
    + intros id. rewrite sort_Slice_perm, fmap_app, elem_of_app, Hnodes.
      rewrite new_vnodes_elem by done.
      destruct (decide (id = nodeID)) as [->|Hne].
      * rewrite lookup_insert_eq. split; [eauto|tauto].
      * rewrite lookup_insert_ne by done. tauto.
  - destruct IH as [Hsorted Hcount Hnodes]. unfold RemoveNode.
    destruct (nodeVNodes r !! nodeID) eqn:Hlk; [|by split].
    split; simpl; [|done|].
    + clear -Hsorted. induction Hsorted as [|a l Hs IH Ha]; [constructor|].
      rewrite filter_cons. destruct (decide (NodeID a ≠ nodeID)); [|done].
      constructor; [done|]. apply Forall_forall. intros x Hx.
      apply list_elem_of_filter in Hx as [_ Hx].
      rewrite Forall_forall in Ha. by apply Ha.
    + intros id. rewrite list_elem_of_fmap. split.
      * intros (vn & -> & Hvn). apply list_elem_of_filter in Hvn as [Hne Hvn].
        rewrite lookup_delete_ne by done. apply Hnodes.
        apply list_elem_of_fmap. eauto.
      * intros Hsome. destruct (decide (nodeID = id)) as [->|Hne].
        { rewrite lookup_delete_eq in Hsome. by destruct Hsome. }
        rewrite lookup_delete_ne in Hsome by done.
        apply Hnodes, list_elem_of_fmap in Hsome as (vn & -> & Hvn).
        exists vn. split; [done|]. apply list_elem_of_filter. split; [|done].
        congruence.
Qed.

(** The binary search lands on the first token at or above the hash. *)
Lemma start_index_spec r key :
  StronglySorted (λ a b, Hash a ≤ Hash b) (vnodes r) → vnodes r ≠ [] →
  first_token_from (vnodes r) (hash key) (start_index r key).
Proof.
  intros Hsorted Hne. unfold start_index, first_token_from.
  set (f := λ i : nat, hash key <=? Hash (vnodes r !!! i)).
  assert (Hlen : (0 < length (vnodes r))%nat) by (destruct (vnodes r); simpl; [done|lia]).
  destruct (Search_spec (length (vnodes r)) f) as (Hle & Hlo & Hhi).
  { intros a b Hab Hb Hfa. unfold f in *. apply Z.leb_le in Hfa. apply Z.leb_le.
    destruct (decide (a = b)) as [->|Hneq]; [done|].
    destruct (lookup_lt_is_Some_2 (vnodes r) a) as [va Hva]; [lia|].
    destruct (lookup_lt_is_Some_2 (vnodes r) b) as [vb Hvb]; [lia|].
    rewrite (list_lookup_total_correct _ _ _ Hva) in Hfa.
    rewrite (list_lookup_total_correct _ _ _ Hvb).
    assert (Hash va ≤ Hash vb); [|lia].
    apply lookup_lt_Some in Hva as Hla.
    rewrite <- (take_drop (S a) (vnodes r)) in Hsorted, Hva, Hvb.
    rewrite lookup_app_l in Hva by (rewrite length_take; lia).
    rewrite lookup_app_r in Hvb by (rewrite length_take; lia).
    eapply (StronglySorted_app_1_elem_of _ _ _ _ _ Hsorted).
    - eapply list_elem_of_lookup_2, Hva.
    - eapply list_elem_of_lookup_2, Hvb. }
  destruct (Nat.leb_spec (length (vnodes r)) (Search (length (vnodes r)) f)) as [Hge|Hlt].
  - split; [lia|]. right. split; [done|]. intros k Hk.
    specialize (Hlo k ltac:(lia)). unfold f in Hlo. apply Z.leb_gt in Hlo. lia.
  - split; [lia|]. left. split.
    + specialize (Hhi _ (Nat.le_refl _) Hlt). unfold f in Hhi. by apply Z.leb_le in Hhi.
    + intros k Hk. specialize (Hlo k Hk). unfold f in Hlo. by apply Z.leb_gt in Hlo.
Qed.

End ring_facts.



Section ring_claims.
Import HashRing Spec.

(** C8.  For every key, every [n >= 1] and every non-empty ring the program
    can build, [GetNodes(key, n)] returns the first [n] distinct node ids met
    when walking the sorted token list forward, with wraparound, from the
    first token whose hash is at least [hash(key)] (from token 0 when there
    is none); the ids are pairwise distinct and their number is the minimum
    of [n] and the number of physical nodes in the ring. *)
Theorem GetNodes_preference_list (S : Sorter) (L : SorterLaws S)
    (r : HashRing.t) (key : string) (n : Z) :
  ring_reachable r → IsEmpty r = false → 1 ≤ n →
  ∃ nodes start,
    GetNodes r key n = Ok nodes
    ∧ first_token_from (vnodes r) (hash key) start
    ∧ nodes = take (Z.to_nat n) (first_occurrences (walk (vnodes r) start) ∅)
    ∧ NoDup nodes
    ∧ len nodes = Z.min n (Size r).
Proof.
  intros Hreach Hne Hn.
  destruct (ring_reachable_inv r Hreach) as [Hsorted Hcount Hnodes].
  unfold IsEmpty in Hne. apply bool_decide_eq_false in Hne.
  assert (Hnil : vnodes r ≠ []) by (intros E; apply Hne; by rewrite E).
  pose proof (start_index_spec r key Hsorted Hnil) as Hstart.
  exists (take (Z.to_nat n) (first_occurrences (walk (vnodes r) (start_index r key)) ∅)),
    (start_index r key).
  split_and!; [|exact Hstart|reflexivity| |].
  - unfold GetNodes. rewrite decide_False by done.
    destruct (Z.ltb_spec n 0); [lia|].
    rewrite collect_spec by (destruct Hstart; lia).
    simpl. by rewrite drop_0, Nat.sub_0_r.
  - eapply sublist_NoDup; [apply first_occurrences_NoDup|apply sublist_take].
  - unfold len, Size. rewrite length_take, first_occurrences_length.
    rewrite difference_empty_L.
    assert (Hset : list_to_set (walk (vnodes r) (start_index r key))
                   = (dom (nodeVNodes r) : gset string)).
    { apply set_eq. intros x.
      rewrite elem_of_list_to_set, walk_elem, Hnodes, elem_of_dom. done. }
    rewrite Hset, size_dom. lia.
Qed.

Lemma GetNodes_preference_list_witness :
  ∃ nodes start,
    GetNodes Demo.ring "user:42" 2 = Ok nodes
    ∧ first_token_from (vnodes Demo.ring) (hash "user:42") start
    ∧ nodes = take (Z.to_nat 2)
                (first_occurrences (walk (vnodes Demo.ring) start) ∅)
    ∧ NoDup nodes
    ∧ len nodes = Z.min 2 (Size Demo.ring).
Proof.
  apply (GetNodes_preference_list insertion_Sorter insertion_SorterLaws
           Demo.ring "user:42" 2).
  - unfold Demo.ring. apply ring_add, ring_add, ring_new.
  - vm_compute. reflexivity.
  - lia.
Defined.

End ring_claims.

(* ===================================================================== *)
(** * Quorum sizes *)
(* ===================================================================== *)

Section quorum_claims.
Import types.

(** C9.  With replication factor [N], read quorum [R] and write quorum [W],
    the coordinator and the quorum manager require 1 write ack for level
    one, [W] for quorum and [N] for all, and 1 read response for one, [R]
    for quorum and [N] for all. *)
Theorem required_acks_by_level (self : string) (N R W : Z) :
  let cfg := {| Node.NodeID := self; Node.ReplicationFactor := N;
                Node.ReadQuorum := R; Node.WriteQuorum := W |} in
  let qm := QuorumManager.NewQuorumManager N R W in
  (Coordinator.getWriteQuorum cfg ConsistencyOne = 1
   ∧ Coordinator.getWriteQuorum cfg ConsistencyQuorum = W
   ∧ Coordinator.getWriteQuorum cfg ConsistencyAll = N)
  ∧ (Coordinator.getReadQuorum cfg ConsistencyOne = 1
     ∧ Coordinator.getReadQuorum cfg ConsistencyQuorum = R
     ∧ Coordinator.getReadQuorum cfg ConsistencyAll = N)
  ∧ (QuorumManager.getWriteRequirement qm ConsistencyOne = 1
     ∧ QuorumManager.getWriteRequirement qm ConsistencyQuorum = W
     ∧ QuorumManager.getWriteRequirement qm ConsistencyAll = N)
  ∧ (QuorumManager.getReadRequirement qm ConsistencyOne = 1
     ∧ QuorumManager.getReadRequirement qm ConsistencyQuorum = R
     ∧ QuorumManager.getReadRequirement qm ConsistencyAll = N).
Proof. repeat split. Qed.

End quorum_claims.

(* ===================================================================== *)
(** * The index counters *)
(* ===================================================================== *)

Section index_claims.
Import Index.

(** Where the counters part from the map: [Put] on a key whose entry is a
    tombstone adds a live entry and leaves [active] as it was. *)
Lemma Put_on_tombstone idx key e offset size timestamp :
  entries idx !! key = Some e → IsDeleted e = true →
  Count (Put idx key offset size timestamp) = Count idx
  ∧ Spec.live_count (Put idx key offset size timestamp) = Spec.live_count idx + 1.
Proof.
  intros He Hdel. unfold Put, Count, Spec.live_count. rewrite He, Hdel.
  cbn [active entries]. split; [done|].
  rewrite map_filter_insert_True by done.
  rewrite map_size_insert_None; [lia|].
  apply map_lookup_filter_None. right. intros e' He' Hlive.
  simpl in Hlive. congruence.
Qed.

(** C10.  The index reached from a fresh one by [Put k], [Delete k], [Put k]
    holds one entry, which is live, and no tombstone; its [active] counter
    is 0, so [Count] reports no key while [Keys] lists one. *)
Theorem Index_active_counter_after_reinsert :
  let idx := Put (Delete (Put NewIndex "k" 0 2 100) "k" 200).1 "k" 46 2 300 in
  Spec.live_count idx = 1
  ∧ Spec.tombstone_count idx = 0
  ∧ Count idx = 0
  ∧ DeletedCount idx = 0
  ∧ Keys idx = ["k"].
Proof. vm_compute. repeat split. Qed.

End index_claims.

(* ===================================================================== *)
(** * The coordinator *)
(* ===================================================================== *)

Section coordinator_facts.
Import Node Coordinator.

Lemma newer_asym a b : newer a b = true → newer b a = false.
Proof. unfold newer. intros Hab. apply Z.ltb_lt in Hab. apply Z.ltb_ge. lia. Qed.

Lemma newer_trans a b c :
  newer b a = false → newer c b = false → newer c a = false.
Proof.
  unfold newer. intros Hab Hbc. apply Z.ltb_ge in Hab, Hbc. apply Z.ltb_ge. lia.
Qed.

(** The head of the slice sorted by [newer] carries the largest timestamp. *)
Lemma sort_newer_head `{SorterLaws} (found : list types.KeyValueEntry) :
  found ≠ [] →
  ∃ latest rest,
    sort_Slice newer found = latest :: rest
    ∧ latest ∈ found
    ∧ ∀ e, e ∈ found → types.Timestamp e ≤ types.Timestamp latest.
Proof.
  intros Hne.
  pose proof (sort_Slice_perm newer found) as Hperm.
  pose proof (sort_Slice_sorted newer found newer_asym newer_trans) as Hsorted.
  destruct (sort_Slice newer found) as [|latest rest].
  - apply Permutation_nil_l in Hperm. by subst.
  - exists latest, rest. split; [done|]. split.
    + rewrite <- Hperm. apply list_elem_of_here.
    + intros e He. rewrite <- Hperm in He.
      apply StronglySorted_cons in Hsorted as [Hhd _].
      apply elem_of_cons in He as [->|He]; [lia|].
      rewrite Forall_forall in Hhd. specialize (Hhd e He).
      unfold newer in Hhd. apply Z.ltb_ge in Hhd. lia.
Qed.

Context (cfg : Config) (net : Transport).

(** What the steps of the coordinator leave alone. *)
Lemma sendReplication_frame st nodeID entry :
  let st' := (sendReplication cfg net st nodeID entry).1 in
  storage st' = storage st ∧ nodes st' = nodes st
  ∧ handoffStore st' = handoffStore st ∧ ring st' = ring st
  ∧ spawned st' = spawned st.
Proof. unfold sendReplication. destruct (nodes st !! nodeID); done. Qed.

Lemma sendReplication_sent st nodeID entry :
  sent (sendReplication cfg net st nodeID entry).1
  = sent st ++
    (if bool_decide (is_Some (nodes st !! nodeID)) then
       [PostReplicate nodeID {| types.req_Entry := entry;
                                types.FromNode := NodeID cfg;
                                types.IsHandoff := false |}]
     else []).
Proof.
  unfold sendReplication. destruct (nodes st !! nodeID) eqn:E; cbn [fst].
  - by rewrite bool_decide_eq_true_2 by eauto.
  - rewrite bool_decide_eq_false_2 by (by intros []). by rewrite app_nil_r.
Qed.

Lemma replicate_one_handoff entry acc nodeID :
  handoffStore (replicate_one cfg net entry acc nodeID).1 = handoffStore acc.1.
Proof.
  destruct acc as [st results]. unfold replicate_one.
  destruct (decide (nodeID = NodeID cfg)).
  - by destruct (Bitcask.Put _ _ _ _).
  - pose proof (sendReplication_frame st nodeID entry) as Hf.
    destruct (sendReplication cfg net st nodeID entry). cbv zeta in Hf. tauto.
Qed.

Lemma replicateToNodes_handoff st nodes entry :
  handoffStore (replicateToNodes cfg net st nodes entry).1 = handoffStore st.
Proof.
  unfold replicateToNodes.
  change st with ((st, ∅ : gmap string bool).1) at 2.
  generalize (st, ∅ : gmap string bool).
  induction nodes as [|n nodes IH]; intros acc; simpl; [done|].
  by rewrite IH, replicate_one_handoff.
Qed.

(** [Put] never touches the hinted-handoff store. *)
Lemma Put_handoffStore `{Sorter} st now key value consistency :
  handoffStore (Put cfg net st now key value consistency).1 = handoffStore st.
Proof.
  unfold Put. destruct (HashRing.GetNodes _ _ _) as [pref|]; [|done].
  pose proof (replicateToNodes_handoff st pref
    {| types.Key := key; types.Value := value; types.Timestamp := now;
       types.IsDeleted := false |}) as Hh.
  destruct (replicateToNodes _ _ _ _ _) as [st' results]. simpl in Hh.
  by destruct (_ <? _).
Qed.

(** [readRepair]: requests and local writes. *)
Lemma repair_one_remote latest st nodeID :
  nodeID ≠ NodeID cfg →
  let st' := repair_one cfg net latest st nodeID in
  storage st' = storage st ∧ nodes st' = nodes st
  ∧ sent st' = sent st ++
      (if bool_decide (is_Some (nodes st !! nodeID)) then
         [PostReplicate nodeID {| types.req_Entry := latest;
                                  types.FromNode := NodeID cfg;
                                  types.IsHandoff := false |}]
       else []).
Proof.
  intros Hne. unfold repair_one. rewrite decide_False by done.
  pose proof (sendReplication_frame st nodeID latest) as Hf.
  pose proof (sendReplication_sent st nodeID latest) as Hs.
  cbv zeta in Hf. tauto.
Qed.

Lemma repair_one_local latest st :
  let st' := repair_one cfg net latest st (NodeID cfg) in
  nodes st' = nodes st ∧ sent st' = sent st
  ∧ storage st' = Spec.local_repair latest (storage st).
Proof.
  unfold repair_one, Spec.local_repair. rewrite decide_True by done.
  destruct (Bitcask.Get (storage st) (types.Key latest)) as [s [[value ts]|e]]; simpl.
  - destruct (ts <? types.Timestamp latest); [done|].
    destruct ((ts =? types.Timestamp latest) && _); done.
  - done.
Qed.

(** ** Reads do not disturb one another *)

Lemma same_content_refl s : Spec.same_content s s.
Proof. by split_and!. Qed.

Lemma Get_same_content s s' key :
  Spec.same_content s s' →
  (Bitcask.Get s key).2 = (Bitcask.Get s' key).2
  ∧ Spec.same_content (Bitcask.Get s key).1 s'.
Proof.
  intros Hsame. pose proof Hsame as (Hc & Hi & Hl).
  assert (Hread : Spec.same_content (Bitcask.add_read s) s') by done.
  assert (Hflush : Spec.same_content (Bitcask.Flush (Bitcask.add_read s)) s').
  { split_and!; [done..|]. rewrite <- Hl. unfold Spec.log. simpl.
    by rewrite app_nil_r. }
  unfold Bitcask.Get. rewrite Hc.
  destruct (Bitcask.closed s'); [done|].
  unfold Index.Get. cbn [Bitcask.add_read Bitcask.index]. rewrite Hi.
  destruct (Index.entries (Bitcask.index s') !! key) as [e|]; [|done].
  destruct (Index.IsDeleted e); [done|].
  change (Bitcask.dataFile (Bitcask.Flush (Bitcask.add_read s))) with (Spec.log s).
  change (Bitcask.dataFile (Bitcask.Flush (Bitcask.add_read s'))) with (Spec.log s').
  rewrite Hl.
  destruct (Bitcask.seek (Spec.log s') (Index.Offset e)) as [reader|]; [|done].
  by destruct (Bitcask.readEntry reader (Index.Offset e)) as [[? ?]|].
Qed.

(** A goroutine of [readFromNodes] fills its slot with the answer of its
    replica, whatever ran before it. *)
Lemma read_one_spec st0 nodes key st responses idx nodeID :
  nodes !! idx = Some nodeID →
  Spec.same_content (storage st) (storage st0) → Node.nodes st = Node.nodes st0 →
  ∃ st',
    read_one cfg net nodes key (st, responses) idx
    = (st', <[idx := Spec.response_of cfg net st0 key nodeID]> responses)
    ∧ Spec.same_content (storage st') (storage st0)
    ∧ Node.nodes st' = Node.nodes st0.
Proof.
  intros Hidx Hsame Hnodes. unfold read_one, Spec.response_of. rewrite Hidx.
  destruct (decide (nodeID = NodeID cfg)) as [_|_].
  - destruct (Get_same_content _ _ key Hsame) as [Hres Hsame'].
    destruct (Bitcask.Get (storage st) key) as [s r]. simpl in Hres, Hsame'.
    rewrite <- Hres. by eexists.
  - unfold fetchFromNode. rewrite Hnodes.
    destruct (Node.nodes st0 !! nodeID); by eexists.
Qed.

Lemma readFromNodes_fold st0 nodes key schedule :
  ∀ st responses,
    Forall (λ idx, idx < length nodes)%nat schedule →
    length responses = length nodes →
    Spec.same_content (storage st) (storage st0) → Node.nodes st = Node.nodes st0 →
    ∃ st' responses',
      foldl (read_one cfg net nodes key) (st, responses) schedule = (st', responses')
      ∧ length responses' = length nodes
      ∧ ∀ idx,
          responses' !! idx
          = if decide (idx ∈ schedule)
            then (Spec.response_of cfg net st0 key <$> nodes) !! idx
            else responses !! idx.
Proof.
  induction schedule as [|i schedule IH]; intros st responses Hlt Hlen Hsame Hnodes.
  - exists st, responses. split_and!; [done..|]. intros idx.
    by rewrite decide_False by apply not_elem_of_nil.
  - apply Forall_cons in Hlt as [Hi Hlt].
    destruct (lookup_lt_is_Some_2 nodes i Hi) as [nodeID Hnode].
    destruct (read_one_spec st0 nodes key st responses i nodeID Hnode Hsame Hnodes)
      as (st1 & Hstep & Hsame1 & Hnodes1).
    destruct (IH st1 (<[i := Spec.response_of cfg net st0 key nodeID]> responses)
                Hlt ltac:(by rewrite length_insert) Hsame1 Hnodes1)
      as (st' & responses' & Hfold & Hlen' & Hslots).
    exists st', responses'. split_and!; [by cbn [foldl]; rewrite Hstep|done|].
    intros idx. rewrite Hslots.
    destruct (decide (idx ∈ schedule)) as [Hin|Hnin].
    + by rewrite decide_True by (by apply list_elem_of_further).
    + destruct (decide (idx = i)) as [->|Hne].
      * rewrite decide_True by apply list_elem_of_here.
        rewrite list_lookup_insert_eq by lia.
        by rewrite list_lookup_fmap, Hnode.
      * rewrite list_lookup_insert_ne by done.
        rewrite decide_False; [done|].
        intros Hin. apply elem_of_cons in Hin as [?|?]; done.
Qed.

(** Whatever the order in which the goroutines run, every slot holds the
    answer of the replica at its position. *)
Lemma readFromNodes_responses schedule st nodes key :
  schedule ≡ₚ seq 0 (length nodes) →
  (readFromNodes cfg net schedule st nodes key).2
  = Spec.response_of cfg net st key <$> nodes.
Proof.
  intros Hperm. unfold readFromNodes.
  destruct (readFromNodes_fold st nodes key schedule st
              (replicate (length nodes) None)) as (st' & responses' & -> & Hlen & Hslots).
  - rewrite Forall_forall. intros idx Hin. rewrite Hperm in Hin.
    apply elem_of_seq in Hin. lia.
  - apply length_replicate.
  - apply same_content_refl.
  - done.
  - cbn [snd]. apply list_eq. intros idx. rewrite Hslots.
    destruct (decide (idx ∈ schedule)) as [_|Hnin]; [done|].
    assert (length nodes ≤ idx)%nat.
    { destruct (Nat.le_gt_cases (length nodes) idx) as [|Hlt]; [done|].
      exfalso. apply Hnin. rewrite Hperm. apply elem_of_seq. lia. }
    rewrite (lookup_ge_None_2 (replicate _ _)) by (rewrite length_replicate; lia).
    by rewrite lookup_ge_None_2 by (rewrite length_fmap; lia).
Qed.

End coordinator_facts.

Section coordinator_claims.
Import Node Coordinator.

(** C4 (as the code has it).  For every coordinated read that collects at
    least the required number of found responses (the required number being
    at least 1), the returned value and timestamp are those of one found
    response, and no found response has a larger timestamp.  Which of
    several responses with that timestamp wins is left to [sort.Slice]; the
    values are not compared.  The responses are stored by position in the
    preference list, so the result is the same for every order in which the
    reading goroutines run. *)
Theorem Get_returns_a_newest_response (S : Sorter) (L : SorterLaws S)
    (cfg : Config) (net : Transport) (schedule : list nat) (st : Node.t)
    (key : string) (consistency : types.ConsistencyLevel) (pref : list string) :
  HashRing.GetNodes (ring st) key (ReplicationFactor cfg) = Ok pref →
  schedule ≡ₚ seq 0 (length pref) →
  1 ≤ getReadQuorum cfg consistency →
  getReadQuorum cfg consistency
    ≤ len (omap id (readFromNodes cfg net schedule st pref key).2) →
  ∃ latest,
    (Get cfg net schedule st key consistency).2
      = Ok (types.Value latest, types.Timestamp latest)
    ∧ Some latest ∈ (readFromNodes cfg net schedule st pref key).2
    ∧ (∀ e, Some e ∈ (readFromNodes cfg net schedule st pref key).2 →
            types.Timestamp e ≤ types.Timestamp latest)
    ∧ ∀ schedule',
        schedule' ≡ₚ seq 0 (length pref) →
        (Get cfg net schedule' st key consistency).2
        = (Get cfg net schedule st key consistency).2.
Proof.
  intros Hpref Hsched Hreq Hfound.
  assert (Hget : ∀ sch,
    sch ≡ₚ seq 0 (length pref) →
    (Get cfg net sch st key consistency).2
    = match sort_Slice newer
              (omap id (Spec.response_of cfg net st key <$> pref)) with
      | [] => Err (Panic "index out of range [0] with length 0")
      | latest :: _ => Ok (types.Value latest, types.Timestamp latest)
      end).
  { intros sch Hsch. unfold Get. rewrite Hpref.
    pose proof (readFromNodes_responses cfg net sch st pref key Hsch) as Hresp.
    rewrite (readFromNodes_responses cfg net schedule st pref key Hsched) in Hfound.
    destruct (readFromNodes cfg net sch st pref key) as [st1 responses].
    cbn [snd] in Hresp. subst responses.
    destruct (Z.ltb_spec
                (len (omap id (Spec.response_of cfg net st key <$> pref)))
                (getReadQuorum cfg consistency)); [lia|].
    by destruct (sort_Slice newer _). }
  rewrite (readFromNodes_responses cfg net schedule st pref key Hsched) in *.
  set (responses := Spec.response_of cfg net st key <$> pref) in *.
  assert (Hne : omap id responses ≠ []).
  { intros E. rewrite E in Hfound. unfold len in Hfound. simpl in Hfound. lia. }
  destruct (sort_newer_head (omap id responses) Hne) as (latest & rest & Hs & Hin & Hmax).
  assert (Hmem : ∀ e, e ∈ omap id responses ↔ Some e ∈ responses).
  { intros e. rewrite list_elem_of_omap. split.
    - intros (o & Ho & Hoe). simpl in Hoe. by subst.
    - intros He. by exists (Some e). }
  exists latest. split_and!.
  - by rewrite (Hget schedule Hsched), Hs.
  - by apply Hmem.
  - intros e He. by apply Hmax, Hmem.
  - intros schedule' Hsched'. by rewrite (Hget schedule' Hsched'), (Hget schedule Hsched).
Qed.

Lemma Get_returns_a_newest_response_witness :
  ∃ latest,
    (Get (Demo.cfg 2 2) (Demo.net true (bytes_of_string "new") 9) [1; 0]%nat
       (Demo.node_with "k" (bytes_of_string "old") 5) "k" "quorum").2
      = Ok (types.Value latest, types.Timestamp latest)
    ∧ Some latest ∈
        (readFromNodes (Demo.cfg 2 2) (Demo.net true (bytes_of_string "new") 9)
           [1; 0]%nat (Demo.node_with "k" (bytes_of_string "old") 5)
           ["n2"; "n1"] "k").2
    ∧ (∀ e,
        Some e ∈
          (readFromNodes (Demo.cfg 2 2) (Demo.net true (bytes_of_string "new") 9)
             [1; 0]%nat (Demo.node_with "k" (bytes_of_string "old") 5)
             ["n2"; "n1"] "k").2 →
        types.Timestamp e ≤ types.Timestamp latest)
    ∧ ∀ schedule',
        schedule' ≡ₚ seq 0 (length ["n2"; "n1"]) →
        (Get (Demo.cfg 2 2) (Demo.net true (bytes_of_string "new") 9) schedule'
           (Demo.node_with "k" (bytes_of_string "old") 5) "k" "quorum").2
        = (Get (Demo.cfg 2 2) (Demo.net true (bytes_of_string "new") 9) [1; 0]%nat
             (Demo.node_with "k" (bytes_of_string "old") 5) "k" "quorum").2.
Proof.
  apply (Get_returns_a_newest_response insertion_Sorter insertion_SorterLaws
           (Demo.cfg 2 2) (Demo.net true (bytes_of_string "new") 9) [1; 0]%nat
           (Demo.node_with "k" (bytes_of_string "old") 5) "k" "quorum"
           ["n2"; "n1"]).
  - vm_compute. reflexivity.
  - simpl. apply perm_swap.
  - vm_compute. discriminate.
  - vm_compute. discriminate.
Defined.

(** C4, the claim as stated fails.  The node [n1] and its peer [n2] hold the
    values "a" and "b" for the key "k" with the same timestamp 5; the
    preference list of "k" is [n2; n1].  When [n2] holds "b" the read
    returns "b", when [n2] holds "a" it returns "a": the winner of the tie is
    the response of the replica sorted first, not the greater or the smaller
    value. *)
Lemma Get_tie_not_by_value :
  HashRing.GetNodes (ring Demo.node) "k" 2 = Ok ["n2"; "n1"]
  ∧ (Get (Demo.cfg 2 2) (Demo.net true (bytes_of_string "b") 5) [0; 1]%nat
       (Demo.node_with "k" (bytes_of_string "a") 5) "k" "quorum").2
    = Ok (bytes_of_string "b", 5)
  ∧ (Get (Demo.cfg 2 2) (Demo.net true (bytes_of_string "a") 5) [0; 1]%nat
       (Demo.node_with "k" (bytes_of_string "b") 5) "k" "quorum").2
    = Ok (bytes_of_string "a", 5).
Proof. vm_compute. repeat split. Qed.




(** C2.  A put at level one on the node [n1], whose write to the peer [n2]
    fails: the put succeeds on the local ack, the request to [n2] was sent
    and failed, and the hinted-handoff store holds no hint for [n2]
    afterwards. *)
Theorem Put_failed_write_leaves_no_hint :
  (Put (Demo.cfg 2 2) (Demo.net false [] 0) Demo.node 7 "k"
     (bytes_of_string "v") "one").2 = None
  ∧ sent (Put (Demo.cfg 2 2) (Demo.net false [] 0) Demo.node 7 "k"
            (bytes_of_string "v") "one").1
    = [PostReplicate "n2"
         {| types.req_Entry :=
              {| types.Key := "k"; types.Value := bytes_of_string "v";
                 types.Timestamp := 7; types.IsDeleted := false |};
            types.FromNode := "n1"; types.IsHandoff := false |}]
  ∧ replicate_ok (Demo.net false [] 0) "n2"
      {| types.req_Entry :=
           {| types.Key := "k"; types.Value := bytes_of_string "v";
              types.Timestamp := 7; types.IsDeleted := false |};
         types.FromNode := "n1"; types.IsHandoff := false |} = false
  ∧ HintedHandoffStore.GetHints
      (handoffStore (Put (Demo.cfg 2 2) (Demo.net false [] 0)
                       Demo.node 7 "k" (bytes_of_string "v") "one").1) "n2" = []
  ∧ HintedHandoffStore.Count
      (handoffStore (Put (Demo.cfg 2 2) (Demo.net false [] 0)
                       Demo.node 7 "k" (bytes_of_string "v") "one").1) = 0.
Proof. vm_compute. repeat split. Qed.

(** C1.  A delete handled by the node [n1], which holds "k" and has the
    peer [n2] in the preference list of "k": the handler answers 200, the
    local store has the tombstone, and no request was sent to [n2]. *)
Theorem handleDelete_stays_local :
  HashRing.GetNodes (ring (Demo.node_with "k" (bytes_of_string "v") 5))
    "k" 2 = Ok ["n2"; "n1"]
  ∧ Server.StatusCode
      (Server.handleDelete (Demo.node_with "k" (bytes_of_string "v") 5) 9 "k").2
    = Server.StatusOK
  ∧ (Bitcask.Get
       (storage (Server.handleDelete
                   (Demo.node_with "k" (bytes_of_string "v") 5) 9 "k").1) "k").2
    = Err ErrKeyDeleted
  ∧ sent (Server.handleDelete (Demo.node_with "k" (bytes_of_string "v") 5) 9 "k").1
    = [].
Proof. vm_compute. repeat split. Qed.

(** What follows from it: with the peer [n2] still holding "v", a read at
    level one through [n1] returns the deleted value, and the read repair it
    starts writes the value back over the tombstone of [n1]. *)
Example deleted_key_comes_back :
  (Get (Demo.cfg 2 2) (Demo.net true (bytes_of_string "v") 5) [0; 1]%nat
     (Server.handleDelete (Demo.node_with "k" (bytes_of_string "v") 5) 9 "k").1
     "k" "one").2
  = Ok (bytes_of_string "v", 5)
  ∧ (Bitcask.Get
       (storage
          (run_spawned (Demo.cfg 2 2) (Demo.net true (bytes_of_string "v") 5)
             (Get (Demo.cfg 2 2) (Demo.net true (bytes_of_string "v") 5) [0; 1]%nat
                (Server.handleDelete
                   (Demo.node_with "k" (bytes_of_string "v") 5) 9 "k").1
                "k" "one").1)) "k").2
    = Ok (bytes_of_string "v", 5).
Proof. vm_compute. repeat split. Qed.

(** The handler sends nothing, whatever the state and the key. *)
Lemma handleDelete_sent st now key :
  sent (Server.handleDelete st now key).1 = sent st.
Proof.
  unfold Server.handleDelete. destruct (decide (key = "")); [done|].
  destruct (Bitcask.Delete _ _ _) as [s [e|]]; done.
Qed.

End coordinator_claims.

(* ===================================================================== *)
(** * The log store *)
(* ===================================================================== *)

Section record_facts.
Import Bitcask Spec.

Lemma length_PutUint32 v : length (PutUint32 v) = 4%nat.
Proof. reflexivity. Qed.

Lemma length_PutUint64 v : length (PutUint64 v) = 8%nat.
Proof. reflexivity. Qed.

Lemma length_header_fields ts kl vl d : length (header_fields ts kl vl d) = 17%nat.
Proof. reflexivity. Qed.

Lemma length_encode key value ts d :
  len (encode key value ts d)
  = headerSize + len (bytes_of_string key) + len value.
Proof.
  unfold encode, len. rewrite !length_app, length_PutUint32, length_header_fields.
  unfold headerSize. lia.
Qed.

Lemma ReadFull_app (a b : list byte) : ReadFull (a ++ b) (length a) = Ok (a, b).
Proof.
  unfold ReadFull. destruct (decide (length a = 0%nat)) as [E|E].
  - apply length_zero_iff_nil in E. by subst.
  - rewrite decide_False by (rewrite length_app; lia).
    rewrite decide_False by (rewrite length_app; lia).
    by rewrite take_app_length, drop_app_length.
Qed.

(** Reading back what [writeEntry] wrote. *)
Lemma readEntry_encode key value ts d rest off :
  wf_record key value ts →
  readEntry (encode key value ts d ++ rest) off
  = Ok ({| Key := key; Value := value; Timestamp := ts; IsDeleted := d;
           Offset := off; Size := int32 (len value) |},
        len (encode key value ts d)).
Proof.
  intros [Hk Hv Hts].
  assert (Hkl : uint32 (len (bytes_of_string key)) = len (bytes_of_string key))
    by (apply uint32_small; unfold len in *; lia).
  assert (Hvl : uint32 (len value) = len value)
    by (apply uint32_small; unfold len in *; lia).
  rewrite length_encode. unfold encode. rewrite Hkl, Hvl.
  set (fields := header_fields ts (len (bytes_of_string key)) (len value) d).
  set (crc := ChecksumIEEE (fields ++ bytes_of_string key ++ value)).
  unfold readEntry.
  replace ((PutUint32 crc ++ fields ++ bytes_of_string key ++ value) ++ rest)
    with ((PutUint32 crc ++ fields) ++ bytes_of_string key ++ value ++ rest)
    by (by rewrite <- !app_assoc).
  change (Z.to_nat headerSize) with (length (PutUint32 crc ++ fields)).
  rewrite ReadFull_app.
  assert (Hcrc : BigEndian (take 4 (PutUint32 crc ++ fields)) = crc).
  { change (take 4 (PutUint32 crc ++ fields)) with (PutUint32 crc).
    apply BigEndian_PutUint32, ChecksumIEEE_range. }
  assert (Hts' : int64 (BigEndian (take 8 (drop 4 (PutUint32 crc ++ fields)))) = ts).
  { change (take 8 (drop 4 (PutUint32 crc ++ fields))) with (PutUint64 (uint64 ts)).
    rewrite BigEndian_PutUint64 by apply uint64_range. by apply int64_uint64. }
  assert (Hkey : BigEndian (take 4 (drop 12 (PutUint32 crc ++ fields)))
                 = len (bytes_of_string key)).
  { change (take 4 (drop 12 (PutUint32 crc ++ fields)))
      with (PutUint32 (len (bytes_of_string key))).
    apply BigEndian_PutUint32. unfold len in *. lia. }
  assert (Hval : BigEndian (take 4 (drop 16 (PutUint32 crc ++ fields))) = len value).
  { change (take 4 (drop 16 (PutUint32 crc ++ fields))) with (PutUint32 (len value)).
    apply BigEndian_PutUint32. unfold len in *. lia. }
  assert (Hdel : bool_decide ((PutUint32 crc ++ fields) !! 20%nat = Some x01) = d).
  { change ((PutUint32 crc ++ fields) !! 20%nat)
      with (Some (if d then x01 else x00)).
    by destruct d. }
  rewrite Hcrc, Hts', Hkey, Hval, Hdel.
  unfold len at 1. rewrite Nat2Z.id, ReadFull_app.
  unfold len at 1. rewrite Nat2Z.id, ReadFull_app.
  change (drop 4 (PutUint32 crc ++ fields)) with fields.
  fold crc. rewrite bool_decide_eq_false_2 by (intros Hc; by apply Hc).
  unfold string_of_bytes, bytes_of_string.
  by rewrite String.string_of_list_byte_of_string.
Qed.

Lemma BigEndian_nonneg b : 0 ≤ BigEndian b.
Proof.
  unfold BigEndian.
  assert (Hf : ∀ acc, 0 ≤ acc →
            0 ≤ foldl (λ acc x, Z.lor (Z.shiftl acc 8) (byte_to_Z x)) acc b).
  { induction b as [|x b IH]; intros acc Hacc; simpl; [done|].
    apply IH. apply Z.lor_nonneg. split.
    - by apply Z.shiftl_nonneg.
    - apply byte_to_Z_range. }
  by apply Hf.
Qed.

Lemma readEntry_size reader off entry n :
  readEntry reader off = Ok (entry, n) → headerSize ≤ n.
Proof.
  unfold readEntry.
  destruct (ReadFull reader _) as [[header r1]|]; [|done].
  destruct (ReadFull r1 _) as [[key r2]|]; [|done].
  destruct (ReadFull r2 _) as [[value r3]|]; [|done].
  case_bool_decide; [done|]. intros [= _ <-].
  pose proof (BigEndian_nonneg (take 4 (drop 12 header))).
  pose proof (BigEndian_nonneg (take 4 (drop 16 header))). lia.
Qed.

End record_facts.

Section store_facts.
Import Bitcask Spec.

Lemma encode_nonempty key value ts d : (0 < length (encode key value ts d))%nat.
Proof. unfold encode. rewrite length_app, length_PutUint32. lia. Qed.

Lemma record_at_app file extra off key value ts :
  record_at file off key value ts → record_at (file ++ extra) off key value ts.
Proof.
  intros (Hoff & Hwf & rest & Hdrop). split_and!; [done..|].
  exists (rest ++ extra).
  assert (Z.to_nat off ≤ length file)%nat.
  { destruct (Nat.le_gt_cases (Z.to_nat off) (length file)) as [|Hgt]; [done|].
    rewrite drop_ge in Hdrop by lia.
    pose proof (encode_nonempty key value ts false).
    destruct (encode key value ts false); simpl in *; [lia|discriminate]. }
  rewrite drop_app_le by done. by rewrite Hdrop, <- app_assoc.
Qed.

Lemma record_at_end file key value ts :
  wf_record key value ts →
  record_at (file ++ encode key value ts false) (len file) key value ts.
Proof.
  intros Hwf. split_and!; [unfold len; lia|done|].
  exists []. unfold len. rewrite Nat2Z.id, drop_app_length. by rewrite app_nil_r.
Qed.

Lemma index_ok_app file extra idx m :
  index_ok file idx m → index_ok (file ++ extra) idx m.
Proof.
  intros Hok key. specialize (Hok key).
  destruct (m !! key) as [[[value ts]|]|]; [|done..].
  destruct Hok as (e & He & Hlive & Hrec).
  exists e. split_and!; [done..|]. by apply record_at_app.
Qed.

Lemma index_ok_Put file idx m key value ts size :
  index_ok file idx m → wf_record key value ts →
  index_ok (file ++ encode key value ts false)
    (Index.Put idx key (len file) size ts) (<[key := Some (value, ts)]> m).
Proof.
  intros Hok Hwf k.
  assert (He : Index.entries (Index.Put idx key (len file) size ts)
               = <[key := {| Index.Offset := len file; Index.Size := size;
                             Index.Timestamp := ts; Index.IsDeleted := false |}]>
                   (Index.entries idx)).
  { unfold Index.Put. destruct (Index.entries idx !! key) as [e|]; [|done].
    by destruct (Index.IsDeleted e). }
  rewrite He. destruct (decide (key = k)) as [->|Hne].
  - rewrite !lookup_insert_eq. eexists. split_and!; [done..|].
    by apply record_at_end.
  - rewrite !lookup_insert_ne by done. by apply index_ok_app.
Qed.

Lemma index_ok_Delete file extra idx m key ts :
  index_ok file idx m →
  index_ok (file ++ extra) (Index.Delete idx key ts).1 (<[key := None]> m).
Proof.
  intros Hok k.
  destruct (decide (key = k)) as [->|Hne].
  - rewrite lookup_insert_eq. unfold Index.Delete.
    destruct (Index.entries idx !! k) as [e|] eqn:Hlk; simpl.
    + destruct (Index.IsDeleted e) eqn:Hdel; simpl.
      * by exists e.
      * rewrite lookup_insert_eq. by eexists.
    + rewrite lookup_insert_eq. by eexists.
  - rewrite lookup_insert_ne by done.
    assert (He : Index.entries (Index.Delete idx key ts).1 !! k
                 = Index.entries idx !! k).
    { unfold Index.Delete. destruct (Index.entries idx !! key) as [e|]; simpl.
      - destruct (Index.IsDeleted e); simpl; [done|]. by rewrite lookup_insert_ne.
      - by rewrite lookup_insert_ne. }
    rewrite He. by apply index_ok_app.
Qed.

Lemma replay_snoc recs r :
  replay (recs ++ [r])
  = <[rec_key r := if rec_deleted r then None
                   else Some (rec_value r, rec_timestamp r)]> (replay recs).
Proof. unfold replay. by rewrite foldl_app. Qed.

Lemma flat_map_snoc {A B} (f : A → list B) l x :
  flat_map f (l ++ [x]) = flat_map f l ++ f x.
Proof. rewrite flat_map_app. simpl. by rewrite app_nil_r. Qed.

(** ** The operations keep the store in order *)

Lemma empty_store_ok syncWrite : store_ok (empty_store syncWrite) [].
Proof. split; done. Qed.

Lemma NewBitcask_empty syncWrite : NewBitcask [] syncWrite = Ok (empty_store syncWrite).
Proof. reflexivity. Qed.

Lemma writeEntry_spec bc key value ts d bc' offset :
  writeEntry bc key value ts d = (bc', offset) →
  offset = position bc
  ∧ log bc' = log bc ++ encode key value ts d
  ∧ position bc' = position bc + len (encode key value ts d)
  ∧ index bc' = index bc
  ∧ closed bc' = closed bc.
Proof.
  unfold writeEntry. cbn [set_position set_files syncWrite].
  destruct (syncWrite bc); intros [= <- <-]; unfold log; simpl;
    by rewrite ?app_nil_r, ?app_assoc.
Qed.

Lemma Put_ok bc recs key value ts :
  store_ok bc recs → wf_record key value ts →
  (Put bc key value ts).2 = None
  ∧ store_ok (Put bc key value ts).1
      (recs ++ [{| rec_key := key; rec_value := value; rec_timestamp := ts;
                   rec_deleted := false |}]).
Proof.
  intros [Hopen Hpos Hlog Hwfs Hidx] Hwf.
  unfold Put. rewrite Hopen.
  destruct (writeEntry (add_write bc) key value ts false) as [bc' offset] eqn:Hw.
  apply writeEntry_spec in Hw as (-> & Hlog' & Hpos' & Hidx' & Hopen').
  change (log (add_write bc)) with (log bc) in Hlog'.
  cbn [add_write position index closed] in Hpos', Hidx', Hopen'.
  split; [done|]. cbn [fst]. split.
  - by rewrite <- Hopen.
  - change (position (set_index bc' _)) with (position bc').
    change (log (set_index bc' _)) with (log bc').
    rewrite Hpos', Hlog', Hpos. unfold len. rewrite length_app. lia.
  - change (log (set_index bc' _)) with (log bc').
    by rewrite Hlog', flat_map_snoc, Hlog.
  - apply Forall_app. split; [done|]. by apply Forall_singleton.
  - change (log (set_index bc' _)) with (log bc').
    change (index (set_index bc' ?i)) with i.
    cbn [add_write position index].
    rewrite Hlog', Hidx', replay_snoc, Hpos.
    by apply index_ok_Put.
Qed.

Lemma Delete_ok bc recs key ts :
  store_ok bc recs → wf_record key [] ts →
  (Delete bc key ts).2 = None
  ∧ store_ok (Delete bc key ts).1
      (recs ++ [{| rec_key := key; rec_value := []; rec_timestamp := ts;
                   rec_deleted := true |}]).
Proof.
  intros [Hopen Hpos Hlog Hwfs Hidx] Hwf.
  unfold Delete. rewrite Hopen.
  destruct (writeEntry (add_write bc) key [] ts true) as [bc' offset] eqn:Hw.
  apply writeEntry_spec in Hw as (-> & Hlog' & Hpos' & Hidx' & Hopen').
  change (log (add_write bc)) with (log bc) in Hlog'.
  cbn [add_write position index closed] in Hpos', Hidx', Hopen'.
  split; [done|]. cbn [fst]. split.
  - by rewrite <- Hopen.
  - change (position (set_index bc' _)) with (position bc').
    change (log (set_index bc' _)) with (log bc').
    rewrite Hpos', Hlog', Hpos. unfold len. rewrite length_app. lia.
  - change (log (set_index bc' _)) with (log bc').
    by rewrite Hlog', flat_map_snoc, Hlog.
  - apply Forall_app. split; [done|]. by apply Forall_singleton.
  - change (log (set_index bc' _)) with (log bc').
    change (index (set_index bc' ?i)) with i.
    rewrite Hlog', Hidx', replay_snoc. cbn [add_write index].
    by apply index_ok_Delete.
Qed.

Lemma Sync_ok bc recs :
  store_ok bc recs → (Sync bc).2 = None ∧ store_ok (Sync bc).1 recs.
Proof.
  intros [Hopen Hpos Hlog Hwfs Hidx]. unfold Sync. rewrite Hopen.
  split; [done|]. cbn [fst].
  assert (Hl : log (Flush bc) = log bc) by (unfold log; simpl; by rewrite app_nil_r).
  split; rewrite ?Hl; done.
Qed.

Lemma Get_ok bc recs key :
  store_ok bc recs →
  (Get bc key).2 = view (replay recs) key ∧ store_ok (Get bc key).1 recs.
Proof.
  intros [Hopen Hpos Hlog Hwfs Hidx]. unfold Get, view. rewrite Hopen.
  assert (Hl : log (Flush (add_read bc)) = log bc)
    by (unfold log; simpl; by rewrite app_nil_r).
  assert (Hkeep : store_ok (add_read bc) recs) by (by split).
  assert (Hflush : store_ok (Flush (add_read bc)) recs).
  { split; rewrite ?Hl; done. }
  unfold Index.Get. cbn [add_read index].
  pose proof (Hidx key) as Hk.
  destruct (replay recs !! key) as [[[value ts]|]|].
  - destruct Hk as (e & -> & Hlive & Hoff & Hwf & rest & Hdrop).
    rewrite Hlive. change (dataFile (Flush (add_read bc))) with (log bc).
    unfold seek. destruct (Z.ltb_spec (Index.Offset e) 0); [lia|].
    rewrite Hdrop, readEntry_encode by done. done.
  - destruct Hk as (e & -> & Hdel). by rewrite Hdel.
  - by rewrite Hk.
Qed.

End store_facts.

Section compaction_facts.
Import Bitcask Spec.

(** The content a compaction keeps: the live keys. *)
Lemma lookup_live_only (m : gmap string (option (list byte * Z))) key :
  live_only m !! key
  = match m !! key with
    | Some (Some found) => Some (Some found)
    | _ => None
    end.
Proof.
  unfold live_only. rewrite lookup_fmap, lookup_omap.
  by destruct (m !! key) as [[?|]|].
Qed.

Lemma compact_step_inv file idx m D tmp newIndex recs' key e :
  index_ok file idx m →
  Index.entries idx !! key = Some e → key ∉ D →
  compact_inv m D tmp newIndex recs' →
  ∃ tmp' newIndex' recs'',
    compact_step file (Ok (tmp, newIndex, len tmp)) (key, e)
    = Ok (tmp', newIndex', len tmp')
    ∧ compact_inv m ({[key]} ∪ D) tmp' newIndex' recs''.
Proof.
  intros Hok He HD (Htmp & Hwf & Hidx & Hcontent).
  pose proof (Hok key) as Hkey. unfold compact_step.
  destruct (Index.IsDeleted e) eqn:Hdel.
  - exists tmp, newIndex, recs'. split; [done|]. split_and!; [done..|].
    intros k. rewrite Hcontent. destruct (decide (k = key)) as [->|Hne].
    + rewrite decide_False by done.
      rewrite decide_True by (apply elem_of_union_l; by apply elem_of_singleton).
      rewrite lookup_live_only.
      destruct (m !! key) as [[[value ts]|]|]; [|done..].
      destruct Hkey as (e' & He' & Hlive & _). congruence.
    + destruct (decide (k ∈ D)).
      * by rewrite decide_True by (by apply elem_of_union_r).
      * rewrite decide_False; [done|].
        apply not_elem_of_union. split; [by apply not_elem_of_singleton|done].
  - destruct (m !! key) as [[[value ts]|]|] eqn:Hm.
    2: { destruct Hkey as (e' & He' & Hdel'). congruence. }
    2: { congruence. }
    destruct Hkey as (e' & He' & _ & Hoff & Hwfr & rest & Hdrop).
    assert (e' = e) as -> by congruence.
    unfold seek. destruct (Z.ltb_spec (Index.Offset e) 0); [lia|].
    rewrite Hdrop, readEntry_encode by done. cbn [Value Timestamp].
    exists (tmp ++ encode key value ts false),
      (Index.Put newIndex key (len tmp) (int32 (len value)) ts),
      (recs' ++ [{| rec_key := key; rec_value := value; rec_timestamp := ts;
                    rec_deleted := false |}]).
    split.
    { do 2 f_equal. unfold len. rewrite length_app. lia. }
    split_and!.
    + by rewrite flat_map_snoc, Htmp.
    + apply Forall_app. split; [done|]. by apply Forall_singleton.
    + rewrite replay_snoc. by apply index_ok_Put.
    + intros k. rewrite replay_snoc. cbn [rec_key rec_deleted rec_value rec_timestamp].
      destruct (decide (k = key)) as [->|Hne].
      * rewrite lookup_insert_eq.
        rewrite decide_True by (apply elem_of_union_l; by apply elem_of_singleton).
        by rewrite lookup_live_only, Hm.
      * rewrite lookup_insert_ne by done. rewrite Hcontent.
        destruct (decide (k ∈ D)).
        -- by rewrite decide_True by (by apply elem_of_union_r).
        -- rewrite decide_False; [done|].
           apply not_elem_of_union. split; [by apply not_elem_of_singleton|done].
Qed.

Lemma compact_fold_inv file idx m todo :
  index_ok file idx m →
  ∀ D tmp newIndex recs',
    NoDup todo.*1 →
    (∀ key e, (key, e) ∈ todo → Index.entries idx !! key = Some e ∧ key ∉ D) →
    compact_inv m D tmp newIndex recs' →
    ∃ tmp' newIndex' recs'',
      foldl (compact_step file) (Ok (tmp, newIndex, len tmp)) todo
      = Ok (tmp', newIndex', len tmp')
      ∧ compact_inv m (list_to_set todo.*1 ∪ D) tmp' newIndex' recs''.
Proof.
  intros Hok. induction todo as [|[key e] todo IH]; intros D tmp newIndex recs' Hnd Hin Hinv.
  - exists tmp, newIndex, recs'. split; [done|].
    simpl. by rewrite (left_id_L ∅ (∪)).
  - simpl in Hnd. apply NoDup_cons in Hnd as [Hfresh Hnd].
    destruct (Hin key e) as [He HD]; [apply list_elem_of_here|].
    destruct (compact_step_inv file idx m D tmp newIndex recs' key e Hok He HD Hinv)
      as (tmp1 & idx1 & recs1 & Hstep & Hinv1).
    destruct (IH ({[key]} ∪ D) tmp1 idx1 recs1 Hnd) as (tmp2 & idx2 & recs2 & Hfold & Hinv2).
    { intros k e' Hk. destruct (Hin k e') as [Hk1 Hk2]; [by apply list_elem_of_further|].
      split; [done|]. apply not_elem_of_union. split; [|done].
      apply not_elem_of_singleton. intros ->. apply Hfresh.
      apply list_elem_of_fmap. by exists (key, e'). }
    { done. }
    exists tmp2, idx2, recs2. split.
    + cbn [foldl]. by rewrite Hstep.
    + cbn [fmap list_fmap list_to_set fst].
      by rewrite (comm_L (∪) {[key]} (list_to_set todo.*1)), <- (assoc_L (∪)).
Qed.

Lemma Compact_ok bc recs order :
  store_ok bc recs →
  order ≡ₚ map_to_list (Index.All (index bc)) →
  ∃ recs',
    (CompactIn order bc).2 = None
    ∧ store_ok (CompactIn order bc).1 recs'
    ∧ replay recs' = live_only (replay recs).
Proof.
  intros [Hopen Hpos Hlog Hwfs Hidx] Hperm. unfold CompactIn. rewrite Hopen.
  change (dataFile (Flush bc)) with (log bc).
  destruct (compact_fold_inv (log bc) (index bc) (replay recs) order Hidx
              ∅ [] Index.NewIndex []) as (tmp & newIndex & recs' & Hfold & Hinv).
  - rewrite Hperm. apply NoDup_fst_map_to_list.
  - intros key e Hin. rewrite Hperm in Hin. apply elem_of_map_to_list in Hin.
    split; [done|]. apply not_elem_of_empty.
  - split_and!; [done|constructor|done|]. intros key.
    by rewrite decide_False by apply not_elem_of_empty.
  - change (len []) with 0 in Hfold. rewrite Hfold.
    destruct Hinv as (Htmp & Hwf & Hidx' & Hcontent).
    exists recs'. split; [done|]. split.
    + split; cbn [fst]; simpl; unfold log; simpl; rewrite ?app_nil_r; done.
    + apply map_eq. intros key. rewrite Hcontent.
      destruct (decide (key ∈ list_to_set order.*1 ∪ (∅ : gset string))) as [|Hnin]; [done|].
      rewrite lookup_live_only.
      assert (Hnone : Index.entries (index bc) !! key = None).
      { destruct (Index.entries (index bc) !! key) as [e|] eqn:He; [|done].
        exfalso. apply Hnin. apply elem_of_union_l, elem_of_list_to_set.
        apply list_elem_of_fmap. exists (key, e). split; [done|].
        rewrite Hperm. by apply elem_of_map_to_list. }
      pose proof (Hidx key) as Hk.
      destruct (replay recs !! key) as [[[value ts]|]|]; [|done..].
      destruct Hk as (e & He & _). congruence.
Qed.

End compaction_facts.

Section recovery_facts.
Import Bitcask Spec.

Lemma readEntry_nil off : readEntry [] off = Err EOF.
Proof. reflexivity. Qed.

Lemma readEntry_Ok_length reader off entry n :
  readEntry reader off = Ok (entry, n) → (21 ≤ length reader)%nat.
Proof.
  unfold readEntry, ReadFull at 1. change (Z.to_nat headerSize) with 21%nat.
  rewrite decide_False by done.
  destruct (decide (length reader = 0%nat)); [done|].
  destruct (decide (length reader < 21)%nat); [done|]. lia.
Qed.

(** The fuel given to the loop of [rebuildIndex] is never used up. *)
Lemma rebuild_loop_fuel fuel :
  ∀ reader off idx,
    (length reader < fuel)%nat →
    rebuild_loop fuel reader off idx ≠ Err (Errorf "unreachable").
Proof.
  induction fuel as [|fuel IH]; intros reader off idx Hfuel; [lia|].
  cbn [rebuild_loop]. destruct (readEntry reader off) as [[entry n]|e] eqn:Hread.
  - apply IH. pose proof (readEntry_Ok_length _ _ _ _ Hread).
    pose proof (readEntry_size _ _ _ _ Hread) as Hn. unfold headerSize in Hn.
    rewrite length_drop. lia.
  - by destruct e.
Qed.

Lemma length_flat_map_records recs :
  (length recs ≤ length (flat_map encode_record recs))%nat.
Proof.
  induction recs as [|r recs IH]; cbn [flat_map length]; [lia|].
  rewrite length_app.
  pose proof (encode_nonempty (rec_key r) (rec_value r) (rec_timestamp r)
                (rec_deleted r)) as Hpos.
  change (encode _ _ _ _) with (encode_record r) in Hpos. lia.
Qed.

(** Replaying a log of records rebuilds an index that agrees with it. *)
Lemma rebuild_loop_records recs :
  ∀ done idx fuel,
    Forall wf_log_record recs →
    index_ok (flat_map encode_record done) idx (replay done) →
    (length recs < fuel)%nat →
    ∃ idx',
      rebuild_loop fuel (flat_map encode_record recs)
        (len (flat_map encode_record done)) idx = Ok idx'
      ∧ index_ok (flat_map encode_record (done ++ recs)) idx' (replay (done ++ recs)).
Proof.
  induction recs as [|r recs IH]; intros done idx fuel Hwf Hidx Hfuel.
  - destruct fuel as [|fuel]; [lia|]. exists idx. split; [done|].
    by rewrite app_nil_r.
  - destruct fuel as [|fuel]; [simpl in Hfuel; lia|].
    apply Forall_cons in Hwf as [Hr Hwf].
    cbn [rebuild_loop flat_map]. unfold encode_record at 1.
    rewrite readEntry_encode by done. cbn [IsDeleted Key Timestamp Size].
    replace (Z.to_nat (len (encode (rec_key r) (rec_value r) (rec_timestamp r)
                              (rec_deleted r))))
      with (length (encode_record r)) by (unfold len; by rewrite Nat2Z.id).
    rewrite drop_app_length.
    set (idx1 := if rec_deleted r
                 then (Index.Delete idx (rec_key r) (rec_timestamp r)).1
                 else Index.Put idx (rec_key r) (len (flat_map encode_record done))
                        (int32 (len (rec_value r))) (rec_timestamp r)).
    assert (Hidx1 : index_ok (flat_map encode_record (done ++ [r])) idx1
                      (replay (done ++ [r]))).
    { rewrite flat_map_snoc, replay_snoc. unfold idx1, encode_record.
      destruct (rec_deleted r).
      - by apply index_ok_Delete.
      - by apply index_ok_Put. }
    assert (Hoff : len (flat_map encode_record done)
                   + len (encode (rec_key r) (rec_value r) (rec_timestamp r)
                            (rec_deleted r))
                   = len (flat_map encode_record (done ++ [r]))).
    { rewrite flat_map_snoc. unfold len, encode_record. rewrite length_app. lia. }
    rewrite Hoff.
    destruct (IH (done ++ [r]) idx1 fuel Hwf Hidx1) as (idx' & Hloop & Hok);
      [simpl in Hfuel; lia|].
    exists idx'. split; [exact Hloop|]. by rewrite <- app_assoc in Hok.
Qed.

Lemma Reopen_ok bc recs sw :
  store_ok bc recs →
  ∃ bc', NewBitcask (dataFile (Close bc)) sw = Ok bc' ∧ store_ok bc' recs.
Proof.
  intros [Hopen Hpos Hlog Hwfs Hidx].
  assert (Hfile : dataFile (Close bc) = flat_map encode_record recs).
  { unfold Close. rewrite Hopen. by rewrite <- Hlog. }
  rewrite Hfile. unfold NewBitcask.
  cbn [set_position dataFile writer index closed syncWrite totalReads totalWrites].
  destruct (Z.ltb_spec 0 (len (flat_map encode_record recs))) as [Hlt|Hge].
  - unfold rebuildIndex.
    cbn [set_position dataFile writer index closed syncWrite totalReads totalWrites].
    destruct (rebuild_loop_records recs [] Index.NewIndex
                (S (length (flat_map encode_record recs))) Hwfs) as (idx' & Hloop & Hok).
    { done. }
    { pose proof (length_flat_map_records recs). lia. }
    change (len (flat_map encode_record [])) with 0 in Hloop. rewrite Hloop.
    eexists. split; [reflexivity|].
    split; cbn; unfold log; cbn; rewrite ?app_nil_r; done.
  - assert (recs = []) as ->.
    { pose proof (length_flat_map_records recs). unfold len in Hge.
      destruct recs; [done|]. simpl in *. lia. }
    eexists. split; [done|].
    split; cbn; unfold log; cbn; done.
Qed.

(** Every reachable store is in order. *)
Lemma store_reachable_ok bc : store_reachable bc → ∃ recs, store_ok bc recs.
Proof.
  induction 1 as [sw|bc key value ts _ [recs IH] Hwf|bc key ts _ [recs IH] Hwf
                  |bc key _ [recs IH]|bc _ [recs IH]|bc order _ [recs IH] Hperm
                  |bc sw bc' _ [recs IH] Hopen].
  - exists []. apply empty_store_ok.
  - eexists. by apply Put_ok.
  - eexists. by apply Delete_ok.
  - exists recs. by apply Get_ok.
  - exists recs. by apply Sync_ok.
  - destruct (Compact_ok bc recs order IH Hperm) as (recs' & _ & Hok & _). by exists recs'.
  - destruct (Reopen_ok bc recs sw IH) as (bc'' & Hopen' & Hok).
    exists recs. congruence.
Qed.

End recovery_facts.

Section store_claims.
Import Bitcask Spec.

Lemma readEntry_corrupt_nonempty reader off :
  readEntry reader off = Err ErrCorruptData → (0 < length reader)%nat.
Proof.
  unfold readEntry, ReadFull at 1.
  change (Z.to_nat headerSize) with 21%nat.
  rewrite decide_False by done.
  destruct (decide (length reader = 0%nat)); [done|]. lia.
Qed.

(** Recovery walks through the valid prefix. *)
Lemma rebuild_loop_prefix file o :
  valid_prefix file o →
  0 ≤ o
  ∧ ∃ k : nat,
      headerSize * Z.of_nat k ≤ o
      ∧ ∀ fuel idx0, ∃ idx,
          rebuild_loop (k + fuel) file 0 idx0
          = rebuild_loop fuel (drop (Z.to_nat o) file) o idx.
Proof.
  induction 1 as [|o entry n _ (Ho & k & Hk & IH) Hread].
  - split; [done|]. exists 0%nat. split; [unfold headerSize; lia|].
    intros fuel idx0. by exists idx0.
  - pose proof (readEntry_size _ _ _ _ Hread) as Hn. unfold headerSize in *.
    split; [lia|]. exists (S k). split; [lia|].
    intros fuel idx0. destruct (IH (S fuel) idx0) as [idx Hloop].
    rewrite Nat.add_succ_r in Hloop. rewrite Nat.add_succ_l, Hloop.
    cbn [rebuild_loop]. rewrite Hread.
    rewrite drop_drop. replace (Z.to_nat o + Z.to_nat n)%nat with (Z.to_nat (o + n)) by lia.
    by eexists.
Qed.

(** C3 (as the code has it).  For every data file whose prefix up to an
    offset [o] parses as valid records and whose bytes at [o] fail the CRC
    check, opening the store fails: recovery reads the valid prefix, stops
    at [o], and [NewBitcask] returns the corruption error wrapped with the
    offset; no store is returned and the file is not truncated. *)
Theorem NewBitcask_corrupt_record_fails (file : list byte) (o : Z) (sw : bool) :
  valid_prefix file o →
  readEntry (drop (Z.to_nat o) file) o = Err ErrCorruptData →
  NewBitcask file sw
  = Err (Wrap "failed to rebuild index"
           (Wrap ("error at offset " +:+ pretty o) ErrCorruptData)).
Proof.
  intros Hprefix Hcorrupt.
  destruct (rebuild_loop_prefix file o Hprefix) as (Ho & k & Hk & Hloop).
  pose proof (readEntry_corrupt_nonempty _ _ Hcorrupt) as Hlen.
  rewrite length_drop in Hlen. unfold headerSize in Hk.
  unfold NewBitcask.
  cbn [set_position dataFile writer index closed syncWrite totalReads totalWrites].
  destruct (Z.ltb_spec 0 (len file)) as [_|Hge]; [|unfold len in Hge; lia].
  unfold rebuildIndex.
  cbn [set_position dataFile writer index closed syncWrite totalReads totalWrites].
  replace (S (length file)) with (k + S (length file - k))%nat by lia.
  destruct (Hloop (S (length file - k)) Index.NewIndex) as [idx ->].
  cbn [rebuild_loop]. by rewrite Hcorrupt.
Qed.

Lemma NewBitcask_corrupt_record_fails_witness :
  NewBitcask Demo.torn_file false
  = Err (Wrap "failed to rebuild index"
           (Wrap ("error at offset " +:+ pretty 25) ErrCorruptData)).
Proof.
  apply (NewBitcask_corrupt_record_fails Demo.torn_file 25 false).
  - change 25 with (0 + 25).
    apply (valid_next Demo.torn_file 0
             {| Key := "k1"; Value := bytes_of_string "v1"; Timestamp := 100;
                IsDeleted := false; Offset := 0; Size := 2 |} 25).
    + apply valid_start.
    + vm_compute. reflexivity.
  - vm_compute. reflexivity.
Defined.

(** C3, the claim as stated fails.  The file holds one intact record of 25
    bytes followed by a record whose CRC does not match: the first record
    parses, the bytes at offset 25 fail the CRC check, and opening the store
    returns an error instead of a store. *)
Lemma NewBitcask_torn_tail_is_fatal :
  readEntry Demo.torn_file 0
  = Ok ({| Key := "k1"; Value := bytes_of_string "v1"; Timestamp := 100;
           IsDeleted := false; Offset := 0; Size := 2 |}, 25)
  ∧ readEntry (drop 25 Demo.torn_file) 25 = Err ErrCorruptData
  ∧ NewBitcask Demo.torn_file false
    = Err (Wrap "failed to rebuild index"
             (Wrap "error at offset 25" ErrCorruptData)).
Proof. vm_compute. repeat split. Qed.

End store_claims.

Section round_trip.
Import Bitcask Spec.

Lemma run_ok ops :
  ∀ bc recs,
    store_ok bc recs → Forall wf_op ops →
    ∃ bc', run ops bc = Ok bc' ∧ store_ok bc' (recs ++ (op_record <$> ops)).
Proof.
  induction ops as [|op ops IH]; intros bc recs Hok Hwf.
  - exists bc. split; [done|]. by rewrite app_nil_r.
  - apply Forall_cons in Hwf as [Hop Hwf].
    assert (Hstep : (apply_op bc op).2 = None
                    ∧ store_ok (apply_op bc op).1 (recs ++ [op_record op])).
    { destruct op as [key value ts|key ts]; simpl in *.
      - by apply Put_ok.
      - by apply Delete_ok. }
    destruct Hstep as [Hnone Hok'].
    destruct (IH _ _ Hok' Hwf) as (bc' & Hrun & Hok'').
    exists bc'. split.
    + cbn [run]. destruct (apply_op bc op) as [bc1 err]. simpl in Hnone. by subst.
    + rewrite <- app_assoc in Hok''. exact Hok''.
Qed.

(** The content of a log extended by operations is, for each key, what the
    last of these operations on the key left, and what it was before for a
    key they do not touch. *)
Lemma view_replay_app recs ops key :
  view (replay (recs ++ (op_record <$> ops))) key
  = match last_op_on key ops with
    | None => view (replay recs) key
    | Some (OpPut _ value timestamp) => Ok (value, timestamp)
    | Some (OpDelete _ _) => Err ErrKeyDeleted
    end.
Proof.
  unfold last_op_on.
  induction ops as [|op ops IH] using rev_ind.
  - by rewrite app_nil_r.
  - rewrite fmap_app, filter_app, (assoc_L (++)). cbn [fmap list_fmap].
    rewrite filter_cons, filter_nil.
    unfold view in *. rewrite replay_snoc.
    assert (Hk : rec_key (op_record op) = op_key op) by (by destruct op).
    rewrite Hk. destruct (decide (op_key op = key)) as [->|Hne].
    + rewrite lookup_insert_eq, last_snoc. by destruct op.
    + rewrite lookup_insert_ne by done. by rewrite app_nil_r.
Qed.

Lemma view_replay_ops ops key :
  view (replay (op_record <$> ops)) key = expected ops key.
Proof. apply (view_replay_app [] ops key). Qed.

(** Reads after a sequence of writes to any reachable store. *)
Lemma reads_after_run bc0 ops :
  store_reachable bc0 → Forall wf_op ops →
  ∃ bc,
    run ops bc0 = Ok bc
    ∧ ∀ key,
        (Get bc key).2
        = match last_op_on key ops with
          | None => (Get bc0 key).2
          | Some (OpPut _ value timestamp) => Ok (value, timestamp)
          | Some (OpDelete _ _) => Err ErrKeyDeleted
          end.
Proof.
  intros Hreach Hwf.
  destruct (store_reachable_ok bc0 Hreach) as [recs Hok0].
  destruct (run_ok ops bc0 recs Hok0 Hwf) as (bc & Hrun & Hok).
  exists bc. split; [done|]. intros key.
  destruct (Get_ok bc _ key Hok) as [-> _].
  destruct (Get_ok bc0 _ key Hok0) as [-> _].
  apply view_replay_app.
Qed.

(** C6.  For every sequence of [put(k, v, ts)] and [delete(k, ts)] on a new
    log store, with records of the data model and strictly increasing
    timestamps, every operation succeeds and a following [get(k)] returns,
    for each key [k], the value and timestamp of the most recent operation on
    [k], the [ErrKeyDeleted] error when that operation is a delete, and the
    [ErrKeyNotFound] error when [k] was never written. *)
Theorem log_round_trip (ops : list Op) (sw : bool) :
  Forall wf_op ops →
  Sorted Z.lt (op_timestamp <$> ops) →
  ∃ bc0 bc,
    NewBitcask [] sw = Ok bc0
    ∧ run ops bc0 = Ok bc
    ∧ ∀ key, (Get bc key).2 = expected ops key.
Proof.
  intros Hwf _.
  destruct (run_ok ops (empty_store sw) [] (empty_store_ok sw) Hwf) as (bc & Hrun & Hok).
  exists (empty_store sw), bc. split_and!; [done..|].
  intros key. destruct (Get_ok bc _ key Hok) as [-> _].
  apply view_replay_ops.
Qed.

Lemma log_round_trip_witness :
  ∃ bc0 bc,
    NewBitcask [] true = Ok bc0
    ∧ run Demo.ops bc0 = Ok bc
    ∧ ∀ key, (Get bc key).2 = expected Demo.ops key.
Proof.
  apply (log_round_trip Demo.ops true).
  - unfold Demo.ops. repeat (apply Forall_cons; split); try apply Forall_nil.
    all: split; unfold len; simpl; lia.
  - unfold Demo.ops. simpl. repeat constructor.
Defined.

End round_trip.

Section compaction_claims.
Import Bitcask Spec.

Lemma Has_view bc recs key :
  store_ok bc recs → Has bc key = is_ok (view (replay recs) key).
Proof.
  intros [Hopen _ _ _ Hidx]. unfold Has, Index.Has, view. rewrite Hopen.
  specialize (Hidx key).
  destruct (replay recs !! key) as [[[value ts]|]|].
  - destruct Hidx as (e & -> & -> & _). done.
  - destruct Hidx as (e & -> & ->). done.
  - by rewrite Hidx.
Qed.




End compaction_claims.

(* ===================================================================== *)
(** * The log store beyond the claims *)
(* ===================================================================== *)

Section store_more.
Import Bitcask Spec.

Lemma NewBitcask_fields file sw bc :
  NewBitcask file sw = Ok bc →
  dataFile bc = file ∧ writer bc = [] ∧ syncWrite bc = sw ∧ closed bc = false.
Proof.
  unfold NewBitcask, rebuildIndex. cbn [set_position dataFile index].
  destruct (0 <? len file).
  - destruct (rebuild_loop _ _ _ _); [|done]. by intros [= <-].
  - by intros [= <-].
Qed.

Lemma Close_open bc :
  closed bc = false → dataFile (Close bc) = log bc ∧ writer (Close bc) = [].
Proof. intros Hopen. unfold Close. by rewrite Hopen. Qed.

(** Two stores over the same records answer alike. *)
Lemma store_ok_same_reads bc bc' recs key :
  store_ok bc recs → store_ok bc' recs →
  (Get bc' key).2 = (Get bc key).2 ∧ Has bc' key = Has bc key.
Proof.
  intros Hok Hok'. split.
  - destruct (Get_ok _ _ key Hok) as [-> _]. by destruct (Get_ok _ _ key Hok') as [-> _].
  - by rewrite (Has_view _ _ _ Hok), (Has_view _ _ _ Hok').
Qed.

Lemma store_ok_recovers bc recs :
  store_ok bc recs → recovers (log bc) bc.
Proof.
  intros Hok sw. destruct (Reopen_ok bc recs sw Hok) as (bc' & Hnew & Hok').
  rewrite (proj1 (Close_open bc (ok_open _ _ Hok))) in Hnew.
  exists bc'. split; [done|]. intros key. by apply (store_ok_same_reads _ _ recs).
Qed.

Lemma writeEntry_buffer bc key value ts d :
  syncWrite (writeEntry bc key value ts d).1 = syncWrite bc
  ∧ (syncWrite bc = true → writer (writeEntry bc key value ts d).1 = []).
Proof.
  unfold writeEntry. cbn [set_position set_files syncWrite].
  by destruct (syncWrite bc) eqn:Hs.
Qed.

(** With sync writes on, nothing stays in the write buffer. *)
Lemma sync_writes_unbuffered bc :
  store_reachable bc → syncWrite bc = true → writer bc = [].
Proof.
  induction 1 as [sw|bc key value ts _ IH _|bc key ts _ IH _|bc key _ IH|bc _ IH
                 |bc order _ IH _|bc sw bc' _ IH Hnew]; intros Hsync.
  - done.
  - unfold Put in *. destruct (closed bc); [by apply IH|].
    destruct (writeEntry_buffer (add_write bc) key value ts false) as [Hs Hw].
    destruct (writeEntry _ _ _ _ _) as [bc1 offset]. cbn in *.
    apply Hw. by rewrite <- Hs.
  - unfold Delete in *. destruct (closed bc); [by apply IH|].
    destruct (writeEntry_buffer (add_write bc) key [] ts true) as [Hs Hw].
    destruct (writeEntry _ _ _ _ _) as [bc1 offset]. cbn in *.
    apply Hw. by rewrite <- Hs.
  - unfold Get in *. destruct (closed bc); [by apply IH|].
    cbn in *. destruct (Index.Get (index bc) key) as [e|]; [|by apply IH].
    destruct (Index.IsDeleted e); [by apply IH|].
    destruct (seek _ _); [|done]. by destruct (readEntry _ _) as [[? ?]|].
  - unfold Sync in *. destruct (closed bc); [by apply IH|]. done.
  - unfold CompactIn in *. destruct (closed bc); [by apply IH|].
    by destruct (foldl _ _ _) as [[[? ?] ?]|].
  - by destruct (NewBitcask_fields _ _ _ Hnew) as (_ & ? & _).
Qed.

Lemma Get_after_Put bc key value timestamp :
  store_reachable bc → wf_record key value timestamp →
  (Put bc key value timestamp).2 = None
  ∧ store_reachable (Put bc key value timestamp).1
  ∧ (Get (Put bc key value timestamp).1 key).2 = Ok (value, timestamp).
Proof.
  intros Hreach Hwf. destruct (store_reachable_ok bc Hreach) as [recs Hok].
  destruct (Put_ok bc recs key value timestamp Hok Hwf) as [Hnone Hok'].
  split_and!; [done|by apply store_put|].
  destruct (Get_ok _ _ key Hok') as [-> _].
  unfold view. rewrite replay_snoc. cbn. by rewrite lookup_insert_eq.
Qed.

Lemma Get_leaves_content_reads bc key :
  store_reachable bc →
  (Get (Get bc key).1 key).2 = (Get bc key).2 ∧ store_reachable (Get bc key).1.
Proof.
  intros Hreach. split; [|by apply store_get].
  destruct (Get_same_content bc bc key (same_content_refl bc)) as [_ Hsame].
  by destruct (Get_same_content _ _ key Hsame) as [-> _].
Qed.

(** X1.  What [writeEntry] appends, [readEntry] reads back: for a record of
    the data model written to a store whose position is the end of its log,
    reading the log at the offset [writeEntry] returns gives the key, the
    value, the timestamp and the tombstone flag that were written, and
    reports the 21 header bytes plus the lengths of key and value as
    consumed; the position has advanced by as much. *)
Theorem writeEntry_readEntry (bc : Bitcask.t) (key : string) (value : list byte)
    (timestamp : Z) (isDeleted : bool) :
  wf_record key value timestamp →
  position bc = len (log bc) →
  readEntry
    (drop (Z.to_nat (writeEntry bc key value timestamp isDeleted).2)
          (log (writeEntry bc key value timestamp isDeleted).1))
    (writeEntry bc key value timestamp isDeleted).2
  = Ok ({| Key := key; Value := value; Timestamp := timestamp;
           IsDeleted := isDeleted; Offset := position bc;
           Size := int32 (len value) |},
        headerSize + len (bytes_of_string key) + len value)
  ∧ position (writeEntry bc key value timestamp isDeleted).1
    = position bc + headerSize + len (bytes_of_string key) + len value.
Proof.
  intros Hwf Hpos.
  destruct (writeEntry bc key value timestamp isDeleted) as [bc' offset] eqn:Hw.
  apply writeEntry_spec in Hw as (-> & Hlog & Hpos' & _). cbn [fst snd].
  pose proof (length_encode key value timestamp isDeleted) as Hlen.
  split; [|lia].
  rewrite Hlog, Hpos. unfold len at 1. rewrite Nat2Z.id, drop_app_length.
  rewrite <- (app_nil_r (encode _ _ _ _)), readEntry_encode by done.
  by rewrite Hlen.
Qed.

Lemma writeEntry_readEntry_witness :
  readEntry
    (drop (Z.to_nat (writeEntry Demo.store "k" (bytes_of_string "v") 7 true).2)
          (log (writeEntry Demo.store "k" (bytes_of_string "v") 7 true).1))
    (writeEntry Demo.store "k" (bytes_of_string "v") 7 true).2
  = Ok ({| Key := "k"; Value := bytes_of_string "v"; Timestamp := 7;
           IsDeleted := true; Offset := position Demo.store;
           Size := int32 (len (bytes_of_string "v")) |},
        headerSize + len (bytes_of_string "k") + len (bytes_of_string "v"))
  ∧ position (writeEntry Demo.store "k" (bytes_of_string "v") 7 true).1
    = position Demo.store + headerSize + len (bytes_of_string "k")
      + len (bytes_of_string "v").
Proof.
  apply (writeEntry_readEntry Demo.store "k" (bytes_of_string "v") 7 true).
  - split; unfold len; simpl; lia.
  - vm_compute. reflexivity.
Defined.

(** X2.  A store that is closed and opened again answers as before: for
    every reachable store, [NewBitcask] on the file [Close] leaves succeeds,
    with either sync option, and [Get] and [Has] on the store it returns
    give for every key what they gave before, tombstones included. *)
Theorem Close_then_NewBitcask_same_reads (bc : Bitcask.t) :
  store_reachable bc → recovers (dataFile (Close bc)) bc.
Proof.
  intros Hreach. destruct (store_reachable_ok bc Hreach) as [recs Hok].
  rewrite (proj1 (Close_open bc (ok_open _ _ Hok))).
  by apply (store_ok_recovers bc recs).
Qed.

Lemma Close_then_NewBitcask_same_reads_witness :
  recovers (dataFile (Close Demo.store)) Demo.store.
Proof.
  apply (Close_then_NewBitcask_same_reads Demo.store).
  unfold Demo.store.
  apply store_get, store_put; [apply store_delete; [apply store_put;
    [apply store_put; [apply store_new|]|]|]|].
  all: split; unfold len; simpl; lia.
Defined.

(** X3.  What is on the data file is enough once it has been synced: for
    every reachable store, the file as [Sync] leaves it recovers every read
    without [Close] having run, and with sync writes on the file recovers
    every read at any time, since [writeEntry] flushes each record. *)
Theorem synced_file_recovers (bc : Bitcask.t) :
  store_reachable bc →
  recovers (dataFile (Sync bc).1) bc
  ∧ (syncWrite bc = true → recovers (dataFile bc) bc).
Proof.
  intros Hreach. destruct (store_reachable_ok bc Hreach) as [recs Hok].
  pose proof (store_ok_recovers bc recs Hok) as Hrec. split.
  - unfold Sync. by rewrite (ok_open _ _ Hok).
  - intros Hsync. unfold log in Hrec.
    by rewrite (sync_writes_unbuffered bc Hreach Hsync), app_nil_r in Hrec.
Qed.

Lemma synced_file_recovers_witness :
  recovers (dataFile (Sync Demo.store).1) Demo.store
  ∧ (syncWrite Demo.store = true → recovers (dataFile Demo.store) Demo.store).
Proof.
  apply (synced_file_recovers Demo.store).
  unfold Demo.store.
  apply store_get, store_put; [apply store_delete; [apply store_put;
    [apply store_put; [apply store_new|]|]|]|].
  all: split; unfold len; simpl; lia.
Defined.

(** Without sync writes a record can be acknowledged and still be in the
    buffer only: the file of this store holds nothing of the put. *)
Example unsynced_put_not_on_file :
  (Put (empty_store false) "k" (bytes_of_string "v") 7).2 = None
  ∧ dataFile (Put (empty_store false) "k" (bytes_of_string "v") 7).1 = [].
Proof. vm_compute. done. Qed.

(** X4.  A closed store: [Close] on an open store flushes the buffer to the
    file; afterwards [Get], [Put], [Delete], [Sync] and [Compact] refuse
    with [ErrStorageClosed] and leave the store as it is, [Has] answers
    false and [Keys] nothing, a second [Close] changes nothing, while
    [Count] still answers from the index. *)
Theorem closed_store_refuses (bc : Bitcask.t) :
  closed bc = false →
  closed (Close bc) = true
  ∧ dataFile (Close bc) = dataFile bc ++ writer bc
  ∧ writer (Close bc) = []
  ∧ (∀ key, Get (Close bc) key = (Close bc, Err ErrStorageClosed))
  ∧ (∀ key value timestamp,
       Put (Close bc) key value timestamp = (Close bc, Some ErrStorageClosed))
  ∧ (∀ key timestamp,
       Delete (Close bc) key timestamp = (Close bc, Some ErrStorageClosed))
  ∧ Sync (Close bc) = (Close bc, Some ErrStorageClosed)
  ∧ (∀ order, CompactIn order (Close bc) = (Close bc, Some ErrStorageClosed))
  ∧ (∀ key, Has (Close bc) key = false)
  ∧ Keys (Close bc) = []
  ∧ Close (Close bc) = Close bc
  ∧ Count (Close bc) = Count bc.
Proof. intros Hopen. unfold Close. rewrite Hopen. by split_and!. Qed.

Lemma closed_store_refuses_witness :
  closed (Close Demo.store) = true
  ∧ dataFile (Close Demo.store) = dataFile Demo.store ++ writer Demo.store
  ∧ writer (Close Demo.store) = []
  ∧ (∀ key, Get (Close Demo.store) key = (Close Demo.store, Err ErrStorageClosed))
  ∧ (∀ key value timestamp,
       Put (Close Demo.store) key value timestamp
       = (Close Demo.store, Some ErrStorageClosed))
  ∧ (∀ key timestamp,
       Delete (Close Demo.store) key timestamp
       = (Close Demo.store, Some ErrStorageClosed))
  ∧ Sync (Close Demo.store) = (Close Demo.store, Some ErrStorageClosed)
  ∧ (∀ order, CompactIn order (Close Demo.store)
              = (Close Demo.store, Some ErrStorageClosed))
  ∧ (∀ key, Has (Close Demo.store) key = false)
  ∧ Keys (Close Demo.store) = []
  ∧ Close (Close Demo.store) = Close Demo.store
  ∧ Count (Close Demo.store) = Count Demo.store.
Proof. apply (closed_store_refuses Demo.store). reflexivity. Defined.

(** X5.  Reading does not disturb the store: after [Get] of any key, on any
    store, the index and the bytes of the log are what they were, so that
    [Get] of any key answers as it would have, and [Has] and [Keys] are
    unchanged; on an open store the read counter has gone up by one
    (modulo 2^64) whether the key was found or not. *)
Theorem Get_leaves_content (bc : Bitcask.t) (key : string) :
  index (Get bc key).1 = index bc
  ∧ log (Get bc key).1 = log bc
  ∧ position (Get bc key).1 = position bc
  ∧ (∀ key', (Get (Get bc key).1 key').2 = (Get bc key').2)
  ∧ (∀ key', Has (Get bc key).1 key' = Has bc key')
  ∧ Keys (Get bc key).1 = Keys bc
  ∧ totalReads (Get bc key).1
    = (if closed bc then totalReads bc else uint64 (totalReads bc + 1)).
Proof.
  destruct (Get_same_content bc bc key (same_content_refl bc)) as [_ Hsame].
  pose proof Hsame as (Hclosed & Hindex & Hlog).
  split_and!; [done|done| | | | |].
  - unfold Get. destruct (closed bc); [done|]. cbn.
    destruct (Index.Get (index bc) key) as [e|]; [|done].
    destruct (Index.IsDeleted e); [done|].
    destruct (seek _ _); [|done]. by destruct (readEntry _ _) as [[? ?]|].
  - intros key'. by destruct (Get_same_content _ _ key' Hsame) as [-> _].
  - intros key'. unfold Has. by rewrite Hclosed, Hindex.
  - unfold Keys. by rewrite Hclosed, Hindex.
  - unfold Get. destruct (closed bc); [done|]. cbn.
    destruct (Index.Get (index bc) key) as [e|]; [|done].
    destruct (Index.IsDeleted e); [done|].
    destruct (seek _ _); [|done]. by destruct (readEntry _ _) as [[? ?]|].
Qed.

(** X6.  A put is read back, whatever was there: on every reachable store
    and for every record of the data model, [Put] succeeds, a following
    [Get] of the key returns the value and timestamp just written, also
    when the key held a record with a later timestamp or a tombstone, and
    every other key reads as before. *)
Theorem Put_then_Get (bc : Bitcask.t) (key : string) (value : list byte)
    (timestamp : Z) :
  store_reachable bc → wf_record key value timestamp →
  (Put bc key value timestamp).2 = None
  ∧ (Get (Put bc key value timestamp).1 key).2 = Ok (value, timestamp)
  ∧ Has (Put bc key value timestamp).1 key = true
  ∧ ∀ key', key' ≠ key →
      (Get (Put bc key value timestamp).1 key').2 = (Get bc key').2
      ∧ Has (Put bc key value timestamp).1 key' = Has bc key'.
Proof.
  intros Hreach Hwf. destruct (store_reachable_ok bc Hreach) as [recs Hok].
  destruct (Put_ok bc recs key value timestamp Hok Hwf) as [Hnone Hok'].
  split; [done|].
  assert (Hview : ∀ k,
    view (replay (recs ++ [{| rec_key := key; rec_value := value;
                              rec_timestamp := timestamp; rec_deleted := false |}])) k
    = if decide (k = key) then Ok (value, timestamp) else view (replay recs) k).
  { intros k. unfold view. rewrite replay_snoc. cbn.
    destruct (decide (k = key)) as [->|Hne].
    - by rewrite lookup_insert_eq.
    - by rewrite lookup_insert_ne. }
  split_and!.
  - destruct (Get_ok _ _ key Hok') as [-> _]. by rewrite Hview, decide_True.
  - by rewrite (Has_view _ _ _ Hok'), Hview, decide_True.
  - intros key' Hne. split.
    + destruct (Get_ok _ _ key' Hok') as [-> _]. destruct (Get_ok _ _ key' Hok) as [-> _].
      by rewrite Hview, decide_False.
    + by rewrite (Has_view _ _ _ Hok'), (Has_view _ _ _ Hok), Hview, decide_False.
Qed.

Lemma Put_then_Get_witness :
  (Put Demo.store "k2" (bytes_of_string "old") 1).2 = None
  ∧ (Get (Put Demo.store "k2" (bytes_of_string "old") 1).1 "k2").2
    = Ok (bytes_of_string "old", 1)
  ∧ Has (Put Demo.store "k2" (bytes_of_string "old") 1).1 "k2" = true
  ∧ ∀ key', key' ≠ "k2" →
      (Get (Put Demo.store "k2" (bytes_of_string "old") 1).1 key').2
      = (Get Demo.store key').2
      ∧ Has (Put Demo.store "k2" (bytes_of_string "old") 1).1 key'
        = Has Demo.store key'.
Proof.
  apply (Put_then_Get Demo.store "k2" (bytes_of_string "old") 1).
  - unfold Demo.store.
    apply store_get, store_put; [apply store_delete; [apply store_put;
      [apply store_put; [apply store_new|]|]|]|].
    all: split; unfold len; simpl; lia.
  - split; unfold len; simpl; lia.
Defined.



End store_more.

(* ===================================================================== *)
(** * The counters of the index *)
(* ===================================================================== *)

Section counter_facts.
Import Bitcask Spec.

Lemma int64_add a b : int64 (int64 a + b) = int64 (a + b).
Proof.
  unfold int64. f_equal.
  replace ((a + 2 ^ 63) mod 2 ^ 64 - 2 ^ 63 + b + 2 ^ 63)
    with ((a + 2 ^ 63) mod 2 ^ 64 + b) by lia.
  rewrite Zplus_mod_idemp_l. f_equal. lia.
Qed.

Lemma int64_sub a b : int64 (int64 a - b) = int64 (a - b).
Proof. apply (int64_add a (- b)). Qed.

Lemma int64_small z : - 2 ^ 63 ≤ z < 2 ^ 63 → int64 z = z.
Proof. intros Hz. unfold int64. rewrite Z.mod_small; lia. Qed.

Lemma uint64_add a b : uint64 (uint64 a + b) = uint64 (a + b).
Proof. unfold uint64. by rewrite Zplus_mod_idemp_l. Qed.

(** How an insertion moves the number of entries that satisfy [P]. *)
Lemma size_filter_insert (P : string * Index.IndexEntry → Prop)
    `{!∀ x, Decision (P x)} (m : gmap string Index.IndexEntry) k e :
  Z.of_nat (size (filter P (<[k := e]> m)))
  = Z.of_nat (size (filter P m))
    - match m !! k with
      | Some e0 => if decide (P (k, e0)) then 1 else 0
      | None => 0
      end
    + (if decide (P (k, e)) then 1 else 0).
Proof.
  rewrite map_filter_insert. destruct (decide (P (k, e))) as [_|_].
  - rewrite map_size_insert.
    destruct (filter P m !! k) as [x|] eqn:Hf.
    + apply map_lookup_filter_Some in Hf as [-> HP]. rewrite decide_True by done.
      simpl. lia.
    + destruct (m !! k) as [e0|] eqn:Hm; [|lia].
      destruct (decide (P (k, e0))) as [HP|_]; [|lia].
      assert (filter P m !! k = Some e0) by (by apply map_lookup_filter_Some).
      congruence.
  - rewrite map_filter_delete, map_size_delete.
    destruct (filter P m !! k) as [x|] eqn:Hf.
    + pose proof (map_size_ne_0_lookup_2 (filter P m) k (mk_is_Some _ _ Hf)).
      apply map_lookup_filter_Some in Hf as [-> HP]. rewrite decide_True by done.
      simpl. lia.
    + destruct (m !! k) as [e0|] eqn:Hm; [|simpl; lia].
      destruct (decide (P (k, e0))) as [HP|_]; [|simpl; lia].
      assert (filter P m !! k = Some e0) by (by apply map_lookup_filter_Some).
      congruence.
Qed.

Lemma Index_Put_counters short idx key offset size timestamp :
  counters_short short idx →
  counters_short (short + (if tombstoned idx key then 1 else 0))
    (Index.Put idx key offset size timestamp).
Proof.
  intros [Hdel Hact]. unfold counters_short, live_count, tombstone_count, tombstoned in *.
  unfold Index.Put.
  destruct (Index.entries idx !! key) as [e0|] eqn:He; [destruct (Index.IsDeleted e0) eqn:Hd|];
    cbn [Index.entries Index.active Index.deleted];
    rewrite !size_filter_insert, He; cbn [snd Index.IsDeleted]; rewrite ?Hd;
    rewrite ?(decide_True (P := false = false)) by done;
    rewrite ?(decide_False (P := false = true)) by done;
    rewrite ?(decide_False (P := true = false)) by done;
    rewrite ?(decide_True (P := true = true)) by done;
    rewrite Hdel, Hact, ?int64_add, ?int64_sub; split; f_equal; lia.
Qed.

Lemma Index_Delete_counters short idx key timestamp :
  counters_short short idx →
  counters_short short (Index.Delete idx key timestamp).1.
Proof.
  intros [Hdel Hact]. unfold counters_short, live_count, tombstone_count in *.
  unfold Index.Delete.
  destruct (Index.entries idx !! key) as [e0|] eqn:He; [destruct (Index.IsDeleted e0) eqn:Hd|].
  - done.
  - cbn [negb fst Index.entries Index.active Index.deleted].
    rewrite !size_filter_insert, He. cbn [snd Index.IsDeleted]. rewrite Hd.
    rewrite (decide_True (P := false = false)) by done.
    rewrite (decide_False (P := false = true)) by done.
    rewrite (decide_False (P := true = false)) by done.
    rewrite (decide_True (P := true = true)) by done.
    rewrite Hdel, Hact, ?int64_add, ?int64_sub. split; f_equal; lia.
  - cbn [fst Index.entries Index.active Index.deleted].
    rewrite !size_filter_insert, He. cbn [snd Index.IsDeleted].
    rewrite (decide_False (P := true = false)) by done.
    rewrite (decide_True (P := true = true)) by done.
    rewrite Hdel, Hact, ?int64_add, ?int64_sub. split; f_equal; lia.
Qed.

Lemma entries_Put idx key offset size timestamp :
  Index.entries (Index.Put idx key offset size timestamp)
  = <[key := {| Index.Offset := offset; Index.Size := size;
                Index.Timestamp := timestamp; Index.IsDeleted := false |}]>
      (Index.entries idx).
Proof.
  unfold Index.Put.
  by destruct (Index.entries idx !! key) as [e0|]; [destruct (Index.IsDeleted e0)|].
Qed.

Lemma tombstoned_Put idx key offset size timestamp k :
  tombstoned (Index.Put idx key offset size timestamp) k
  = if decide (k = key) then false else tombstoned idx k.
Proof.
  unfold tombstoned. rewrite entries_Put.
  destruct (decide (k = key)) as [->|Hne].
  - by rewrite lookup_insert_eq.
  - by rewrite lookup_insert_ne.
Qed.

Lemma tombstoned_Delete idx key timestamp k :
  tombstoned (Index.Delete idx key timestamp).1 k
  = if decide (k = key) then true else tombstoned idx k.
Proof.
  unfold tombstoned, Index.Delete.
  destruct (Index.entries idx !! key) as [e0|] eqn:He; [destruct (Index.IsDeleted e0) eqn:Hd|];
    cbn [negb fst Index.entries];
    (destruct (decide (k = key)) as [->|Hne];
     [rewrite ?lookup_insert_eq, ?He; done|by rewrite ?lookup_insert_ne]).
Qed.

Lemma size_entries_Put idx key offset size' timestamp :
  (size (Index.entries (Index.Put idx key offset size' timestamp))
   ≤ S (size (Index.entries idx)))%nat.
Proof.
  rewrite entries_Put, map_size_insert.
  destruct (Index.entries idx !! key); simpl; lia.
Qed.

Lemma size_entries_Delete idx key timestamp :
  (size (Index.entries (Index.Delete idx key timestamp).1)
   ≤ S (size (Index.entries idx)))%nat.
Proof.
  unfold Index.Delete.
  destruct (Index.entries idx !! key) as [e0|] eqn:He; [destruct (Index.IsDeleted e0)|];
    cbn [negb fst Index.entries]; rewrite ?map_size_insert, ?He; simpl; lia.
Qed.

(** What [Put] and [Delete] of the store do to the index of an open store. *)
Lemma Put_open bc key value timestamp :
  closed bc = false →
  (Put bc key value timestamp).2 = None
  ∧ closed (Put bc key value timestamp).1 = false
  ∧ index (Put bc key value timestamp).1
    = Index.Put (index bc) key (position bc) (int32 (len value)) timestamp
  ∧ totalWrites (Put bc key value timestamp).1 = uint64 (totalWrites bc + 1).
Proof.
  intros Hopen. unfold Put. rewrite Hopen.
  destruct (writeEntry (add_write bc) key value timestamp false) as [bc1 offset] eqn:Hw.
  pose proof Hw as Hw'. apply writeEntry_spec in Hw' as (-> & _ & _ & Hidx & Hclosed).
  cbn [fst snd set_index closed index totalWrites]. rewrite Hclosed, Hidx.
  split_and!; [done..|].
  unfold writeEntry in Hw. cbn [set_position set_files syncWrite] in Hw.
  by destruct (syncWrite (add_write bc)); simplify_eq.
Qed.

Lemma Delete_open bc key timestamp :
  closed bc = false →
  (Delete bc key timestamp).2 = None
  ∧ closed (Delete bc key timestamp).1 = false
  ∧ index (Delete bc key timestamp).1
    = (Index.Delete (index bc) key timestamp).1
  ∧ totalWrites (Delete bc key timestamp).1 = uint64 (totalWrites bc + 1).
Proof.
  intros Hopen. unfold Delete. rewrite Hopen.
  destruct (writeEntry (add_write bc) key [] timestamp true) as [bc1 offset] eqn:Hw.
  pose proof Hw as Hw'. apply writeEntry_spec in Hw' as (-> & _ & _ & Hidx & Hclosed).
  cbn [fst snd set_index closed index totalWrites]. rewrite Hclosed, Hidx.
  split_and!; [done..|].
  unfold writeEntry in Hw. cbn [set_position set_files syncWrite] in Hw.
  by destruct (syncWrite (add_write bc)); simplify_eq.
Qed.

(** Every entry is live or a tombstone. *)
Lemma Size_split idx : Index.Size_ idx = live_count idx + tombstone_count idx.
Proof.
  unfold Index.Size_, live_count, tombstone_count.
  set (m := Index.entries idx).
  rewrite <- Nat2Z.inj_add. f_equal.
  rewrite <- (map_size_disj_union (filter _ m) (filter _ m)).
  - f_equal. apply map_eq. intros k. apply option_eq. intros e.
    rewrite lookup_union_Some_raw, !map_lookup_filter_Some, map_lookup_filter_None.
    cbn [snd]. destruct (Index.IsDeleted e) eqn:Hd; split.
    + intros Hk. right. split; [|done]. right. intros e' He'.
      assert (e' = e) as -> by congruence. cbn [snd]. by rewrite Hd.
    + intros [[? ?]|[_ [? ?]]]; done.
    + intros Hk. by left.
    + intros [[? ?]|[_ [? ?]]]; done.
  - apply map_disjoint_spec. intros k e1 e2 H1 H2.
    apply map_lookup_filter_Some in H1 as [H1 Hl], H2 as [H2 Ht].
    cbn [snd] in *. congruence.
Qed.

Lemma revived_bounds ops : ∀ dead, 0 ≤ revived dead ops ≤ len ops.
Proof.
  unfold len. induction ops as [|[key value ts|key ts] ops IH]; intros dead; cbn [revived length].
  - lia.
  - specialize (IH (dead ∖ {[key]})). destruct (decide (key ∈ dead)); lia.
  - specialize (IH ({[key]} ∪ dead)). lia.
Qed.

(** The counters along a run of puts and deletes. *)
Lemma counters_after ops :
  ∀ bc short dead writes,
    closed bc = false →
    counters_short short (index bc) →
    (∀ k, k ∈ dead ↔ tombstoned (index bc) k = true) →
    totalWrites bc = uint64 writes →
    run ops bc = Ok (after ops bc)
    ∧ closed (after ops bc) = false
    ∧ counters_short (short + revived dead ops) (index (after ops bc))
    ∧ totalWrites (after ops bc) = uint64 (writes + len ops)
    ∧ (size (Index.entries (index (after ops bc)))
       ≤ size (Index.entries (index bc)) + length ops)%nat.
Proof.
  unfold after, len.
  induction ops as [|op ops IH]; intros bc short dead writes Hopen Hcount Hdead Hw.
  - cbn [run foldl revived length]. rewrite !Z.add_0_r.
    split_and!; [done..|lia].
  - assert (Hstep : (apply_op bc op).2 = None
             ∧ closed (apply_op bc op).1 = false
             ∧ counters_short
                 (short + match op with
                          | OpPut key _ _ => if decide (key ∈ dead) then 1 else 0
                          | OpDelete _ _ => 0
                          end)
                 (index (apply_op bc op).1)
             ∧ (∀ k, k ∈ match op with
                         | OpPut key _ _ => dead ∖ {[key]}
                         | OpDelete key _ => {[key]} ∪ dead
                         end
                     ↔ tombstoned (index (apply_op bc op).1) k = true)
             ∧ totalWrites (apply_op bc op).1 = uint64 (writes + 1)
             ∧ (size (Index.entries (index (apply_op bc op).1))
                ≤ S (size (Index.entries (index bc))))%nat).
    { destruct op as [key value ts|key ts]; cbn [apply_op].
      - destruct (Put_open bc key value ts Hopen) as (Hnone & Hopen' & Hidx & Htw).
        rewrite Hidx, Htw, Hw, uint64_add. split_and!; [done..| | |done|].
        + replace (if decide (key ∈ dead) then 1 else 0)
            with (if tombstoned (index bc) key then 1 else 0).
          { by apply Index_Put_counters. }
          destruct (decide (key ∈ dead)) as [Hin|Hnin].
          * apply Hdead in Hin. by rewrite Hin.
          * destruct (tombstoned (index bc) key) eqn:Ht; [|done].
            exfalso. apply Hnin. by apply Hdead.
        + intros k. rewrite tombstoned_Put, elem_of_difference, elem_of_singleton, Hdead.
          destruct (decide (k = key)); [|tauto]. split; [tauto|done].
        + apply size_entries_Put.
      - destruct (Delete_open bc key ts Hopen) as (Hnone & Hopen' & Hidx & Htw).
        rewrite Hidx, Htw, Hw, uint64_add. split_and!; [done..| | |done|].
        + rewrite Z.add_0_r. by apply Index_Delete_counters.
        + intros k. rewrite tombstoned_Delete, elem_of_union, elem_of_singleton, Hdead.
          destruct (decide (k = key)); [|tauto]. split; [done|tauto].
        + apply size_entries_Delete. }
    destruct Hstep as (Hnone & Hopen' & Hcount' & Hdead' & Htw & Hsize).
    destruct (IH _ _ _ _ Hopen' Hcount' Hdead' Htw) as (Hrun & Hopen'' & Hc & Htw' & Hsize').
    cbn [run foldl]. destruct (apply_op bc op) as [bc1 err] eqn:Hop.
    cbn [fst snd] in *. subst err.
    split_and!; [done|done| | |cbn [length]; lia].
    + destruct op as [key value ts|key ts]; cbn [revived];
        by rewrite ?Z.add_0_r, ?Z.add_assoc in *.
    + rewrite Htw'. f_equal. cbn [length]. lia.
Qed.

Lemma empty_store_counters sw :
  closed (empty_store sw) = false
  ∧ counters_short 0 (index (empty_store sw))
  ∧ (∀ k, k ∈ (∅ : gset string) ↔ tombstoned (index (empty_store sw)) k = true)
  ∧ totalWrites (empty_store sw) = uint64 0.
Proof.
  split_and!; [done| |intros k; by rewrite elem_of_empty|done].
  unfold counters_short, live_count, tombstone_count. cbn.
  by rewrite !map_filter_empty, map_size_empty.
Qed.

(** X8.  The counters behind [Stats], after any sequence of puts and
    deletes on a new store: every operation succeeds; the counter of deleted
    keys is the number of tombstones in the index; the counter of active
    keys is the number of live entries less the number of puts that found
    their key tombstoned, which [Index.Put] does not count; the index size
    is the number of live entries plus tombstones; and the write counter is
    the number of operations.  (The counters are 64-bit: all modulo
    2^64.) *)
Theorem Stats_after_writes (ops : list Op) (sw : bool) :
  run ops (empty_store sw) = Ok (after ops (empty_store sw))
  ∧ DeletedKeys (Stats_ (after ops (empty_store sw)))
    = int64 (tombstone_count (index (after ops (empty_store sw))))
  ∧ ActiveKeys (Stats_ (after ops (empty_store sw)))
    = int64 (live_count (index (after ops (empty_store sw))) - revived ∅ ops)
  ∧ IndexSize (Stats_ (after ops (empty_store sw)))
    = live_count (index (after ops (empty_store sw)))
      + tombstone_count (index (after ops (empty_store sw)))
  ∧ TotalWrites (Stats_ (after ops (empty_store sw))) = uint64 (len ops).
Proof.
  destruct (empty_store_counters sw) as (Hopen & Hcount & Hdead & Hw).
  destruct (counters_after ops _ _ _ _ Hopen Hcount Hdead Hw)
    as (Hrun & _ & [Hdel Hact] & Htw & _).
  rewrite Z.add_0_l in *.
  split_and!; [done|done|done| |done].
  apply Size_split.
Qed.

(** X9.  [Keys] allocates its result with the counter of active keys as
    capacity, and panics when the counter is negative.  After a sequence of
    fewer than 2^63 puts and deletes on a new store this happens exactly
    when more puts found their key tombstoned than live entries remain:
    otherwise [Keys] returns the live keys. *)
Theorem Keys_alloc_panics_iff (ops : list Op) (sw : bool) :
  len ops < 2 ^ 63 →
  (Keys_alloc (after ops (empty_store sw)) = Err (Panic "makeslice: cap out of range")
   ↔ live_count (index (after ops (empty_store sw))) < revived ∅ ops)
  ∧ (revived ∅ ops ≤ live_count (index (after ops (empty_store sw))) →
     Keys_alloc (after ops (empty_store sw)) = Ok (Keys (after ops (empty_store sw)))).
Proof.
  intros Hlen.
  destruct (empty_store_counters sw) as (Hopen & Hcount & Hdead & Hw).
  destruct (counters_after ops _ _ _ _ Hopen Hcount Hdead Hw)
    as (_ & Hopen' & [_ Hact] & _ & Hsize).
  rewrite Z.add_0_l in Hact. cbn [empty_store index Index.entries Index.NewIndex] in Hsize.
  rewrite map_size_empty in Hsize.
  pose proof (revived_bounds ops ∅) as Hrev.
  assert (Hlive : 0 ≤ live_count (index (after ops (empty_store sw))) ≤ len ops).
  { unfold live_count, len.
    pose proof (map_size_filter (λ kv : string * Index.IndexEntry,
                                   Index.IsDeleted kv.2 = false)
                  (Index.entries (index (after ops (empty_store sw))))).
    lia. }
  rewrite int64_small in Hact by lia.
  unfold Keys_alloc, Keys, Index.Keys_alloc. rewrite Hopen', Hact.
  destruct (Z.ltb_spec
              (live_count (index (after ops (empty_store sw))) - revived ∅ ops) 0).
  - split; [split; [lia|done]|lia].
  - split; [split; [done|lia]|done].
Qed.

Lemma Keys_alloc_panics_iff_witness :
  (Keys_alloc (after [OpDelete "k" 1; OpPut "k" (bytes_of_string "v") 2; OpDelete "k" 3]
                 (empty_store false))
   = Err (Panic "makeslice: cap out of range")
   ↔ live_count
       (index (after [OpDelete "k" 1; OpPut "k" (bytes_of_string "v") 2; OpDelete "k" 3]
                 (empty_store false)))
     < revived ∅ [OpDelete "k" 1; OpPut "k" (bytes_of_string "v") 2; OpDelete "k" 3])
  ∧ (revived ∅ [OpDelete "k" 1; OpPut "k" (bytes_of_string "v") 2; OpDelete "k" 3]
     ≤ live_count
         (index (after [OpDelete "k" 1; OpPut "k" (bytes_of_string "v") 2; OpDelete "k" 3]
                   (empty_store false))) →
     Keys_alloc (after [OpDelete "k" 1; OpPut "k" (bytes_of_string "v") 2; OpDelete "k" 3]
                   (empty_store false))
     = Ok (Keys (after [OpDelete "k" 1; OpPut "k" (bytes_of_string "v") 2; OpDelete "k" 3]
                   (empty_store false)))).
Proof.
  apply (Keys_alloc_panics_iff
           [OpDelete "k" 1; OpPut "k" (bytes_of_string "v") 2; OpDelete "k" 3] false).
  unfold len. simpl. lia.
Defined.

(** Deleting a key, writing it again and deleting it once more on a new
    store leaves the counter of active keys at -1: [Get] and [Has] still
    answer, [Keys] panics. *)
Example Keys_alloc_panics :
  let bc := after [OpDelete "k" 1; OpPut "k" (bytes_of_string "v") 2; OpDelete "k" 3]
              (empty_store false) in
  Count bc = -1
  ∧ (Get bc "k").2 = Err ErrKeyDeleted
  ∧ Has bc "k" = false
  ∧ Keys_alloc bc = Err (Panic "makeslice: cap out of range").
Proof. vm_compute. done. Qed.

End counter_facts.

(* ===================================================================== *)
(** * What a compaction reclaims *)
(* ===================================================================== *)

Section compaction_more.
Import Bitcask Spec.

(** One turn of the loop of [Compact] appends the record kept for the key
    and, when it does, enters the key in the new index. *)
Lemma compact_step_kept file idx m tmp newIndex pos key e :
  index_ok file idx m → Index.entries idx !! key = Some e →
  ∃ newIndex',
    compact_step file (Ok (tmp, newIndex, pos)) (key, e)
    = Ok (tmp ++ flat_map encode_record (kept m key), newIndex',
          pos + len (flat_map encode_record (kept m key)))
    ∧ (newIndex' = newIndex
       ∨ ∃ offset size timestamp,
           newIndex' = Index.Put newIndex key offset size timestamp).
Proof.
  intros Hok He. pose proof (Hok key) as Hkey. unfold compact_step, kept.
  destruct (Index.IsDeleted e) eqn:Hdel.
  - exists newIndex. split; [|by left].
    destruct (m !! key) as [[[value ts]|]|].
    + destruct Hkey as (e' & He' & Hlive & _). congruence.
    + cbn. by rewrite app_nil_r, Z.add_0_r.
    + cbn. by rewrite app_nil_r, Z.add_0_r.
  - destruct (m !! key) as [[[value ts]|]|] eqn:Hm.
    2: { destruct Hkey as (e' & He' & Hdel'). congruence. }
    2: { congruence. }
    destruct Hkey as (e' & He' & _ & Hoff & Hwfr & rest & Hdrop).
    assert (e' = e) as -> by congruence.
    unfold seek. destruct (Z.ltb_spec (Index.Offset e) 0); [lia|].
    rewrite Hdrop, readEntry_encode by done. cbn [Value Timestamp].
    eexists. split; [|right; by eexists _, _, _].
    cbn [flat_map]. rewrite app_nil_r. done.
Qed.

Lemma compact_fold_kept file idx m order :
  index_ok file idx m →
  (∀ key e, (key, e) ∈ order → Index.entries idx !! key = Some e) →
  ∀ tmp newIndex pos,
    Index.deleted newIndex = 0 →
    (∀ k e, Index.entries newIndex !! k = Some e → Index.IsDeleted e = false) →
    Index.active newIndex = int64 (Index.Size_ newIndex) →
    ∃ newIndex',
      foldl (compact_step file) (Ok (tmp, newIndex, pos)) order
      = Ok (tmp ++ flat_map encode_record (order.*1 ≫= kept m), newIndex',
            pos + len (flat_map encode_record (order.*1 ≫= kept m)))
      ∧ Index.deleted newIndex' = 0
      ∧ (∀ k e, Index.entries newIndex' !! k = Some e → Index.IsDeleted e = false)
      ∧ Index.active newIndex' = int64 (Index.Size_ newIndex').
Proof.
  intros Hok. induction order as [|[key e] order IH];
    intros Hin tmp newIndex pos Hdel Hlive Hact.
  - exists newIndex. cbn. by rewrite app_nil_r, Z.add_0_r.
  - destruct (compact_step_kept file idx m tmp newIndex pos key e Hok)
      as (idx1 & Hstep & Hidx1); [apply Hin, list_elem_of_here|].
    assert (Hinv : Index.deleted idx1 = 0
                   ∧ (∀ k e, Index.entries idx1 !! k = Some e → Index.IsDeleted e = false)
                   ∧ Index.active idx1 = int64 (Index.Size_ idx1)).
    { destruct Hidx1 as [->|(offset & size & ts & ->)]; [done|].
      split_and!.
      - unfold Index.Put.
        destruct (Index.entries newIndex !! key) as [e0|] eqn:He0; [|done].
        by rewrite (Hlive _ _ He0).
      - intros k e'. rewrite entries_Put. intros Hk.
        apply lookup_insert_Some in Hk as [[_ <-]|[_ Hk]]; [done|by eapply Hlive].
      - unfold Index.Size_. rewrite entries_Put, map_size_insert. unfold Index.Put.
        destruct (Index.entries newIndex !! key) as [e0|] eqn:He0.
        + rewrite (Hlive _ _ He0). cbn. apply Hact.
        + cbn. rewrite Hact, int64_add. unfold Index.Size_. f_equal. lia. }
    destruct Hinv as (Hdel1 & Hlive1 & Hact1).
    destruct (IH (λ k e' Hk, Hin k e' (list_elem_of_further _ _ _ Hk))
                (tmp ++ flat_map encode_record (kept m key)) idx1
                (pos + len (flat_map encode_record (kept m key))) Hdel1 Hlive1 Hact1)
      as (idx2 & Hfold & Hinv2).
    exists idx2. split; [|done].
    cbn [foldl]. rewrite Hstep, Hfold. cbn [fmap list_fmap fst].
    rewrite bind_cons, flat_map_app. unfold len. rewrite length_app.
    do 2 f_equal; [by rewrite app_assoc|lia].
Qed.

(** A live record of the content is one of the records of the log. *)
Lemma replay_live_in recs key value timestamp :
  replay recs !! key = Some (Some (value, timestamp)) →
  {| rec_key := key; rec_value := value; rec_timestamp := timestamp;
     rec_deleted := false |} ∈ recs.
Proof.
  induction recs as [|r recs IH] using rev_ind.
  - unfold replay. cbn. by rewrite lookup_empty.
  - rewrite replay_snoc. destruct (decide (rec_key r = key)) as [<-|Hne].
    + rewrite lookup_insert_eq. intros [= Hr]. apply elem_of_app. right.
      apply list_elem_of_singleton. destruct r as [k v t d]. cbn in *.
      destruct d; [done|]. by injection Hr as <- <-.
    + rewrite lookup_insert_ne by done. intros Hk. apply elem_of_app. left. by apply IH.
Qed.

Lemma length_flat_map_submseteq (l1 l2 : list LogRecord) :
  l1 ⊆+ l2 →
  (length (flat_map encode_record l1) ≤ length (flat_map encode_record l2))%nat.
Proof.
  induction 1; cbn [flat_map]; rewrite ?length_app; lia.
Qed.

Lemma live_only_idemp (m : gmap string (option (list byte * Z))) :
  live_only (live_only m) = live_only m.
Proof.
  apply map_eq. intros k. rewrite !lookup_live_only.
  by destruct (m !! k) as [[?|]|].
Qed.

Lemma live_count_content idx file m :
  index_ok file idx m → live_count idx = Z.of_nat (size (live_only m)).
Proof.
  intros Hok. unfold live_count. f_equal.
  rewrite <- !(size_dom (D := gset string)). f_equal. apply set_eq. intros k.
  rewrite !elem_of_dom. specialize (Hok k). rewrite lookup_live_only.
  unfold is_Some. setoid_rewrite map_lookup_filter_Some. cbn [snd].
  destruct (m !! k) as [[[value ts]|]|].
  - destruct Hok as (e & He & Hlive & _). split; [by eexists|]. intros _. by exists e.
  - destruct Hok as (e & He & Hdel). split; [|by intros [? ?]].
    intros (e' & He' & Hlive). congruence.
  - split; [|by intros [? ?]]. intros (e' & He' & _). congruence.
Qed.

(** X10.  What a compaction reclaims.  For every reachable store and every
    order of the map range, after [Compact] the counter of deleted keys is
    0 and the index holds no tombstone, the counter of active keys is the
    number of live entries the index had (modulo 2^64), whatever it showed
    before, and so is the index size; the data file is not longer than the
    log was, the write position is its length and nothing is left in the
    buffer. *)
Theorem Compact_reclaims (bc : Bitcask.t) (order : list (string * Index.IndexEntry)) :
  store_reachable bc →
  order ≡ₚ map_to_list (Index.All (index bc)) →
  DeletedKeys (Stats_ (CompactIn order bc).1) = 0
  ∧ tombstone_count (index (CompactIn order bc).1) = 0
  ∧ ActiveKeys (Stats_ (CompactIn order bc).1) = int64 (live_count (index bc))
  ∧ IndexSize (Stats_ (CompactIn order bc).1) = live_count (index bc)
  ∧ DataFileSize (Stats_ (CompactIn order bc).1) ≤ len (log bc)
  ∧ position (CompactIn order bc).1 = DataFileSize (Stats_ (CompactIn order bc).1)
  ∧ writer (CompactIn order bc).1 = [].
Proof.
  intros Hreach Hperm. destruct (store_reachable_ok bc Hreach) as [recs Hok].
  destruct (Compact_ok bc recs order Hok Hperm) as (recs' & _ & Hok' & Hreplay).
  pose proof (live_count_content _ _ _ (ok_index _ _ Hok)) as Hlive.
  pose proof (live_count_content _ _ _ (ok_index _ _ Hok')) as Hlive'.
  rewrite Hreplay, live_only_idemp, <- Hlive in Hlive'.
  revert Hlive'. clear Hok' Hreplay recs'.
  pose proof Hok as [Hopen Hpos Hlog Hwfs Hidx].
  unfold CompactIn. rewrite Hopen. change (dataFile (Flush bc)) with (log bc).
  destruct (compact_fold_kept (log bc) (index bc) (replay recs) order Hidx) with
    (tmp := @nil byte) (newIndex := Index.NewIndex) (pos := 0)
    as (idx' & -> & Hdel & Hall & Hact); [|done|done|done|].
  { intros key e Hin. rewrite Hperm in Hin. by apply elem_of_map_to_list in Hin. }
  cbn [fst Stats_ DeletedKeys ActiveKeys IndexSize DataFileSize set_position set_index
       set_files index position writer dataFile]. rewrite app_nil_l, Z.add_0_l.
  intros Hlive'.
  assert (Htomb : tombstone_count idx' = 0).
  { unfold tombstone_count.
    rewrite map_empty_filter_2; [by rewrite map_size_empty|].
    intros k e He. cbn [snd]. by rewrite (Hall _ _ He). }
  assert (Hsize : Index.Size_ idx' = live_count (index bc)).
  { rewrite Size_split, Htomb, Hlive'. lia. }
  unfold Index.DeletedCount, Index.Count. rewrite Hdel, Hact, Hsize.
  split_and!; [done..| |done|done].
  rewrite Hlog. unfold len. apply inj_le, length_flat_map_submseteq.
  apply NoDup_submseteq.
  - apply NoDup_bind.
    + intros k1 k2 r _ _ H1 H2. unfold kept in *.
      destruct (replay recs !! k1) as [[[v1 t1]|]|]; try by apply not_elem_of_nil in H1.
      destruct (replay recs !! k2) as [[[v2 t2]|]|]; try by apply not_elem_of_nil in H2.
      apply list_elem_of_singleton in H1, H2. subst r. by injection H2.
    + intros k _. unfold kept.
      destruct (replay recs !! k) as [[[v t]|]|]; [apply NoDup_singleton|constructor..].
    + rewrite Hperm. apply NoDup_fst_map_to_list.
  - intros r Hr. apply list_elem_of_bind in Hr as (k & Hr & _). unfold kept in Hr.
    destruct (replay recs !! k) as [[[v t]|]|] eqn:Hk; try by apply not_elem_of_nil in Hr.
    apply list_elem_of_singleton in Hr as ->. by apply replay_live_in.
Qed.

Lemma Compact_reclaims_witness :
  DeletedKeys (Stats_ (Compact Demo.store).1) = 0
  ∧ tombstone_count (index (Compact Demo.store).1) = 0
  ∧ ActiveKeys (Stats_ (Compact Demo.store).1) = int64 (live_count (index Demo.store))
  ∧ IndexSize (Stats_ (Compact Demo.store).1) = live_count (index Demo.store)
  ∧ DataFileSize (Stats_ (Compact Demo.store).1) ≤ len (log Demo.store)
  ∧ position (Compact Demo.store).1 = DataFileSize (Stats_ (Compact Demo.store).1)
  ∧ writer (Compact Demo.store).1 = [].
Proof.
  apply (Compact_reclaims Demo.store (map_to_list (Index.All (index Demo.store)))).
  - unfold Demo.store.
    apply store_get, store_put; [apply store_delete; [apply store_put;
      [apply store_put; [apply store_new|]|]|]|].
    all: split; unfold len; simpl; lia.
  - reflexivity.
Defined.

End compaction_more.

(* ===================================================================== *)
(** * The placement ring beyond the claims *)
(* ===================================================================== *)

Section ring_more.
Import HashRing Spec.

Lemma start_index_lt r key :
  vnodes r ≠ [] → (start_index r key < length (vnodes r))%nat.
Proof.
  intros Hne. unfold start_index.
  assert (0 < length (vnodes r))%nat by (destruct (vnodes r); simpl; [done|lia]).
  destruct (Nat.leb_spec (length (vnodes r))
              (Search (length (vnodes r))
                 (λ i, hash key <=? Hash (vnodes r !!! i)))); lia.
Qed.

(** [GetNodes] on a ring with tokens. *)
Lemma GetNodes_walk r key n :
  vnodes r ≠ [] → 0 ≤ n →
  GetNodes r key n
  = Ok (take (Z.to_nat n)
          (first_occurrences (walk (vnodes r) (start_index r key)) ∅)).
Proof.
  intros Hne Hn. unfold GetNodes.
  rewrite decide_False by (by destruct (vnodes r)).
  destruct (Z.ltb_spec n 0); [lia|].
  rewrite collect_spec by (pose proof (start_index_lt r key Hne); lia).
  simpl. by rewrite drop_0, Nat.sub_0_r.
Qed.

Lemma walk_head vns start :
  (start < length vns)%nat →
  ∃ rest, walk vns start = NodeID (vns !!! start) :: rest.
Proof.
  intros Hs. pose proof (lookup_walk vns start 0 Hs ltac:(lia)) as Hw.
  rewrite Nat.add_0_r, Nat.mod_small in Hw by done.
  destruct (walk vns start) as [|x rest]; [done|].
  injection Hw as ->. by eexists.
Qed.

Lemma sorted_lookup_le (vns : list VNode) i j :
  StronglySorted (λ a b, Hash a ≤ Hash b) vns →
  (i ≤ j)%nat → (j < length vns)%nat →
  Hash (vns !!! i) ≤ Hash (vns !!! j).
Proof.
  intros Hsorted Hij Hj.
  destruct (decide (i = j)) as [->|Hne]; [lia|].
  destruct (lookup_lt_is_Some_2 vns i) as [va Hva]; [lia|].
  destruct (lookup_lt_is_Some_2 vns j) as [vb Hvb]; [lia|].
  rewrite (list_lookup_total_correct _ _ _ Hva), (list_lookup_total_correct _ _ _ Hvb).
  rewrite <- (take_drop (S i) vns) in Hsorted, Hva, Hvb.
  rewrite lookup_app_l in Hva by (rewrite length_take; lia).
  rewrite lookup_app_r in Hvb by (rewrite length_take; lia).
  eapply (StronglySorted_app_1_elem_of _ _ _ _ _ Hsorted).
  - eapply list_elem_of_lookup_2, Hva.
  - eapply list_elem_of_lookup_2, Hvb.
Qed.

Lemma first_token_from_unique vns h a b :
  first_token_from vns h a → first_token_from vns h b → a = b.
Proof.
  intros [Ha [[Ha1 Ha2]|[-> Ha2]]] [Hb [[Hb1 Hb2]|[-> Hb2]]].
  - destruct (Nat.lt_trichotomy a b) as [Hlt|[->|Hlt]]; [|done|].
    + specialize (Hb2 a Hlt). lia.
    + specialize (Ha2 b Hlt). lia.
  - specialize (Hb2 a Ha). lia.
  - specialize (Ha2 b Hb). lia.
  - done.
Qed.

(** The token the binary search lands on owns the hash. *)
Lemma first_token_successor vns h start :
  StronglySorted (λ a b, Hash a ≤ Hash b) vns →
  first_token_from vns h start → successor vns h (vns !!! start).
Proof.
  intros Hsorted [Hlt Hcase]. split.
  { apply list_elem_of_lookup_total_2. done. }
  destruct Hcase as [[Hge Hbelow]|[-> Hall]].
  - left. split; [done|]. intros u Hu Hhu.
    apply list_elem_of_lookup_total in Hu as (j & Hj & <-).
    destruct (Nat.le_gt_cases start j) as [Hle|Hgt].
    + by apply sorted_lookup_le.
    + specialize (Hbelow j Hgt). lia.
  - right. split.
    + intros u Hu. apply list_elem_of_lookup_total in Hu as (j & Hj & <-). by apply Hall.
    + intros u Hu. apply list_elem_of_lookup_total in Hu as (j & Hj & <-).
      apply sorted_lookup_le; [done|lia|done].
Qed.

Lemma successor_hash vns h t u :
  successor vns h t → successor vns h u → Hash t = Hash u.
Proof.
  intros [Ht [[Ht1 Ht2]|[Ht1 Ht2]]] [Hu [[Hu1 Hu2]|[Hu1 Hu2]]].
  - specialize (Ht2 u Hu Hu1). specialize (Hu2 t Ht Ht1). lia.
  - specialize (Hu1 t Ht). lia.
  - specialize (Ht1 u Hu). lia.
  - specialize (Ht2 u Hu). specialize (Hu2 t Ht). lia.
Qed.

Lemma successor_sub vns vns' h t :
  (∀ u, u ∈ vns → u ∈ vns') → t ∈ vns → successor vns' h t → successor vns h t.
Proof.
  intros Hsub Ht [_ [[H1 H2]|[H1 H2]]]; (split; [done|]).
  - left. split; [done|]. intros u Hu. apply H2. by apply Hsub.
  - right. split; intros u Hu; [apply H1|apply H2]; by apply Hsub.
Qed.

Lemma NoDup_fmap_eq {A B} (f : A → B) (l : list A) x y :
  NoDup (f <$> l) → x ∈ l → y ∈ l → f x = f y → x = y.
Proof.
  induction l as [|a l IH]; intros Hnd Hx Hy Hxy; [by apply elem_of_nil in Hx|].
  rewrite fmap_cons in Hnd. apply NoDup_cons in Hnd as [Ha Hnd].
  apply elem_of_cons in Hx as [->|Hx], Hy as [->|Hy].
  - done.
  - exfalso. apply Ha. rewrite Hxy. apply list_elem_of_fmap. eauto.
  - exfalso. apply Ha. rewrite <- Hxy. apply list_elem_of_fmap. eauto.
  - by apply IH.
Qed.

Lemma length_filter_split {A} (P : A → Prop) `{!∀ x, Decision (P x)} (l : list A) :
  (length (filter P l) + length (filter (λ x, ¬ P x) l) = length l)%nat.
Proof.
  induction l as [|a l IH]; [done|].
  rewrite !filter_cons. destruct (decide (P a)).
  - rewrite decide_False by tauto. simpl. lia.
  - rewrite decide_True by tauto. simpl. lia.
Qed.

Lemma filter_all {A} (P : A → Prop) `{!∀ x, Decision (P x)} (l : list A) :
  Forall P l → filter P l = l.
Proof.
  induction 1 as [|a l Ha _ IH]; [done|]. by rewrite filter_cons_True, IH.
Qed.

Lemma filter_none {A} (P : A → Prop) `{!∀ x, Decision (P x)} (l : list A) :
  Forall (λ x, ¬ P x) l → filter P l = [].
Proof.
  induction 1 as [|a l Ha _ IH]; [done|]. by rewrite filter_cons_False.
Qed.

Lemma length_new_vnodes nodeID count :
  0 ≤ count → len (new_vnodes nodeID count) = count.
Proof.
  intros Hc. unfold len, new_vnodes. rewrite length_fmap, length_seqZ. lia.
Qed.

(** X11.  The node [GetNode] returns is the first of the preference list:
    on a ring with tokens and for [n >= 1], [GetNodes(key, n)] starts with
    the node of [GetNode(key)]; on a ring without tokens both fail with
    "no nodes in ring". *)
Theorem GetNode_heads_GetNodes `{Sorter} (r : HashRing.t) (key : string) (n : Z) :
  1 ≤ n →
  (IsEmpty r = true →
   GetNode r key = Err (Errorf "no nodes in ring")
   ∧ GetNodes r key n = Err (Errorf "no nodes in ring"))
  ∧ (IsEmpty r = false →
     ∃ nodeID rest,
       GetNode r key = Ok nodeID ∧ GetNodes r key n = Ok (nodeID :: rest)).
Proof.
  intros Hn. unfold IsEmpty. split; intros Hempty.
  - apply bool_decide_eq_true in Hempty. unfold GetNode, GetNodes.
    by rewrite !decide_True.
  - apply bool_decide_eq_false in Hempty.
    assert (Hne : vnodes r ≠ []) by (intros E; apply Hempty; by rewrite E).
    rewrite GetNodes_walk by (done || lia).
    destruct (walk_head (vnodes r) (start_index r key) (start_index_lt r key Hne))
      as [rest ->].
    cbn [first_occurrences]. rewrite decide_False by apply not_elem_of_empty.
    exists (NodeID (vnodes r !!! start_index r key)). eexists. split.
    + unfold GetNode. by rewrite decide_False.
    + replace (Z.to_nat n) with (S (Z.to_nat (n - 1))) by lia. done.
Qed.

Lemma GetNode_heads_GetNodes_witness :
  (IsEmpty Demo.ring = true →
   GetNode Demo.ring "user:42" = Err (Errorf "no nodes in ring")
   ∧ GetNodes Demo.ring "user:42" 3 = Err (Errorf "no nodes in ring"))
  ∧ (IsEmpty Demo.ring = false →
     ∃ nodeID rest,
       GetNode Demo.ring "user:42" = Ok nodeID
       ∧ GetNodes Demo.ring "user:42" 3 = Ok (nodeID :: rest)).
Proof. apply (GetNode_heads_GetNodes Demo.ring "user:42" 3). lia. Defined.

(** X12.  Preference lists are nested: on a ring with tokens, the list for
    [n] is a prefix of the list for any larger [m], so that raising the
    replication factor only appends nodes; the list for 0 is empty. *)
Theorem GetNodes_prefix `{Sorter} (r : HashRing.t) (key : string) (n m : Z) :
  IsEmpty r = false → 0 ≤ n ≤ m →
  ∃ nodes more,
    GetNodes r key n = Ok nodes
    ∧ GetNodes r key m = Ok (nodes ++ more)
    ∧ (n = 0 → nodes = []).
Proof.
  intros Hempty Hnm. unfold IsEmpty in Hempty. apply bool_decide_eq_false in Hempty.
  assert (Hne : vnodes r ≠ []) by (intros E; apply Hempty; by rewrite E).
  rewrite !GetNodes_walk by (done || lia).
  set (l := first_occurrences _ _).
  exists (take (Z.to_nat n) l), (drop (Z.to_nat n) (take (Z.to_nat m) l)).
  split_and!; [done| |by intros ->].
  f_equal. rewrite <- (take_drop (Z.to_nat n) (take (Z.to_nat m) l)) at 1.
  f_equal. rewrite take_take. f_equal. lia.
Qed.

Lemma GetNodes_prefix_witness :
  ∃ nodes more,
    GetNodes Demo.ring "user:42" 1 = Ok nodes
    ∧ GetNodes Demo.ring "user:42" 2 = Ok (nodes ++ more)
    ∧ (1 = 0 → nodes = []).
Proof.
  apply (GetNodes_prefix Demo.ring "user:42" 1 2).
  - vm_compute. reflexivity.
  - lia.
Defined.

Context `{SorterLaws}.

(** The tokens a ring holds, counted. *)
Lemma ring_reachable_tokens r :
  ring_reachable r →
  len (vnodes r) = virtualCount r * Size r
  ∧ ∀ id, is_Some (nodeVNodes r !! id) →
          len (filter (λ vn, NodeID vn = id) (vnodes r)) = virtualCount r.
Proof.
  unfold Size.
  induction 1 as [v|r nodeID Hreach IH|r nodeID Hreach IH].
  - cbn [NewHashRing vnodes nodeVNodes virtualCount]. rewrite map_size_empty.
    split; [unfold len; simpl; lia|].
    intros id. rewrite lookup_empty. by intros [].
  - destruct (ring_reachable_inv r Hreach) as [_ Hcount Hnodes].
    destruct IH as [Hlen Hper]. unfold AddNode.
    destruct (nodeVNodes r !! nodeID) eqn:Hlk; [done|].
    cbn [vnodes nodeVNodes virtualCount].
    assert (Hnone : filter (λ vn, NodeID vn = nodeID) (vnodes r) = []).
    { apply filter_none, Forall_forall. intros vn Hvn Heq.
      assert (Hm : is_Some (nodeVNodes r !! nodeID)).
      { apply Hnodes, list_elem_of_fmap. eauto. }
      rewrite Hlk in Hm. by destruct Hm. }
    split.
    + unfold len in *. rewrite sort_Slice_perm, length_app, map_size_insert_None by done.
      pose proof (length_new_vnodes nodeID (virtualCount r) ltac:(lia)) as Hnew.
      unfold len in Hnew. lia.
    + intros id Hid. unfold len. rewrite sort_Slice_perm, filter_app, length_app.
      pose proof (length_new_vnodes nodeID (virtualCount r) ltac:(lia)) as Hnew.
      destruct (decide (id = nodeID)) as [->|Hne].
      * rewrite Hnone. cbn [length].
        rewrite filter_all; [unfold len in Hnew; lia|].
        apply Forall_forall. intros vn Hvn.
        unfold new_vnodes in Hvn. apply list_elem_of_fmap in Hvn as (i & -> & _). done.
      * rewrite lookup_insert_ne in Hid by done. specialize (Hper id Hid).
        rewrite (filter_none _ (new_vnodes _ _)); [unfold len in Hper; cbn [length]; lia|].
        apply Forall_forall. intros vn Hvn.
        unfold new_vnodes in Hvn. apply list_elem_of_fmap in Hvn as (i & -> & _).
        cbn. congruence.
  - destruct IH as [Hlen Hper]. unfold RemoveNode.
    destruct (nodeVNodes r !! nodeID) eqn:Hlk; [|done].
    cbn [vnodes nodeVNodes virtualCount].
    specialize (Hper nodeID ltac:(by rewrite Hlk)) as Hthis.
    pose proof (length_filter_split (λ vn, NodeID vn = nodeID) (vnodes r)) as Hsplit.
    split.
    + rewrite map_size_delete_Some by (by rewrite Hlk).
      pose proof (map_size_ne_0_lookup_2 (nodeVNodes r) nodeID ltac:(by rewrite Hlk)).
      unfold len in *. nia.
    + intros id Hid. destruct (decide (id = nodeID)) as [->|Hne].
      { rewrite lookup_delete_eq in Hid. by destruct Hid. }
      rewrite lookup_delete_ne in Hid by done. rewrite <- (Hper id Hid).
      unfold len. do 2 f_equal. rewrite list_filter_filter. apply list_filter_iff.
      intros vn. split; [tauto|]. intros Hvn. split; [done|congruence].
Qed.

(** Every node of a preference list is a member of the ring. *)
Lemma GetNodes_elem r key n nodes x :
  ring_reachable r → GetNodes r key n = Ok nodes → x ∈ nodes →
  is_Some (nodeVNodes r !! x).
Proof.
  intros Hreach Hget Hx. destruct (ring_reachable_inv r Hreach) as [_ _ Hnodes].
  unfold GetNodes in Hget.
  destruct (decide (length (vnodes r) = 0%nat)) as [|Hlen]; [done|].
  destruct (Z.ltb_spec n 0); [done|].
  assert (Hne : vnodes r ≠ []) by (intros E; apply Hlen; by rewrite E).
  rewrite collect_spec in Hget by (pose proof (start_index_lt r key Hne); lia).
  injection Hget as <-. cbn [app] in Hx.
  apply elem_of_take in Hx as (i & Hx & _). apply list_elem_of_lookup_2 in Hx.
  rewrite drop_0 in Hx.
  apply first_occurrences_elem in Hx as [Hx _]. apply walk_elem in Hx.
  by apply Hnodes.
Qed.

Lemma GetNode_elem r key x :
  ring_reachable r → GetNode r key = Ok x → is_Some (nodeVNodes r !! x).
Proof.
  intros Hreach Hget. destruct (ring_reachable_inv r Hreach) as [_ _ Hnodes].
  unfold GetNode in Hget.
  destruct (decide (length (vnodes r) = 0%nat)) as [|Hlen]; [done|].
  injection Hget as <-. apply Hnodes, list_elem_of_fmap. eexists. split; [done|].
  apply list_elem_of_lookup_total_2, start_index_lt. intros E. apply Hlen. by rewrite E.
Qed.

Lemma HasNode_RemoveNode r id : HasNode (RemoveNode r id) id = false.
Proof.
  unfold HasNode, RemoveNode. apply bool_decide_eq_false.
  destruct (nodeVNodes r !! id) eqn:Hlk; cbn [nodeVNodes].
  - rewrite lookup_delete_eq. by intros [].
  - rewrite Hlk. by intros [].
Qed.

(** Filtering keeps the token the search lands on, when it passes the
    filter. *)
Lemma first_token_filter (P : VNode → Prop) `{!∀ x, Decision (P x)} vns h start :
  first_token_from vns h start → P (vns !!! start) →
  ∃ start',
    first_token_from (filter P vns) h start'
    ∧ filter P vns !!! start' = vns !!! start.
Proof.
  intros [Hlt Hcase] HP.
  destruct (lookup_lt_is_Some_2 vns start Hlt) as [t Ht].
  rewrite (list_lookup_total_correct _ _ _ Ht) in *.
  pose proof (take_drop_middle vns start t Ht) as Hsplit.
  assert (Hf : filter P vns
               = filter P (take start vns) ++ t :: filter P (drop (S start) vns)).
  { rewrite <- Hsplit at 1. by rewrite filter_app, filter_cons_True. }
  exists (length (filter P (take start vns))).
  assert (Hat : filter P vns !! length (filter P (take start vns)) = Some t).
  { rewrite Hf. by rewrite list_lookup_middle. }
  split; [|by apply list_lookup_total_correct].
  split; [by apply lookup_lt_Some in Hat|].
  rewrite (list_lookup_total_correct _ _ _ Hat).
  assert (Hbelow : ∀ u, u ∈ vns → (∀ k, (k < length vns)%nat → Hash (vns !!! k) < h) →
                        Hash u < h).
  { intros u Hu Hall. apply list_elem_of_lookup_total in Hu as (j & Hj & <-). by apply Hall. }
  destruct Hcase as [[Hge Hlow]|[-> Hall]].
  - left. split; [done|]. intros k Hk.
    assert (Hin : filter P vns !!! k ∈ filter P (take start vns)).
    { rewrite Hf, lookup_total_app_l by done. by apply list_elem_of_lookup_total_2. }
    apply list_elem_of_filter in Hin as [_ Hin].
    apply list_elem_of_lookup in Hin as [j Hj].
    pose proof (lookup_lt_Some _ _ _ Hj) as Hjlt. rewrite length_take in Hjlt.
    rewrite lookup_take_lt in Hj by lia.
    rewrite <- (list_lookup_total_correct _ _ _ Hj). apply Hlow. lia.
  - right. rewrite take_0. split; [done|]. intros k Hk.
    apply Hbelow; [|done].
    pose proof (list_elem_of_lookup_total_2 (filter P vns) k Hk) as Hin.
    by apply list_elem_of_filter in Hin as [_ Hin].
Qed.

End ring_more.

Section ring_more_theorems.
Import HashRing Spec.

(** X13.  Preference lists hold members only.  On every ring the program
    can build, each node [GetNodes] or [GetNode] returns is in the ring
    ([HasNode]); after [RemoveNode(id)] no preference list contains [id]
    and [GetNode] never returns it. *)
Theorem GetNodes_members (S : Sorter) (L : SorterLaws S)
    (r : HashRing.t) (key : string) (n : Z) :
  ring_reachable r →
  (∀ nodes, GetNodes r key n = Ok nodes → ∀ x, x ∈ nodes → HasNode r x = true)
  ∧ (∀ x, GetNode r key = Ok x → HasNode r x = true)
  ∧ (∀ id nodes, GetNodes (RemoveNode r id) key n = Ok nodes → id ∉ nodes)
  ∧ (∀ id, GetNode (RemoveNode r id) key ≠ Ok id).
Proof.
  intros Hreach. split_and!.
  - intros nodes Hget x Hx. apply bool_decide_eq_true. by eapply GetNodes_elem.
  - intros x Hget. apply bool_decide_eq_true. by eapply GetNode_elem.
  - intros id nodes Hget Hin.
    pose proof (GetNodes_elem _ _ _ _ _ (ring_remove r id Hreach) Hget Hin) as Hm.
    pose proof (HasNode_RemoveNode r id) as Hno.
    apply bool_decide_eq_false in Hno. done.
  - intros id Hget.
    pose proof (GetNode_elem _ _ _ (ring_remove r id Hreach) Hget) as Hm.
    pose proof (HasNode_RemoveNode r id) as Hno.
    apply bool_decide_eq_false in Hno. done.
Qed.

Lemma GetNodes_members_witness :
  (∀ nodes, GetNodes Demo.ring "user:42" 3 = Ok nodes →
            ∀ x, x ∈ nodes → HasNode Demo.ring x = true)
  ∧ (∀ x, GetNode Demo.ring "user:42" = Ok x → HasNode Demo.ring x = true)
  ∧ (∀ id nodes, GetNodes (RemoveNode Demo.ring id) "user:42" 3 = Ok nodes → id ∉ nodes)
  ∧ (∀ id, GetNode (RemoveNode Demo.ring id) "user:42" ≠ Ok id).
Proof.
  apply (GetNodes_members insertion_Sorter insertion_SorterLaws Demo.ring "user:42" 3).
  unfold Demo.ring. apply ring_add, ring_add, ring_new.
Defined.

(** X14.  The books of the ring.  On every ring the program can build the
    number of tokens is the number of virtual nodes per node times the
    number of nodes ([Size]), so that the ring is empty exactly when it has
    no node; adding a node that is not in the ring raises [Size] by one and
    adding a member changes nothing, removing a member lowers [Size] by one
    and removing a stranger changes nothing. *)
Theorem ring_token_count (S : Sorter) (L : SorterLaws S) (r : HashRing.t) :
  ring_reachable r →
  len (GetRingTokens r) = virtualCount r * Size r
  ∧ (IsEmpty r = true ↔ Size r = 0)
  ∧ (∀ id, HasNode (AddNode r id) id = true
           ∧ Size (AddNode r id) = Size r + (if HasNode r id then 0 else 1)
           ∧ (HasNode r id = true → AddNode r id = r))
  ∧ (∀ id, HasNode (RemoveNode r id) id = false
           ∧ Size (RemoveNode r id) = Size r - (if HasNode r id then 1 else 0)
           ∧ (HasNode r id = false → RemoveNode r id = r)).
Proof.
  intros Hreach. destruct (ring_reachable_tokens r Hreach) as [Hlen _].
  destruct (ring_reachable_inv r Hreach) as [_ Hcount _].
  unfold GetRingTokens. split_and!.
  - done.
  - unfold IsEmpty. rewrite bool_decide_eq_true. unfold len in Hlen.
    pose proof (Nat2Z.is_nonneg (size (nodeVNodes r))). unfold Size in *. nia.
  - intros id. unfold HasNode, AddNode, Size.
    destruct (nodeVNodes r !! id) eqn:Hlk; cbn [nodeVNodes].
    + rewrite Hlk. rewrite !bool_decide_eq_true_2 by done. split_and!; [done|lia|done].
    + rewrite lookup_insert_eq, map_size_insert_None by done.
      rewrite bool_decide_eq_true_2 by done.
      rewrite bool_decide_eq_false_2 by (by intros []).
      split_and!; [done|lia|done].
  - intros id. split; [apply HasNode_RemoveNode|]. unfold HasNode, RemoveNode, Size.
    destruct (nodeVNodes r !! id) eqn:Hlk; cbn [nodeVNodes].
    + rewrite map_size_delete_Some by (by rewrite Hlk).
      pose proof (map_size_ne_0_lookup_2 (nodeVNodes r) id ltac:(by rewrite Hlk)).
      rewrite bool_decide_eq_true_2 by done. split; [lia|done].
    + rewrite bool_decide_eq_false_2 by (by intros []). split; [lia|done].
Qed.

Lemma ring_token_count_witness :
  len (GetRingTokens Demo.ring) = virtualCount Demo.ring * Size Demo.ring
  ∧ (IsEmpty Demo.ring = true ↔ Size Demo.ring = 0)
  ∧ (∀ id, HasNode (AddNode Demo.ring id) id = true
           ∧ Size (AddNode Demo.ring id)
             = Size Demo.ring + (if HasNode Demo.ring id then 0 else 1)
           ∧ (HasNode Demo.ring id = true → AddNode Demo.ring id = Demo.ring))
  ∧ (∀ id, HasNode (RemoveNode Demo.ring id) id = false
           ∧ Size (RemoveNode Demo.ring id)
             = Size Demo.ring - (if HasNode Demo.ring id then 1 else 0)
           ∧ (HasNode Demo.ring id = false → RemoveNode Demo.ring id = Demo.ring)).
Proof.
  apply (ring_token_count insertion_Sorter insertion_SorterLaws Demo.ring).
  unfold Demo.ring. apply ring_add, ring_add, ring_new.
Defined.

(** X15.  Removing a node moves only its own keys: on every ring the
    program can build, a key whose node is [x] stays with [x] when any other
    node is removed. *)
Theorem RemoveNode_keeps_other_keys (S : Sorter) (L : SorterLaws S)
    (r : HashRing.t) (id key x : string) :
  ring_reachable r → GetNode r key = Ok x → x ≠ id →
  GetNode (RemoveNode r id) key = Ok x.
Proof.
  intros Hreach Hget Hne.
  destruct (ring_reachable_inv r Hreach) as [Hsorted _ _].
  destruct (ring_reachable_inv _ (ring_remove r id Hreach)) as [Hsorted' _ _].
  unfold GetNode in Hget.
  destruct (decide (length (vnodes r) = 0%nat)) as [|Hlen]; [done|].
  injection Hget as <-.
  assert (Hnil : vnodes r ≠ []) by (intros E; apply Hlen; by rewrite E).
  pose proof (start_index_spec r key Hsorted Hnil) as Hstart.
  unfold RemoveNode in *. destruct (nodeVNodes r !! id) eqn:Hlk.
  2: { unfold GetNode. by rewrite decide_False. }
  cbn [vnodes] in Hsorted'.
  destruct (first_token_filter (λ vn, NodeID vn ≠ id) (vnodes r) (hash key)
              (start_index r key) Hstart Hne) as (start' & Hstart' & Heq).
  set (r' := {| vnodes := filter (λ vn, NodeID vn ≠ id) (vnodes r);
                nodeVNodes := delete id (nodeVNodes r);
                virtualCount := virtualCount r |}) in *.
  assert (Hnil' : vnodes r' ≠ []).
  { intros E. destruct Hstart' as [Hlt _]. cbn [r' vnodes] in E. rewrite E in Hlt.
    simpl in Hlt. lia. }
  pose proof (start_index_spec r' key Hsorted' Hnil') as Hfound.
  unfold GetNode. rewrite decide_False by (by destruct (vnodes r')).
  rewrite (first_token_from_unique _ _ _ _ Hfound Hstart').
  cbn [r' vnodes]. by rewrite Heq.
Qed.

Lemma RemoveNode_keeps_other_keys_witness :
  GetNode (RemoveNode Demo.ring "n1") "k" = Ok "n2".
Proof.
  apply (RemoveNode_keeps_other_keys insertion_Sorter insertion_SorterLaws
           Demo.ring "n1" "k" "n2").
  - unfold Demo.ring. apply ring_add, ring_add, ring_new.
  - vm_compute. reflexivity.
  - discriminate.
Defined.

(** X16.  Adding a node takes keys only for itself: on every ring the
    program can build, when the tokens of the enlarged ring have pairwise
    distinct hashes, a key that is not given to the new node stays with the
    node it had.  (With two tokens of equal hash the order [sort.Slice]
    leaves them in decides, and it promises none.) *)
Theorem AddNode_takes_only_own_keys (S : Sorter) (L : SorterLaws S)
    (r : HashRing.t) (id key x : string) :
  ring_reachable r →
  NoDup (Hash <$> vnodes (AddNode r id)) →
  GetNode (AddNode r id) key = Ok x →
  x = id ∨ GetNode r key = Ok x.
Proof.
  intros Hreach Hnd Hget.
  destruct (decide (x = id)) as [|Hne]; [by left|right].
  destruct (ring_reachable_inv r Hreach) as [Hsorted _ _].
  destruct (ring_reachable_inv _ (ring_add r id Hreach)) as [Hsorted' _ _].
  unfold AddNode in *. destruct (nodeVNodes r !! id) eqn:Hlk; [done|].
  set (vns' := sort_Slice (λ a b, Hash a <? Hash b)
                 (vnodes r ++ new_vnodes id (virtualCount r))) in *.
  set (r' := {| vnodes := vns'; nodeVNodes := _; virtualCount := _ |}) in *.
  cbn [vnodes] in Hnd, Hsorted'.
  unfold GetNode in Hget.
  destruct (decide (length (vnodes r') = 0%nat)) as [|Hlen']; [done|].
  injection Hget as Hx.
  assert (Hnil' : vnodes r' ≠ []) by (intros E; apply Hlen'; by rewrite E).
  pose proof (first_token_successor _ _ _ Hsorted'
                (start_index_spec r' key Hsorted' Hnil')) as Hsucc'.
  set (t' := vnodes r' !!! start_index r' key) in *.
  assert (Hperm : vns' ≡ₚ vnodes r ++ new_vnodes id (virtualCount r))
    by apply sort_Slice_perm.
  assert (Hold : t' ∈ vnodes r).
  { destruct Hsucc' as [Hin _]. cbn [r' vnodes] in Hin. rewrite Hperm in Hin.
    apply elem_of_app in Hin as [Hin|Hin]; [done|].
    unfold new_vnodes in Hin. apply list_elem_of_fmap in Hin as (i & Ht & _).
    assert (Hx' : NodeID t' = x) by exact Hx.
    rewrite Ht in Hx'. cbn in Hx'. congruence. }
  assert (Hnil : vnodes r ≠ []) by (intros E; rewrite E in Hold; by apply elem_of_nil in Hold).
  pose proof (first_token_successor _ _ _ Hsorted
                (start_index_spec r key Hsorted Hnil)) as Hsucc.
  assert (Hsub : ∀ u, u ∈ vnodes r → u ∈ vnodes r').
  { intros u Hu. cbn [r' vnodes]. rewrite Hperm. apply elem_of_app. by left. }
  pose proof (successor_sub _ _ _ _ Hsub Hold Hsucc') as Hsucc''.
  pose proof (successor_hash _ _ _ _ Hsucc Hsucc'') as Hhash.
  assert (Heq : vnodes r !!! start_index r key = t').
  { apply (NoDup_fmap_eq Hash vns'); [done|apply Hsub, Hsucc|apply Hsucc'|done]. }
  unfold GetNode. rewrite decide_False by (by destruct (vnodes r)).
  rewrite Heq. f_equal. exact Hx.
Qed.

Lemma AddNode_takes_only_own_keys_witness :
  "n2" = "n3" ∨ GetNode Demo.ring "k" = Ok "n2".
Proof.
  apply (AddNode_takes_only_own_keys insertion_Sorter insertion_SorterLaws
           Demo.ring "n3" "k" "n2").
  - unfold Demo.ring. apply ring_add, ring_add, ring_new.
  - apply (bool_decide_unpack _). vm_compute. reflexivity.
  - vm_compute. reflexivity.
Defined.

End ring_more_theorems.

(* ===================================================================== *)
(** * The coordinator beyond the claims *)
(* ===================================================================== *)

Section coordinator_more.
Import Node Coordinator Spec.

Lemma Put_result bc key value timestamp :
  (Bitcask.Put bc key value timestamp).2
  = (if Bitcask.closed bc then Some ErrStorageClosed else None)
  ∧ Bitcask.closed (Bitcask.Put bc key value timestamp).1 = Bitcask.closed bc.
Proof.
  destruct (Bitcask.closed bc) eqn:Hclosed.
  - unfold Bitcask.Put. by rewrite Hclosed.
  - destruct (Put_open bc key value timestamp Hclosed) as (-> & -> & _). done.
Qed.

(** The preference list has no repetition, on any ring. *)
Lemma GetNodes_NoDup `{Sorter} r key n nodes :
  HashRing.GetNodes r key n = Ok nodes → NoDup nodes.
Proof.
  unfold HashRing.GetNodes.
  destruct (decide (length (HashRing.vnodes r) = 0%nat)) as [|Hlen]; [done|].
  destruct (Z.ltb_spec n 0); [done|].
  assert (Hne : HashRing.vnodes r ≠ []) by (intros E; apply Hlen; by rewrite E).
  rewrite collect_spec by (pose proof (start_index_lt r key Hne); lia).
  intros [= <-]. cbn [app].
  eapply sublist_NoDup; [apply first_occurrences_NoDup|apply sublist_take].
Qed.

(** Two sets of replicas that together outnumber the list share one. *)
Lemma filter_pigeonhole {A} (P Q : A → Prop) `{!∀ x, Decision (P x), !∀ x, Decision (Q x)}
    (l : list A) :
  (length l < length (filter P l) + length (filter Q l))%nat →
  ∃ x, x ∈ l ∧ P x ∧ Q x.
Proof.
  induction l as [|a l IH]; [simpl; lia|].
  rewrite !filter_cons. intros Hlen.
  destruct (decide (P a)) as [HP|HP], (decide (Q a)) as [HQ|HQ].
  - exists a. split; [apply list_elem_of_here|done].
  - destruct IH as (x & Hx & ?); [simpl in Hlen; lia|].
    exists x. split; [by apply list_elem_of_further|done].
  - destruct IH as (x & Hx & ?); [simpl in Hlen; lia|].
    exists x. split; [by apply list_elem_of_further|done].
  - destruct IH as (x & Hx & ?); [simpl in Hlen; lia|].
    exists x. split; [by apply list_elem_of_further|done].
Qed.

Lemma length_omap_filter {A B} (f : A → option B) (l : list A) :
  length (omap id (f <$> l)) = length (filter (λ x, is_Some (f x)) l).
Proof.
  induction l as [|a l IH]; [done|].
  rewrite fmap_cons, filter_cons. cbn [omap list_omap id].
  destruct (f a) as [b|] eqn:Hf.
  - rewrite decide_True by done. simpl. by rewrite IH.
  - rewrite decide_False by (by intros []). done.
Qed.

Context (cfg : Config) (net : Transport).

Lemma count_insert (results : gmap string bool) n (success : bool) :
  results !! n = None →
  successes (<[n := success]> results) = successes results + (if success then 1 else 0).
Proof.
  intros Hn. unfold successes.
  rewrite map_fold_insert_L; [destruct success; lia| |done].
  intros j1 j2 [] [] y _ _ _; lia.
Qed.

Lemma acks_ext st st' entry n :
  nodes st' = nodes st →
  Bitcask.closed (storage st') = Bitcask.closed (storage st) →
  acks cfg net st' entry n = acks cfg net st entry n.
Proof.
  intros Hnodes Hclosed. unfold acks, sendReplication. rewrite Hnodes.
  destruct (decide (n = NodeID cfg)); [|by destruct (nodes st !! n)].
  destruct (Put_result (storage st) (types.Key entry) (types.Value entry)
              (types.Timestamp entry)) as [-> _].
  destruct (Put_result (storage st') (types.Key entry) (types.Value entry)
              (types.Timestamp entry)) as [-> _].
  by rewrite Hclosed.
Qed.

Lemma replicate_one_spec entry st results n :
  ∃ st',
    replicate_one cfg net entry (st, results) n
    = (st', <[n := acks cfg net st entry n]> results)
    ∧ nodes st' = nodes st ∧ ring st' = ring st ∧ spawned st' = spawned st
    ∧ storage st'
      = (if decide (n = NodeID cfg)
         then (Bitcask.Put (storage st) (types.Key entry) (types.Value entry)
                 (types.Timestamp entry)).1
         else storage st)
    ∧ sent st'
      = sent st ++
        (if decide (n ≠ NodeID cfg ∧ is_Some (nodes st !! n))
         then [PostReplicate n (request cfg entry)] else []).
Proof.
  unfold replicate_one, acks. destruct (decide (n = NodeID cfg)) as [->|Hne].
  - destruct (Bitcask.Put _ _ _ _) as [s err]. eexists. split; [done|].
    cbn. rewrite decide_False by tauto. by rewrite app_nil_r.
  - unfold sendReplication. destruct (nodes st !! n) eqn:Hn.
    + eexists. split; [done|]. cbn. rewrite decide_True by eauto. done.
    + eexists. split; [done|]. cbn.
      rewrite decide_False by (intros [_ []]; done). by rewrite app_nil_r.
Qed.

Lemma replicateToNodes_fold entry nodes :
  ∀ st results,
    NoDup nodes → (∀ n, n ∈ nodes → results !! n = None) →
    ∃ st' results',
      foldl (replicate_one cfg net entry) (st, results) nodes = (st', results')
      ∧ successes results'
        = successes results + len (filter (λ n, acks cfg net st entry n = true) nodes)
      ∧ Node.nodes st' = Node.nodes st ∧ ring st' = ring st
      ∧ spawned st' = spawned st
      ∧ Bitcask.closed (storage st') = Bitcask.closed (storage st)
      ∧ storage st'
        = (if bool_decide (NodeID cfg ∈ nodes)
           then (Bitcask.Put (storage st) (types.Key entry) (types.Value entry)
                   (types.Timestamp entry)).1
           else storage st)
      ∧ sent st'
        = sent st ++ ((λ id, PostReplicate id (request cfg entry))
                      <$> reached cfg st nodes).
Proof.
  induction nodes as [|n nodes IH]; intros st results Hnd Hfresh.
  - exists st, results. cbn. rewrite app_nil_r. split_and!; [done|unfold len; simpl; lia|done..].
  - apply NoDup_cons in Hnd as [Hn Hnd].
    destruct (replicate_one_spec entry st results n)
      as (st1 & Hstep & Hnodes1 & Hring1 & Hsp1 & Hst1 & Hsent1).
    assert (Hclosed1 : Bitcask.closed (storage st1) = Bitcask.closed (storage st)).
    { rewrite Hst1. destruct (decide (n = NodeID cfg)); [|done].
      by destruct (Put_result (storage st) (types.Key entry) (types.Value entry)
                     (types.Timestamp entry)) as [_ ->]. }
    destruct (IH st1 (<[n := acks cfg net st entry n]> results) Hnd)
      as (st' & results' & Hfold & Hcount & Hnodes & Hring & Hsp & Hclosed & Hst & Hsent).
    { intros k Hk. assert (n ≠ k) by (intros ->; by apply Hn).
      rewrite lookup_insert_ne by done.
      apply Hfresh. by apply list_elem_of_further. }
    exists st', results'. cbn [foldl]. rewrite Hstep. split; [done|].
    split_and!; [|congruence..| |].
    + rewrite Hcount, count_insert by (apply Hfresh, list_elem_of_here).
      rewrite (list_filter_iff _ (λ n0, acks cfg net st entry n0 = true))
        by (intros k; by rewrite (acks_ext st st1)).
      rewrite filter_cons. unfold len.
      destruct (acks cfg net st entry n); [rewrite decide_True by done|
                                            rewrite decide_False by done];
        cbn [length]; lia.
    + rewrite Hst, Hst1. destruct (decide (n = NodeID cfg)) as [->|Hne].
      * rewrite bool_decide_eq_false_2 by done.
        by rewrite bool_decide_eq_true_2 by apply list_elem_of_here.
      * assert (Heq : bool_decide (NodeID cfg ∈ n :: nodes)
                        = bool_decide (NodeID cfg ∈ nodes)).
        { apply bool_decide_ext. rewrite elem_of_cons.
          split; [|by right]. intros [E|?]; [by subst|done]. }
        by rewrite Heq.
    + rewrite Hsent, Hsent1, <- app_assoc. f_equal. unfold reached.
      rewrite filter_cons, Hnodes1.
      destruct (decide (n ≠ NodeID cfg ∧ is_Some (Node.nodes st !! n))); done.
Qed.

Lemma replicateToNodes_spec st nodes entry :
  NoDup nodes →
  ∃ st' results',
    replicateToNodes cfg net st nodes entry = (st', results')
    ∧ successes results' = len (filter (λ n, acks cfg net st entry n = true) nodes)
    ∧ Node.nodes st' = Node.nodes st ∧ ring st' = ring st
    ∧ spawned st' = spawned st
    ∧ Bitcask.closed (storage st') = Bitcask.closed (storage st)
    ∧ storage st'
      = (if bool_decide (NodeID cfg ∈ nodes)
         then (Bitcask.Put (storage st) (types.Key entry) (types.Value entry)
                 (types.Timestamp entry)).1
         else storage st)
    ∧ sent st'
      = sent st ++ ((λ id, PostReplicate id (request cfg entry))
                    <$> reached cfg st nodes).
Proof.
  intros Hnd. unfold replicateToNodes.
  destruct (replicateToNodes_fold entry nodes st ∅ Hnd)
    as (st' & results' & Hfold & Hcount & Hrest).
  { intros n _. apply lookup_empty. }
  exists st', results'. split; [done|]. split; [|done].
  rewrite Hcount. unfold successes. by rewrite map_fold_empty.
Qed.

(** [Put], step by step. *)
Lemma Put_spec `{Sorter} st now key value consistency pref :
  HashRing.GetNodes (ring st) key (ReplicationFactor cfg) = Ok pref →
  let entry := {| types.Key := key; types.Value := value;
                  types.Timestamp := now; types.IsDeleted := false |} in
  let got := len (filter (λ n, acks cfg net st entry n = true) pref) in
  let needed := getWriteQuorum cfg consistency in
  ∃ st',
    Put cfg net st now key value consistency
    = (st', if got <? needed
            then Some (Errorf ("quorum not met: got " +:+ pretty got
                               +:+ " acks, needed " +:+ pretty needed))
            else None)
    ∧ Node.nodes st' = Node.nodes st ∧ ring st' = ring st
    ∧ spawned st' = spawned st
    ∧ storage st'
      = (if bool_decide (NodeID cfg ∈ pref)
         then (Bitcask.Put (storage st) key value now).1
         else storage st)
    ∧ sent st'
      = sent st ++ ((λ id, PostReplicate id (request cfg entry))
                    <$> reached cfg st pref).
Proof.
  intros Hpref entry got needed. unfold Put. rewrite Hpref.
  destruct (replicateToNodes_spec st pref entry (GetNodes_NoDup _ _ _ _ Hpref))
    as (st' & results' & Hrep & Hcount & Hrest).
  fold entry. rewrite Hrep. cbv zeta. unfold successes in Hcount.
  rewrite Hcount. fold got. fold needed.
  exists st'. split; [by destruct (got <? needed)|].
  destruct Hrest as (? & ? & ? & _ & ? & ?). done.
Qed.

Lemma fetchFromNode_frame st nodeID key :
  let st' := (fetchFromNode net st nodeID key).1 in
  storage st' = storage st ∧ nodes st' = nodes st ∧ ring st' = ring st
  ∧ spawned st' = spawned st
  ∧ sent st'
    = sent st ++ (if bool_decide (is_Some (nodes st !! nodeID))
                  then [GetRead nodeID key] else []).
Proof.
  unfold fetchFromNode. destruct (nodes st !! nodeID) eqn:E; cbn [fst].
  - by rewrite bool_decide_eq_true_2 by eauto.
  - rewrite bool_decide_eq_false_2 by (by intros []). by rewrite app_nil_r.
Qed.

Lemma read_one_frame st0 nodes key st responses idx :
  Spec.same_content (storage st) (storage st0) → Node.nodes st = Node.nodes st0 →
  (∀ rpc, rpc ∈ sent st → rpc ∈ sent st0 ∨ is_Some (Node.nodes st0 !! target rpc)) →
  let st' := (read_one cfg net nodes key (st, responses) idx).1 in
  Spec.same_content (storage st') (storage st0)
  ∧ Node.nodes st' = Node.nodes st0 ∧ ring st' = ring st ∧ spawned st' = spawned st
  ∧ (∀ rpc, rpc ∈ sent st' → rpc ∈ sent st0 ∨ is_Some (Node.nodes st0 !! target rpc)).
Proof.
  intros Hsame Hnodes Hsent. unfold read_one.
  destruct (nodes !! idx) as [nodeID|]; [|done].
  destruct (decide (nodeID = NodeID cfg)) as [_|_].
  - destruct (Get_same_content _ _ key Hsame) as [_ Hsame'].
    destruct (Bitcask.Get (storage st) key) as [s r]. by cbn in *.
  - pose proof (fetchFromNode_frame st nodeID key) as (Hst & Hn & Hr & Hsp & Hs).
    destruct (fetchFromNode net st nodeID key) as [st' entry]. cbn in *.
    rewrite Hst, Hn, Hr, Hsp, Hs. split_and!; [done..|].
    intros rpc Hin. apply elem_of_app in Hin as [Hin|Hin]; [by apply Hsent|].
    right. rewrite Hnodes in Hin.
    destruct (bool_decide_reflect (is_Some (Node.nodes st0 !! nodeID))) as [Hreg|_];
      [|by apply elem_of_nil in Hin].
    by apply list_elem_of_singleton in Hin as ->.
Qed.

Lemma readFromNodes_frame schedule st nodes key :
  let st' := (readFromNodes cfg net schedule st nodes key).1 in
  Spec.same_content (storage st') (storage st)
  ∧ Node.nodes st' = Node.nodes st ∧ ring st' = ring st ∧ spawned st' = spawned st
  ∧ (∀ rpc, rpc ∈ sent st' → rpc ∈ sent st ∨ is_Some (Node.nodes st !! target rpc)).
Proof.
  unfold readFromNodes. generalize (replicate (length nodes) (@None types.KeyValueEntry)).
  assert (Hgen : ∀ st1 responses,
    Spec.same_content (storage st1) (storage st) → Node.nodes st1 = Node.nodes st →
    ring st1 = ring st → spawned st1 = spawned st →
    (∀ rpc, rpc ∈ sent st1 → rpc ∈ sent st ∨ is_Some (Node.nodes st !! target rpc)) →
    let st' := (foldl (read_one cfg net nodes key) (st1, responses) schedule).1 in
    Spec.same_content (storage st') (storage st)
    ∧ Node.nodes st' = Node.nodes st ∧ ring st' = ring st ∧ spawned st' = spawned st
    ∧ (∀ rpc, rpc ∈ sent st' → rpc ∈ sent st ∨ is_Some (Node.nodes st !! target rpc))).
  { induction schedule as [|i schedule IH]; intros st1 responses Hsame Hn Hr Hsp Hs; [done|].
    cbn [foldl].
    pose proof (read_one_frame st nodes key st1 responses i Hsame Hn Hs)
      as (Hsame' & Hn' & Hr' & Hsp' & Hs').
    destruct (read_one cfg net nodes key (st1, responses) i) as [st2 responses2].
    cbn [fst] in *. apply IH; [done|done|congruence|congruence|done]. }
  intros responses. apply Hgen; [apply same_content_refl|done..|]. intros rpc Hin. by left.
Qed.

Lemma readRepair_frame nodes latest :
  ∀ st,
    NoDup nodes →
    let st' := readRepair cfg net st nodes latest in
    Node.nodes st' = Node.nodes st
    ∧ storage st'
      = (if bool_decide (NodeID cfg ∈ nodes)
         then Spec.local_repair latest (storage st) else storage st)
    ∧ (∀ rpc, rpc ∈ sent st' → rpc ∈ sent st ∨ is_Some (Node.nodes st !! target rpc)).
Proof.
  unfold readRepair.
  induction nodes as [|n nodes IH]; intros st Hnd; cbn [foldl].
  - split_and!; [done..|]. intros rpc Hin. by left.
  - apply NoDup_cons in Hnd as [Hn Hnd].
    destruct (IH (repair_one cfg net latest st n) Hnd) as (IHn & IHst & IHs).
    destruct (decide (n = NodeID cfg)) as [->|Hne].
    + destruct (repair_one_local cfg net latest st) as (Hnodes & Hsent & Hstore).
      rewrite IHn, IHst, Hnodes, Hstore.
      rewrite bool_decide_eq_false_2 by done.
      rewrite bool_decide_eq_true_2 by apply list_elem_of_here.
      split_and!; [done..|]. intros rpc Hin. rewrite <- Hnodes, <- Hsent. by apply IHs.
    + destruct (repair_one_remote cfg net latest st n Hne) as (Hstore & Hnodes & Hsent).
      rewrite IHn, IHst, Hnodes, Hstore.
      assert (Heq : bool_decide (NodeID cfg ∈ n :: nodes)
                    = bool_decide (NodeID cfg ∈ nodes)).
      { apply bool_decide_ext. rewrite elem_of_cons.
        split; [|by right]. intros [E|?]; [by subst|done]. }
      rewrite Heq. split_and!; [done..|].
      intros rpc Hin. destruct (IHs rpc Hin) as [Hold|Hreg]; [|right; by rewrite <- Hnodes].
      rewrite Hsent in Hold. apply elem_of_app in Hold as [?|Hnew]; [by left|right].
      destruct (bool_decide_reflect (is_Some (Node.nodes st !! n))) as [Hreg|_];
        [|by apply elem_of_nil in Hnew].
      by apply list_elem_of_singleton in Hnew as ->.
Qed.

End coordinator_more.

Section coordinator_more_theorems.
Import Node Coordinator Spec.

(** X17.  When [Put] reports success.  [Put] fails with "failed to get
    preference list" when the ring gives none; otherwise it counts the
    replicas of the preference list that acknowledged the write, the
    coordinator's own store among them, and returns nil exactly when they
    are at least as many as the level requires, and the error
    "quorum not met: got G acks, needed W" otherwise. *)
Theorem Put_outcome (S : Sorter) (cfg : Config) (net : Transport) (st : Node.t)
    (now : Z) (key : string) (value : list byte)
    (consistency : types.ConsistencyLevel) :
  (Put cfg net st now key value consistency).2
  = match HashRing.GetNodes (ring st) key (ReplicationFactor cfg) with
    | Err err => Some (Wrap "failed to get preference list" err)
    | Ok pref =>
        let got :=
          len (filter (λ n, acks cfg net st
                              {| types.Key := key; types.Value := value;
                                 types.Timestamp := now; types.IsDeleted := false |}
                              n = true) pref) in
        let needed := getWriteQuorum cfg consistency in
        if got <? needed
        then Some (Errorf ("quorum not met: got " +:+ pretty got
                           +:+ " acks, needed " +:+ pretty needed))
        else None
    end.
Proof.
  destruct (HashRing.GetNodes (ring st) key (ReplicationFactor cfg)) as [pref|err] eqn:Hpref.
  - destruct (Put_spec cfg net st now key value consistency pref Hpref) as (st' & -> & _).
    done.
  - unfold Put. by rewrite Hpref.
Qed.

(** X18.  [Put] does not take back what it wrote.  Whatever [Put] returns,
    the record has been written to the coordinator's own store when the
    coordinator is in the preference list, and a replication request
    carrying it has been sent to every other node of the list the
    coordinator has an address for; on a reachable store and for a record
    of the data model a local read then returns the value and timestamp of
    the put, also after "quorum not met". *)
Theorem Put_is_not_rolled_back (S : Sorter) (cfg : Config) (net : Transport)
    (st : Node.t) (now : Z) (key : string) (value : list byte)
    (consistency : types.ConsistencyLevel) (pref : list string) :
  HashRing.GetNodes (ring st) key (ReplicationFactor cfg) = Ok pref →
  storage (Put cfg net st now key value consistency).1
  = (if bool_decide (NodeID cfg ∈ pref)
     then (Bitcask.Put (storage st) key value now).1 else storage st)
  ∧ sent (Put cfg net st now key value consistency).1
    = sent st ++
      ((λ id, PostReplicate id
                (request cfg {| types.Key := key; types.Value := value;
                                types.Timestamp := now; types.IsDeleted := false |}))
       <$> reached cfg st pref)
  ∧ (NodeID cfg ∈ pref → store_reachable (storage st) → wf_record key value now →
     (Bitcask.Get (storage (Put cfg net st now key value consistency).1) key).2
     = Ok (value, now)).
Proof.
  intros Hpref.
  destruct (Put_spec cfg net st now key value consistency pref Hpref)
    as (st' & -> & _ & _ & _ & Hst & Hsent).
  cbn [fst]. split_and!; [done|done|].
  intros Hin Hreach Hwf. rewrite Hst, bool_decide_eq_true_2 by done.
  by destruct (Get_after_Put (storage st) key value now Hreach Hwf) as (_ & _ & ->).
Qed.

Lemma Put_is_not_rolled_back_witness :
  storage (Put (Demo.cfg 2 2) (Demo.net false [] 0) Demo.node 7 "k"
             (bytes_of_string "v") "quorum").1
  = (if bool_decide (NodeID (Demo.cfg 2 2) ∈ ["n2"; "n1"])
     then (Bitcask.Put (storage Demo.node) "k" (bytes_of_string "v") 7).1
     else storage Demo.node)
  ∧ sent (Put (Demo.cfg 2 2) (Demo.net false [] 0) Demo.node 7 "k"
            (bytes_of_string "v") "quorum").1
    = sent Demo.node ++
      ((λ id, PostReplicate id
                (request (Demo.cfg 2 2)
                   {| types.Key := "k"; types.Value := bytes_of_string "v";
                      types.Timestamp := 7; types.IsDeleted := false |}))
       <$> reached (Demo.cfg 2 2) Demo.node ["n2"; "n1"])
  ∧ (NodeID (Demo.cfg 2 2) ∈ ["n2"; "n1"] → store_reachable (storage Demo.node) →
     wf_record "k" (bytes_of_string "v") 7 →
     (Bitcask.Get (storage (Put (Demo.cfg 2 2) (Demo.net false [] 0) Demo.node 7 "k"
                              (bytes_of_string "v") "quorum").1) "k").2
     = Ok (bytes_of_string "v", 7)).
Proof.
  apply (Put_is_not_rolled_back insertion_Sorter (Demo.cfg 2 2) (Demo.net false [] 0)
           Demo.node 7 "k" (bytes_of_string "v") "quorum" ["n2"; "n1"]).
  vm_compute. reflexivity.
Defined.

(** A put at level quorum whose peer fails: the caller gets "quorum not
    met", the coordinator's own store keeps the value. *)
Example Put_fails_and_keeps_the_value :
  (Put (Demo.cfg 2 2) (Demo.net false [] 0) Demo.node 7 "k"
     (bytes_of_string "v") "quorum").2
  = Some (Errorf "quorum not met: got 1 acks, needed 2")
  ∧ (Bitcask.Get (storage (Put (Demo.cfg 2 2) (Demo.net false [] 0) Demo.node 7 "k"
                             (bytes_of_string "v") "quorum").1) "k").2
    = Ok (bytes_of_string "v", 7).
Proof. vm_compute. done. Qed.

(** X19.  A read quorum meets a write quorum.  Let a put succeed at a level
    that requires W acknowledgements and let a following read through the
    same coordinator, at a level that requires R responses, return a value;
    let W + R exceed the length of the preference list, and let every peer
    that acknowledged the write answer a later read of the key, if it
    answers, with a timestamp not below that of the put.  Then the read
    returns a timestamp not below that of the put: one of the replicas that
    answered the read had acknowledged the write.  (The peers the two
    requests reach may differ: [net] answers the put, [net'] the read.) *)
Theorem read_quorum_meets_write_quorum (S : Sorter) (L : SorterLaws S)
    (cfg : Config) (net net' : Transport) (schedule : list nat) (st : Node.t)
    (now : Z) (key : string) (value : list byte)
    (cw cr : types.ConsistencyLevel) (pref : list string)
    (v : list byte) (ts : Z) :
  HashRing.GetNodes (ring st) key (ReplicationFactor cfg) = Ok pref →
  store_reachable (storage st) → wf_record key value now →
  schedule ≡ₚ seq 0 (length pref) →
  len pref < getWriteQuorum cfg cw + getReadQuorum cfg cr →
  (∀ id e, id ∈ pref → id ≠ NodeID cfg →
     replicate_ok net id
       (request cfg {| types.Key := key; types.Value := value;
                       types.Timestamp := now; types.IsDeleted := false |}) = true →
     read_reply net' id key = Some e → now ≤ types.Timestamp e) →
  (Put cfg net st now key value cw).2 = None →
  (Get cfg net' schedule (Put cfg net st now key value cw).1 key cr).2 = Ok (v, ts) →
  now ≤ ts.
Proof.
  intros Hpref Hreach Hwf Hsched Hsum Hpeers Hput Hget.
  destruct (Put_spec cfg net st now key value cw pref Hpref)
    as (st1 & Hputeq & Hnodes & Hring & _ & Hst & _).
  rewrite Hputeq in Hput, Hget. cbn [fst snd] in Hput, Hget.
  set (entry := {| types.Key := key; types.Value := value;
                   types.Timestamp := now; types.IsDeleted := false |}) in *.
  destruct (Z.ltb_spec
              (len (filter (λ n, acks cfg net st entry n = true) pref))
              (getWriteQuorum cfg cw)) as [|Hacks]; [done|].
  unfold Get in Hget. rewrite Hring, Hpref in Hget.
  pose proof (readFromNodes_responses cfg net' schedule st1 pref key Hsched) as Hresp.
  destruct (readFromNodes cfg net' schedule st1 pref key) as [st2 responses].
  cbn [snd] in Hresp. subst responses.
  set (responses := response_of cfg net' st1 key <$> pref) in *.
  destruct (Z.ltb_spec (len (omap id responses)) (getReadQuorum cfg cr)) as [|Hfound];
    [done|].
  assert (Hne : omap id responses ≠ []).
  { intros E. rewrite E in Hfound. unfold len in *. simpl in Hfound.
    pose proof (length_filter (λ n, acks cfg net st entry n = true) pref). lia. }
  destruct (sort_newer_head (omap id responses) Hne) as (latest & rest & Hs & _ & Hmax).
  rewrite Hs in Hget. injection Hget as _ <-.
  destruct (filter_pigeonhole (λ n, acks cfg net st entry n = true)
              (λ n, is_Some (response_of cfg net' st1 key n)) pref)
    as (x & Hx & Hack & [e He]).
  { unfold responses, len in *. rewrite length_omap_filter in Hfound. lia. }
  assert (Hin : e ∈ omap id responses).
  { apply list_elem_of_omap. exists (Some e). split; [|done].
    apply list_elem_of_fmap. by exists x. }
  specialize (Hmax e Hin). enough (now ≤ types.Timestamp e) by lia.
  unfold acks, response_of in Hack, He.
  destruct (decide (x = NodeID cfg)) as [->|Hne'].
  - rewrite Hst, bool_decide_eq_true_2 in He by done.
    destruct (Get_after_Put (storage st) key value now Hreach Hwf) as (_ & _ & Hread).
    rewrite Hread in He. by injection He as <-.
  - rewrite Hnodes in He. unfold sendReplication in Hack.
    destruct (Node.nodes st !! x); [|done]. cbn [snd] in Hack.
    by apply (Hpeers x e).
Qed.

Lemma read_quorum_meets_write_quorum_witness :
  7 ≤ 7.
Proof.
  apply (read_quorum_meets_write_quorum insertion_Sorter insertion_SorterLaws
           (Demo.cfg 2 2) (Demo.net true [] 0) (Demo.net true (bytes_of_string "v") 7)
           [1; 0]%nat Demo.node 7 "k" (bytes_of_string "v") "quorum" "quorum"
           ["n2"; "n1"] (bytes_of_string "v") 7).
  - vm_compute. reflexivity.
  - apply store_new.
  - split; unfold len; simpl; lia.
  - simpl. apply perm_swap.
  - vm_compute. reflexivity.
  - intros id e _ _ _ He. simpl in He. injection He as <-. simpl. lia.
  - vm_compute. reflexivity.
  - vm_compute. reflexivity.
Defined.

(** X20.  A replica serves what it accepted.  On a node whose store is
    reachable, [handleReplication] of a record of the data model answers
    200 and the record is in the store: a following [handleInternalRead]
    of the key answers 200 with the key, value and timestamp of the record
    when the request carried a value, and 404 when it carried a tombstone,
    which a reader cannot tell from a key that was never written. *)
Theorem handleReplication_then_read (st : Node.t) (req : types.ReplicationRequest) :
  store_reachable (storage st) →
  wf_record (types.Key (types.req_Entry req)) (types.Value (types.req_Entry req))
    (types.Timestamp (types.req_Entry req)) →
  types.Key (types.req_Entry req) ≠ "" →
  Server.StatusCode (Server.handleReplication st req).2 = Server.StatusOK
  ∧ (Server.handleInternalRead (Server.handleReplication st req).1
       (types.Key (types.req_Entry req))).2
    = (if types.IsDeleted (types.req_Entry req)
       then Server.writeError Server.StatusNotFound
       else {| Server.StatusCode := Server.StatusOK;
               Server.Body :=
                 Some {| types.Key := types.Key (types.req_Entry req);
                         types.Value := types.Value (types.req_Entry req);
                         types.Timestamp := types.Timestamp (types.req_Entry req);
                         types.IsDeleted := false |} |}).
Proof.
  intros Hreach Hwf Hkey. destruct req as [[key value ts deleted] from handoff].
  cbn [types.req_Entry types.Key types.Value types.Timestamp types.IsDeleted] in *.
  unfold Server.handleReplication, Server.handleInternalRead.
  cbn [types.req_Entry types.Key types.Value types.Timestamp types.IsDeleted].
  rewrite decide_False by done.
  destruct (store_reachable_ok _ Hreach) as [recs Hok].
  destruct deleted.
  - assert (Hwf' : wf_record key [] ts).
    { destruct Hwf. split; [done| |done]. unfold len. simpl. lia. }
    destruct (Delete_ok _ recs key ts Hok Hwf') as [Hnone Hok'].
    destruct (Bitcask.Delete (storage st) key ts) as [s err]. cbn [fst snd] in *.
    subst err. cbn [fst snd set_storage storage]. split; [done|].
    destruct (Get_ok _ _ key Hok') as [Hread _].
    destruct (Bitcask.Get s key) as [s' r]. cbn [snd] in *. subst r.
    unfold view. rewrite replay_snoc. cbn. by rewrite lookup_insert_eq.
  - destruct (Put_ok _ recs key value ts Hok Hwf) as [Hnone Hok'].
    destruct (Bitcask.Put (storage st) key value ts) as [s err]. cbn [fst snd] in *.
    subst err. cbn [fst snd set_storage storage]. split; [done|].
    destruct (Get_ok _ _ key Hok') as [Hread _].
    destruct (Bitcask.Get s key) as [s' r]. cbn [snd] in *. subst r.
    unfold view. rewrite replay_snoc. cbn. by rewrite lookup_insert_eq.
Qed.

Lemma handleReplication_then_read_witness :
  Server.StatusCode
    (Server.handleReplication Demo.node
       (request (Demo.cfg 2 2)
          {| types.Key := "k"; types.Value := bytes_of_string "v";
             types.Timestamp := 7; types.IsDeleted := false |})).2
  = Server.StatusOK
  ∧ (Server.handleInternalRead
       (Server.handleReplication Demo.node
          (request (Demo.cfg 2 2)
             {| types.Key := "k"; types.Value := bytes_of_string "v";
                types.Timestamp := 7; types.IsDeleted := false |})).1 "k").2
    = {| Server.StatusCode := Server.StatusOK;
         Server.Body :=
           Some {| types.Key := "k"; types.Value := bytes_of_string "v";
                   types.Timestamp := 7; types.IsDeleted := false |} |}.
Proof.
  apply (handleReplication_then_read Demo.node
           (request (Demo.cfg 2 2)
              {| types.Key := "k"; types.Value := bytes_of_string "v";
                 types.Timestamp := 7; types.IsDeleted := false |})).
  - apply store_new.
  - split; unfold len; simpl; lia.
  - discriminate.
Defined.

End coordinator_more_theorems.

Section coordinator_effects.
Import Node Coordinator Spec.

(** X21.  Read repair brings the coordinator's own copy up to the winner.
    For a preference list that contains the coordinator, a reachable local
    store and a winning record of the data model, after [readRepair] a
    local read of the key returns either the value and timestamp of the
    winner, or a record with a later timestamp that the store already
    held; a local tombstone, or a copy the store cannot read, is replaced
    by the winner. *)
Theorem readRepair_local_copy (cfg : Config) (net : Transport) (st : Node.t)
    (nodes : list string) (latest : types.KeyValueEntry) :
  NoDup nodes → NodeID cfg ∈ nodes →
  store_reachable (storage st) →
  wf_record (types.Key latest) (types.Value latest) (types.Timestamp latest) →
  ∃ value timestamp,
    (Bitcask.Get (storage (readRepair cfg net st nodes latest)) (types.Key latest)).2
    = Ok (value, timestamp)
    ∧ ((value = types.Value latest ∧ timestamp = types.Timestamp latest)
       ∨ types.Timestamp latest < timestamp)
    ∧ (is_ok (Bitcask.Get (storage st) (types.Key latest)).2 = false →
       value = types.Value latest ∧ timestamp = types.Timestamp latest).
Proof.
  intros Hnd Hin Hreach Hwf.
  destruct (readRepair_frame cfg net nodes latest st Hnd) as (_ & -> & _).
  rewrite bool_decide_eq_true_2 by done. unfold local_repair.
  destruct (Get_leaves_content_reads (storage st) (types.Key latest)) as [Hsame Hreach'].
  { done. }
  destruct (Bitcask.Get (storage st) (types.Key latest)) as [s own] eqn:Hget.
  cbn [fst snd] in *.
  destruct (Get_after_Put s (types.Key latest) (types.Value latest)
              (types.Timestamp latest) Hreach' Hwf) as (_ & _ & Hread).
  unfold needs_repair. destruct own as [[value ts]|err].
  - destruct (Z.ltb_spec ts (types.Timestamp latest)) as [Hlt|Hge]; cbn [orb].
    { rewrite Hread. eexists _, _. split; [done|]. split; [by left|done]. }
    destruct (Z.eqb_spec ts (types.Timestamp latest)) as [Heq|Hneq]; cbn [andb].
    + unfold bytes_Equal. destruct (bool_decide_reflect (value = types.Value latest))
        as [Hv|Hv]; cbn [negb].
      * rewrite Hsame. exists value, ts. split; [done|]. split; [by left|done].
      * rewrite Hread. eexists _, _. split; [done|]. split; [by left|done].
    + rewrite Hsame. exists value, ts. split; [done|]. split; [right; lia|done].
  - rewrite Hread. eexists _, _. split; [done|]. split; [by left|done].
Qed.

Lemma readRepair_local_copy_witness :
  ∃ value timestamp,
    (Bitcask.Get
       (storage (readRepair (Demo.cfg 2 2) (Demo.net true [] 0)
                   (Demo.node_with "k" (bytes_of_string "old") 5) ["n2"; "n1"]
                   {| types.Key := "k"; types.Value := bytes_of_string "new";
                      types.Timestamp := 9; types.IsDeleted := false |})) "k").2
    = Ok (value, timestamp)
    ∧ ((value = bytes_of_string "new" ∧ timestamp = 9) ∨ 9 < timestamp)
    ∧ (is_ok (Bitcask.Get (storage (Demo.node_with "k" (bytes_of_string "old") 5))
                "k").2 = false →
       value = bytes_of_string "new" ∧ timestamp = 9).
Proof.
  apply (readRepair_local_copy (Demo.cfg 2 2) (Demo.net true [] 0)
           (Demo.node_with "k" (bytes_of_string "old") 5) ["n2"; "n1"]
           {| types.Key := "k"; types.Value := bytes_of_string "new";
              types.Timestamp := 9; types.IsDeleted := false |}).
  - apply (bool_decide_unpack _). vm_compute. reflexivity.
  - apply (bool_decide_unpack _). vm_compute. reflexivity.
  - apply store_put; [apply store_new|]. split; unfold len; simpl; lia.
  - split; unfold len; simpl; lia.
Defined.

(** X22.  A node the coordinator has no address for is never contacted.
    After [UnregisterNode(nodeID)], neither a put, nor a read, nor the read
    repair a read starts sends any request to [nodeID]. *)
Theorem UnregisterNode_silences (S : Sorter) (cfg : Config) (net : Transport)
    (schedule : list nat) (st : Node.t) (nodeID : string) (now : Z) (key : string)
    (value : list byte) (consistency : types.ConsistencyLevel) (rpc : Rpc) :
  (rpc ∈ sent (Put cfg net (UnregisterNode st nodeID) now key value consistency).1 →
   rpc ∈ sent st ∨ target rpc ≠ nodeID)
  ∧ (rpc ∈ sent (Get cfg net schedule (UnregisterNode st nodeID) key consistency).1 →
     rpc ∈ sent st ∨ target rpc ≠ nodeID)
  ∧ (rpc ∈ sent (run_spawned cfg net
                   (Get cfg net schedule (UnregisterNode st nodeID) key consistency).1) →
     rpc ∈ sent st ∨ target rpc ≠ nodeID).
Proof.
  set (st0 := UnregisterNode st nodeID).
  assert (Hgone : ∀ r, is_Some (Node.nodes st0 !! target r) → target r ≠ nodeID).
  { intros r Hreg Heq. rewrite Heq in Hreg. unfold st0, UnregisterNode in Hreg.
    cbn in Hreg. rewrite lookup_delete_eq in Hreg. by destruct Hreg. }
  assert (Hsent0 : sent st0 = sent st) by done.
  assert (Hget : ∀ r,
    r ∈ sent (Get cfg net schedule st0 key consistency).1 →
    r ∈ sent st ∨ is_Some (Node.nodes st0 !! target r)).
  { intros r. unfold Get.
    destruct (HashRing.GetNodes (ring st0) key (ReplicationFactor cfg)) as [pref|];
      [|by left].
    pose proof (readFromNodes_frame cfg net schedule st0 pref key) as (_ & _ & _ & _ & Hs).
    destruct (readFromNodes cfg net schedule st0 pref key) as [st1 responses].
    cbn [fst] in Hs.
    destruct (_ <? _); [by apply Hs|].
    destruct (sort_Slice newer (omap id responses)); by apply Hs. }
  assert (Hnodes : Node.nodes (Get cfg net schedule st0 key consistency).1
                   = Node.nodes st0).
  { unfold Get.
    destruct (HashRing.GetNodes (ring st0) key (ReplicationFactor cfg)) as [pref|];
      [|done].
    pose proof (readFromNodes_frame cfg net schedule st0 pref key) as (_ & Hn & _).
    destruct (readFromNodes cfg net schedule st0 pref key) as [st1 responses].
    cbn [fst] in Hn.
    destruct (_ <? _); [done|].
    by destruct (sort_Slice newer (omap id responses)). }
  split_and!.
  - intros Hin.
    destruct (HashRing.GetNodes (ring st0) key (ReplicationFactor cfg)) as [pref|] eqn:Hpref.
    2: { unfold Put in Hin. rewrite Hpref in Hin. by left. }
    destruct (Put_spec cfg net st0 now key value consistency pref Hpref)
      as (st' & Hput & _ & _ & _ & _ & Hsent).
    rewrite Hput in Hin. cbn [fst] in Hin. rewrite Hsent in Hin.
    apply elem_of_app in Hin as [?|Hin]; [by left|right].
    apply list_elem_of_fmap in Hin as (n & -> & Hn).
    unfold reached in Hn. apply list_elem_of_filter in Hn as [[_ Hreg] _].
    by apply (Hgone (PostReplicate n
                       (request cfg {| types.Key := key; types.Value := value;
                                       types.Timestamp := now;
                                       types.IsDeleted := false |}))).
  - intros Hin. destruct (Hget rpc Hin) as [?|Hreg]; [by left|right; by apply Hgone].
  - unfold run_spawned.
    destruct (spawned (Get cfg net schedule st0 key consistency).1)
      as [|[nodes latest] rest] eqn:Hsp.
    { intros Hin. destruct (Hget rpc Hin) as [?|Hreg]; [by left|right; by apply Hgone]. }
    intros Hin.
    assert (Hinv : ∀ nodes st1,
      Node.nodes st1 = Node.nodes st0 →
      (∀ r, r ∈ sent st1 → r ∈ sent st ∨ is_Some (Node.nodes st0 !! target r)) →
      ∀ r, r ∈ sent (readRepair cfg net st1 nodes latest) →
           r ∈ sent st ∨ is_Some (Node.nodes st0 !! target r)).
    { clear. unfold readRepair. intros nodes.
      induction nodes as [|n nodes IH]; intros st1 Hn Hs r; cbn [foldl]; [apply Hs|].
      apply IH.
      - unfold repair_one. destruct (decide (n = NodeID cfg)).
        + destruct (Bitcask.Get _ _) as [s0 [[v0 t0]|err0]]; cbn; [|done].
          destruct (t0 <? _); [done|]. by destruct (_ && _).
        + by destruct (sendReplication_frame cfg net st1 n latest) as (_ & -> & _).
      - intros r'. unfold repair_one. destruct (decide (n = NodeID cfg)).
        + destruct (Bitcask.Get _ _) as [s0 [[v0 t0]|err0]]; cbn; [|apply Hs].
          destruct (t0 <? _); [apply Hs|]. destruct (_ && _); apply Hs.
        + rewrite sendReplication_sent. intros Hr.
          apply elem_of_app in Hr as [?|Hr]; [by apply Hs|right].
          rewrite Hn in Hr.
          destruct (bool_decide_reflect (is_Some (Node.nodes st0 !! n))) as [Hreg|_];
            [|by apply elem_of_nil in Hr].
          by apply list_elem_of_singleton in Hr as ->. }
    apply Hinv in Hin; [|exact Hnodes|exact Hget].
    destruct Hin as [?|Hreg]; [by left|right; by apply Hgone].
Qed.

End coordinator_effects.

Section coordinator_reads.
Import Node Coordinator Spec.

(** X23.  What a read does.  For a key with preference list [pref], and
    whatever the order in which the replicas are read, let [found] be the
    answers of the replicas of [pref] that have one.  [Get] leaves the
    content of the store, the ring and the registered nodes as they are.
    With fewer answers than the level requires it returns "key not found"
    and starts no read repair.  Otherwise, given one answer at least, it
    returns the value and timestamp of one of the answers and starts
    exactly one read repair, for the whole preference list and that answer.
    A level that requires no answer at all makes it panic when there is
    none. *)
Theorem Get_outcome (S : Sorter) (L : SorterLaws S) (cfg : Config) (net : Transport)
    (schedule : list nat) (st : Node.t) (key : string)
    (consistency : types.ConsistencyLevel) (pref : list string) :
  HashRing.GetNodes (ring st) key (ReplicationFactor cfg) = Ok pref →
  schedule ≡ₚ seq 0 (length pref) →
  let found := omap id (response_of cfg net st key <$> pref) in
  let out := Get cfg net schedule st key consistency in
  same_content (storage out.1) (storage st)
  ∧ ring out.1 = ring st ∧ Node.nodes out.1 = Node.nodes st
  ∧ (len found < getReadQuorum cfg consistency →
       out.2 = Err (Errorf "key not found") ∧ spawned out.1 = spawned st)
  ∧ (getReadQuorum cfg consistency ≤ len found → found ≠ [] →
       ∃ latest, latest ∈ found
         ∧ out.2 = Ok (types.Value latest, types.Timestamp latest)
         ∧ spawned out.1 = spawned st ++ [(pref, latest)])
  ∧ (getReadQuorum cfg consistency ≤ len found → found = [] →
       out.2 = Err (Panic "index out of range [0] with length 0")
       ∧ spawned out.1 = spawned st).
Proof.
  intros Hpref Hsched found out. subst out. unfold Get. rewrite Hpref.
  pose proof (readFromNodes_responses cfg net schedule st pref key Hsched) as Hresp.
  pose proof (readFromNodes_frame cfg net schedule st pref key)
    as (Hsame & Hnodes & Hring & Hsp & _).
  destruct (readFromNodes cfg net schedule st pref key) as [st1 responses].
  cbn [fst snd] in *. subst responses. fold found.
  destruct (Z.ltb_spec (len found) (getReadQuorum cfg consistency)) as [Hlt|Hge].
  - cbn [fst snd]. split_and!; [done..| |intros; lia|intros; lia].
    intros _. by split.
  - destruct (decide (found = [])) as [Hnil|Hne].
    + assert (Hs : sort_Slice newer found = []).
      { rewrite Hnil. symmetry. apply Permutation_nil_l. symmetry.
        apply sort_Slice_perm. }
      rewrite Hs. cbn [fst snd].
      split_and!; [done..|intros; lia|intros; done|intros; by split].
    + destruct (sort_newer_head found Hne) as (latest & rest & Hs & Hin & _).
      rewrite Hs. cbn [fst snd go_readRepair storage ring Node.nodes spawned].
      split_and!; [done..|intros; lia| |intros; done].
      intros _ _. exists latest. split_and!; [done|done|by rewrite Hsp].
Qed.

Lemma Get_outcome_witness :
  (Get (Demo.cfg 2 2) (Demo.net true (bytes_of_string "v") 7) [1; 0]%nat
     Demo.node "k" "quorum").2
  = Err (Errorf "key not found").
Proof.
  pose proof (Get_outcome insertion_Sorter insertion_SorterLaws (Demo.cfg 2 2)
                (Demo.net true (bytes_of_string "v") 7) [1; 0]%nat Demo.node "k"
                "quorum" ["n2"; "n1"]) as Hout.
  cbv zeta in Hout.
  destruct Hout as (_ & _ & _ & Hfew & _).
  - vm_compute. reflexivity.
  - simpl. apply perm_swap.
  - apply Hfew. vm_compute. reflexivity.
Defined.

(** X24.  A configuration that [Validate] accepts keeps the coordinator from
    panicking.  For every consistency level the number of acknowledgements
    a write waits for and the number of answers a read waits for lie
    between 1 and the replication factor.  [Put] then returns nil, the
    error of an empty ring, or "quorum not met" with fewer
    acknowledgements than required; [Get] returns a value, the error of an
    empty ring, or "key not found". *)
Theorem validated_config_never_panics (S : Sorter) (L : SorterLaws S)
    (c : config.Config) (net : Transport) (schedule : list nat) (st : Node.t)
    (now : Z) (key : string) (value : list byte)
    (consistency : types.ConsistencyLevel) :
  config.Validate c = None →
  1 ≤ getWriteQuorum (of_config c) consistency ≤ config.ReplicationFactor c
  ∧ 1 ≤ getReadQuorum (of_config c) consistency ≤ config.ReplicationFactor c
  ∧ ((Put (of_config c) net st now key value consistency).2 = None
     ∨ (Put (of_config c) net st now key value consistency).2
       = Some (Wrap "failed to get preference list" (Errorf "no nodes in ring"))
     ∨ ∃ got, got < getWriteQuorum (of_config c) consistency
         ∧ (Put (of_config c) net st now key value consistency).2
           = Some (Errorf ("quorum not met: got " +:+ pretty got +:+ " acks, needed "
                           +:+ pretty (getWriteQuorum (of_config c) consistency))))
  ∧ ((∃ v ts, (Get (of_config c) net schedule st key consistency).2 = Ok (v, ts))
     ∨ (Get (of_config c) net schedule st key consistency).2
       = Err (Wrap "failed to get preference list" (Errorf "no nodes in ring"))
     ∨ (Get (of_config c) net schedule st key consistency).2
       = Err (Errorf "key not found")).
Proof.
  intros Hvalid. unfold config.Validate in Hvalid.
  repeat match type of Hvalid with
         | (if ?b then _ else _) = None => destruct b eqn:?; [done|]
         end.
  repeat match goal with
         | H : _ || _ = false |- _ => apply orb_false_iff in H as [? ?]
         | H : (_ <? _) = false |- _ => apply Z.ltb_ge in H
         | H : (_ <=? _) = false |- _ => apply Z.leb_gt in H
         end.
  assert (Hw : 1 ≤ getWriteQuorum (of_config c) consistency ≤ config.ReplicationFactor c).
  { unfold getWriteQuorum. cbn. repeat case_decide; lia. }
  assert (Hr : 1 ≤ getReadQuorum (of_config c) consistency ≤ config.ReplicationFactor c).
  { unfold getReadQuorum. cbn. repeat case_decide; lia. }
  split; [done|]. split; [done|]. split.
  - unfold Put. unfold HashRing.GetNodes.
    destruct (decide (length (HashRing.vnodes (ring st)) = 0%nat)); [right; by left|].
    destruct (Z.ltb_spec (ReplicationFactor (of_config c)) 0) as [Hneg|_];
      [cbn in Hneg; lia|].
    destruct (replicateToNodes _ _ _ _ _) as [st1 results]. cbn zeta.
    match goal with
    | |- context [?n <? getWriteQuorum _ _] => destruct (Z.ltb_spec n (getWriteQuorum (of_config c) consistency))
    end.
    + right; right. eexists. split; [eassumption|done].
    + by left.
  - unfold Get. unfold HashRing.GetNodes.
    destruct (decide (length (HashRing.vnodes (ring st)) = 0%nat)); [right; by left|].
    destruct (Z.ltb_spec (ReplicationFactor (of_config c)) 0) as [Hneg|_];
      [cbn in Hneg; lia|].
    destruct (readFromNodes _ _ _ _ _ _) as [st1 responses].
    destruct (Z.ltb_spec (len (omap id responses)) (getReadQuorum (of_config c) consistency))
      as [|Hge]; [right; by right|].
    left. destruct (omap id responses) as [|e found] eqn:E.
    { unfold len in Hge. simpl in Hge. lia. }
    destruct (sort_newer_head (e :: found)) as (latest & rest & -> & _); [done|].
    by eexists _, _.
Qed.

Lemma validated_config_never_panics_witness :
  1 ≤ getWriteQuorum (of_config (config.DefaultConfig_of "host")) "all" ≤ 3.
Proof.
  apply (validated_config_never_panics insertion_Sorter insertion_SorterLaws
           (config.DefaultConfig_of "host") (Demo.net true [] 0) [] Demo.node 0 "k" [] "all").
  vm_compute. reflexivity.
Defined.

(** A configuration that [Validate] would refuse: with a read quorum of 0,
    reading a key that no replica has panics instead of reporting that the
    key is not found. *)
Example unvalidated_config_panics :
  config.Validate
    {| config.NodeID := "n1"; config.Address := "127.0.0.1"; config.Port := 8080;
       config.DataDir := "./data"; config.ReplicationFactor := 2;
       config.ReadQuorum := 0; config.WriteQuorum := 1; config.VirtualNodes := 2;
       config.GossipPort := 7946 |}
  = Some (Errorf "read_quorum must be between 1 and replication_factor")
  ∧ (Get (Demo.cfg 0 1)
       {| replicate_ok := λ _ _, true; read_reply := λ _ _, None |}
       [0; 1]%nat Demo.node "k" "quorum").2
    = Err (Panic "index out of range [0] with length 0").
Proof. split; vm_compute; reflexivity. Qed.

End coordinator_reads.

(* ===================================================================== *)
(** * Vector clocks and the conflict resolver *)
(* ===================================================================== *)

Section clock_facts.
Import types versioning Spec.

Lemma get_not_dom (a : VectorClock.t) k : k ∉ dom a → VectorClock.get a k = 0.
Proof.
  intros Hk. apply not_elem_of_dom in Hk. unfold VectorClock.get, VectorClock.t. by rewrite Hk.
Qed.

Lemma get_nonneg (a : VectorClock.t) k : clock_ok a → 0 ≤ VectorClock.get a k < 2 ^ 64.
Proof.
  intros Hok. unfold VectorClock.get, VectorClock.t in *.
  destruct (a !! k) as [v|] eqn:E; cbn; [|lia].
  exact (Hok k v E).
Qed.

Lemma before_irrefl a : ¬ before a a.
Proof. intros [_ [k Hk]]. lia. Qed.

Lemma before_trans a b c : before a b → before b c → before a c.
Proof.
  intros [Hab [k Hk]] [Hbc _]. split.
  - intros k'. specialize (Hab k'). specialize (Hbc k'). lia.
  - exists k. specialize (Hbc k). lia.
Qed.

Lemma Compare_flags a b keys less greater :
  foldl (VectorClock.Compare_step a b) (less, greater) keys
  = (less || existsb (λ k, VectorClock.get a k <? VectorClock.get b k) keys,
     greater || existsb (λ k, VectorClock.get b k <? VectorClock.get a k) keys).
Proof.
  revert less greater. induction keys as [|k keys IH]; intros less greater; cbn.
  - by rewrite !orb_false_r.
  - rewrite IH. f_equal.
    + destruct (VectorClock.get a k <? VectorClock.get b k), less; done.
    + destruct (VectorClock.get b k <? VectorClock.get a k), greater; done.
Qed.

Lemma existsb_lt a b keys :
  (∀ k, k ∈ dom a ∪ dom b → k ∈ keys) →
  existsb (λ k, VectorClock.get a k <? VectorClock.get b k) keys = true
  ↔ ∃ k, VectorClock.get a k < VectorClock.get b k.
Proof.
  intros Hkeys. rewrite existsb_exists. split.
  - intros (k & _ & Hk). exists k. by apply Z.ltb_lt.
  - intros (k & Hk). exists k. split; [|by apply Z.ltb_lt].
    apply list_elem_of_In, Hkeys. apply elem_of_union.
    destruct (decide (k ∈ dom a)) as [|Ha]; [by left|right].
    destruct (decide (k ∈ dom b)) as [|Hb]; [done|].
    rewrite (get_not_dom a k Ha), (get_not_dom b k Hb) in Hk. lia.
Qed.

Lemma before_flags a b keys :
  (∀ k, k ∈ dom a ∪ dom b → k ∈ keys) →
  before a b
  ↔ existsb (λ k, VectorClock.get a k <? VectorClock.get b k) keys = true
    ∧ existsb (λ k, VectorClock.get b k <? VectorClock.get a k) keys = false.
Proof.
  intros Hkeys.
  assert (Hkeys' : ∀ k, k ∈ dom b ∪ dom a → k ∈ keys).
  { intros k Hk. apply Hkeys. apply elem_of_union.
    apply elem_of_union in Hk as [?|?]; [by right|by left]. }
  rewrite (existsb_lt a b keys Hkeys).
  rewrite <- not_true_iff_false, (existsb_lt b a keys Hkeys').
  unfold before. split; intros [H1 H2].
  - split; [done|]. intros [k Hk]. specialize (H1 k). lia.
  - split; [|done]. intros k.
    destruct (Z.le_gt_cases (VectorClock.get a k) (VectorClock.get b k)); [done|].
    exfalso. apply H2. exists k. lia.
Qed.

Lemma Compare_in_spec a b keys :
  (∀ k, k ∈ dom a ∪ dom b → k ∈ keys) →
  (VectorClock.Compare_in keys a b = -1 ↔ before a b)
  ∧ (VectorClock.Compare_in keys a b = 1 ↔ before b a)
  ∧ (VectorClock.Compare_in keys a b = 0 ↔ ¬ before a b ∧ ¬ before b a).
Proof.
  intros Hkeys.
  assert (Hkeys' : ∀ k, k ∈ dom b ∪ dom a → k ∈ keys).
  { intros k Hk. apply Hkeys. apply elem_of_union.
    apply elem_of_union in Hk as [?|?]; [by right|by left]. }
  rewrite (before_flags a b keys Hkeys), (before_flags b a keys Hkeys').
  unfold VectorClock.Compare_in. rewrite Compare_flags. cbn [orb].
  destruct (existsb (λ k, VectorClock.get a k <? VectorClock.get b k) keys),
           (existsb (λ k, VectorClock.get b k <? VectorClock.get a k) keys); cbn;
    (split_and!; split; try done; try lia; try (intros [? ?]; done);
     try (intros [H1 H2]; exfalso; first [by apply H1|by apply H2])).
Qed.

Lemma Compare_spec a b :
  (VectorClock.Compare a b = -1 ↔ before a b)
  ∧ (VectorClock.Compare a b = 1 ↔ before b a)
  ∧ (VectorClock.Compare a b = 0 ↔ ¬ before a b ∧ ¬ before b a).
Proof.
  apply Compare_in_spec. intros k Hk. by apply elem_of_elements.
Qed.

Lemma Compare_neg a b : (VectorClock.Compare a b <? 0) = true ↔ before a b.
Proof.
  destruct (Compare_spec a b) as (H1 & H2 & H3). rewrite <- H1, Z.ltb_lt.
  unfold VectorClock.Compare, VectorClock.Compare_in.
  destruct (foldl _ _ _) as [[] []]; cbn; lia.
Qed.

Lemma before_dec a b : {before a b} + {¬ before a b}.
Proof.
  destruct (VectorClock.Compare a b <? 0) eqn:E.
  - left. by apply Compare_neg.
  - right. intros Hb. apply Compare_neg in Hb. congruence.
Qed.

(** [Merge] *)

Lemma get_Merge_step r kv k :
  VectorClock.get (VectorClock.Merge_step r kv) k
  = if decide (k = kv.1) then Z.max (VectorClock.get r k) kv.2 else VectorClock.get r k.
Proof.
  unfold VectorClock.Merge_step.
  destruct (Z.ltb_spec (VectorClock.get r kv.1) kv.2) as [Hlt|Hge].
  - unfold VectorClock.get at 1. unfold VectorClock.t.
    destruct (decide (k = kv.1)) as [->|Hne].
    + rewrite lookup_insert_eq. cbn. lia.
    + by rewrite lookup_insert_ne.
  - destruct (decide (k = kv.1)) as [->|Hne]; [lia|done].
Qed.

Lemma get_Merge_fold order k :
  ∀ r, VectorClock.get (foldl VectorClock.Merge_step r order) k
       = foldl (λ acc kv, if decide (k = kv.1) then Z.max acc kv.2 else acc)
           (VectorClock.get r k) order.
Proof.
  induction order as [|kv order IH]; intros r; cbn [foldl]; [done|].
  by rewrite IH, get_Merge_step.
Qed.

Lemma fold_max_absent (k : string) (l : list (string * Z)) :
  (∀ v, (k, v) ∉ l) →
  ∀ acc, foldl (λ acc kv, if decide (k = kv.1) then Z.max acc kv.2 else acc) acc l = acc.
Proof.
  induction l as [|[k' v'] l IH]; intros Hnone acc; cbn [foldl]; [done|].
  cbn [fst snd]. destruct (decide (k = k')) as [->|Hne].
  - exfalso. apply (Hnone v'). apply list_elem_of_here.
  - apply IH. intros v Hin. apply (Hnone v). by apply list_elem_of_further.
Qed.

Lemma fold_max_present (k : string) (v0 : Z) (l : list (string * Z)) :
  (∀ v, (k, v) ∈ l → v = v0) → (k, v0) ∈ l →
  ∀ acc, foldl (λ acc kv, if decide (k = kv.1) then Z.max acc kv.2 else acc) acc l
         = Z.max acc v0.
Proof.
  induction l as [|[k' v'] l IH]; intros Hall Hin acc; cbn [foldl].
  { by apply elem_of_nil in Hin. }
  cbn [fst snd].
  assert (Hall' : ∀ v, (k, v) ∈ l → v = v0).
  { intros v Hv. apply Hall. by apply list_elem_of_further. }
  destruct (decide (k = k')) as [->|Hne].
  - assert (v' = v0) as -> by (apply Hall, list_elem_of_here).
    destruct (decide ((k', v0) ∈ l)) as [Hl|Hl].
    + rewrite IH by done. lia.
    + apply fold_max_absent. intros v Hv.
      assert (v = v0) as -> by by apply Hall'. done.
  - apply IH; [done|]. apply elem_of_cons in Hin as [Heq|?]; [|done].
    by injection Heq as -> _.
Qed.

Lemma get_Merge_in order vc other k :
  order ≡ₚ map_to_list other → 0 ≤ VectorClock.get vc k →
  VectorClock.get (VectorClock.Merge_in order vc) k
  = Z.max (VectorClock.get vc k) (VectorClock.get other k).
Proof.
  intros Hperm Hpos. unfold VectorClock.Merge_in. rewrite get_Merge_fold.
  assert (Hin : ∀ v, (k, v) ∈ order ↔ other !! k = Some v).
  { intros v. rewrite Hperm. apply elem_of_map_to_list. }
  unfold VectorClock.get at 3. unfold VectorClock.t in *.
  destruct (other !! k) as [v0|] eqn:E; cbn.
  - apply fold_max_present.
    + intros v Hv. apply Hin in Hv. congruence.
    + by apply Hin.
  - rewrite fold_max_absent; [lia|]. intros v Hv. by apply Hin in Hv.
Qed.

Lemma Merge_in_ok order vc :
  clock_ok vc → Forall (λ kv, 0 ≤ kv.2 < 2 ^ 64) order →
  clock_ok (VectorClock.Merge_in order vc).
Proof.
  unfold VectorClock.Merge_in. revert vc.
  induction order as [|kv order IH]; intros vc Hok Hall; cbn [foldl]; [done|].
  apply Forall_cons in Hall as [Hkv Hall]. apply IH; [|done].
  unfold VectorClock.Merge_step. destruct (_ <? _); [|done].
  by apply map_Forall_insert_2.
Qed.

Lemma map_to_list_ok (other : VectorClock.t) order :
  order ≡ₚ map_to_list other → clock_ok other →
  Forall (λ kv, 0 ≤ kv.2 < 2 ^ 64) order.
Proof.
  intros Hperm Hok. rewrite Forall_forall. intros [k v] Hin.
  rewrite Hperm in Hin. apply elem_of_map_to_list in Hin. exact (Hok k v Hin).
Qed.

Lemma get_Merge vc other k :
  clock_ok vc →
  VectorClock.get (VectorClock.Merge vc other) k
  = Z.max (VectorClock.get vc k) (VectorClock.get other k).
Proof. intros Hok. apply get_Merge_in; [done|]. by apply get_nonneg. Qed.

Lemma Merge_ok vc other :
  clock_ok vc → clock_ok other → clock_ok (VectorClock.Merge vc other).
Proof. intros ? ?. apply Merge_in_ok; [done|]. by apply (map_to_list_ok other). Qed.

Lemma get_Increment vc n k :
  VectorClock.get (VectorClock.Increment vc n) k
  = if decide (k = n) then uint64 (VectorClock.get vc n + 1) else VectorClock.get vc k.
Proof.
  unfold VectorClock.Increment. unfold VectorClock.get at 1. unfold VectorClock.t.
  destruct (decide (k = n)) as [->|Hne].
  - by rewrite lookup_insert_eq.
  - by rewrite lookup_insert_ne.
Qed.

(** The resolver *)

Lemma resolveByTimestamp_fold rest :
  ∀ pre w (i : nat),
    pre !! i = Some w →
    (∀ e, e ∈ pre → Timestamp (entry e) ≤ Timestamp (entry w)) →
    (∀ (j : nat) e, (j < i)%nat → pre !! j = Some e →
       Timestamp (entry e) < Timestamp (entry w)) →
    ∃ (i' : nat) w',
      (pre ++ rest) !! i' = Some w'
      ∧ foldl (λ winner e,
                 if Timestamp (entry winner) <? Timestamp (entry e) then e else winner)
          w rest = w'
      ∧ (∀ e, e ∈ pre ++ rest → Timestamp (entry e) ≤ Timestamp (entry w'))
      ∧ (∀ (j : nat) e, (j < i')%nat → (pre ++ rest) !! j = Some e →
           Timestamp (entry e) < Timestamp (entry w')).
Proof.
  induction rest as [|x rest IH]; intros pre w i Hi Hmax Hfirst; cbn [foldl].
  - exists i, w. rewrite app_nil_r. done.
  - replace (pre ++ x :: rest) with ((pre ++ [x]) ++ rest) by by rewrite <- app_assoc.
    destruct (Z.ltb_spec (Timestamp (entry w)) (Timestamp (entry x))) as [Hlt|Hge].
    + apply (IH (pre ++ [x]) x (length pre)).
      * by rewrite list_lookup_middle.
      * intros e He. apply elem_of_app in He as [He|He].
        -- specialize (Hmax e He). lia.
        -- apply list_elem_of_singleton in He as ->. lia.
      * intros j e Hj He. rewrite lookup_app_l in He by done.
        apply list_elem_of_lookup_2 in He. specialize (Hmax e He). lia.
    + apply (IH (pre ++ [x]) w i).
      * rewrite lookup_app_l; [done|]. by apply lookup_lt_Some in Hi.
      * intros e He. apply elem_of_app in He as [He|He]; [by apply Hmax|].
        apply list_elem_of_singleton in He as ->. lia.
      * intros j e Hj He. apply (Hfirst j e Hj).
        apply lookup_lt_Some in Hi.
        rewrite lookup_app_l in He by lia. done.
Qed.

Lemma resolveByTimestamp_spec entries :
  entries ≠ [] →
  ∃ (i : nat) w,
    entries !! i = Some w
    ∧ resolveByTimestamp entries = Ok w
    ∧ (∀ e, e ∈ entries → Timestamp (entry e) ≤ Timestamp (entry w))
    ∧ (∀ (j : nat) e, (j < i)%nat → entries !! j = Some e →
         Timestamp (entry e) < Timestamp (entry w)).
Proof.
  destruct entries as [|first rest]; [done|]. intros _.
  destruct (resolveByTimestamp_fold rest [first] first 0%nat)
    as (i & w & Hi & Hw & Hmax & Hfirst).
  - done.
  - intros e He. apply list_elem_of_singleton in He as ->. lia.
  - intros j e Hj. lia.
  - exists i, w. cbn [resolveByTimestamp]. rewrite Hw. done.
Qed.

Lemma dominated_spec entries (i : nat) e1 :
  entries !! i = Some e1 →
  dominated entries i e1 = true
  ↔ ∃ e2, e2 ∈ entries ∧ before (Version e1) (Version e2).
Proof.
  intros Hi. unfold dominated. rewrite existsb_exists. split.
  - intros ([j e2] & Hin & Hc). cbn [fst snd] in Hc.
    apply andb_true_iff in Hc as [_ Hc]. apply Compare_neg in Hc.
    apply list_elem_of_In, elem_of_lookup_imap in Hin as (j' & e2' & Heq & Hj).
    injection Heq as -> ->. exists e2'. split; [|done].
    by apply list_elem_of_lookup_2 in Hj.
  - intros (e2 & Hin & Hb). apply list_elem_of_lookup_1 in Hin as [j Hj].
    exists (j, e2). split.
    + apply list_elem_of_In, elem_of_lookup_imap. by exists j, e2.
    + cbn [fst snd]. apply andb_true_iff. split; [|by apply Compare_neg].
      apply bool_decide_eq_true. intros ->.
      rewrite Hi in Hj. injection Hj as ->. by apply before_irrefl in Hb.
Qed.

Lemma candidates_elem entries w :
  w ∈ (filter (λ ie1 : nat * KeyValueEntry, dominated entries ie1.1 ie1.2 = false)
         (imap pair entries)).*2
  ↔ w ∈ entries ∧ ∀ e, e ∈ entries → ¬ before (Version w) (Version e).
Proof.
  rewrite list_elem_of_fmap. split.
  - intros ([i w'] & -> & Hin). cbn [snd].
    apply list_elem_of_filter in Hin as [Hd Hin]. cbn [fst snd] in Hd.
    apply elem_of_lookup_imap in Hin as (i' & w'' & Heq & Hi).
    injection Heq as -> ->. split; [by apply list_elem_of_lookup_2 in Hi|].
    intros e He Hb. apply not_true_iff_false in Hd. apply Hd.
    apply (dominated_spec entries i' w'' Hi). by exists e.
  - intros [Hin Hmax]. apply list_elem_of_lookup_1 in Hin as [i Hi].
    exists (i, w). split; [done|]. apply list_elem_of_filter. split.
    + cbn [fst snd]. apply not_true_iff_false. intros Hd.
      apply (dominated_spec entries i w Hi) in Hd as (e & He & Hb).
      by apply (Hmax e He).
    + apply elem_of_lookup_imap. by exists i, w.
Qed.

(** A non-empty slice has an entry that no other one dominates. *)
Lemma undominated_exists (entries : list KeyValueEntry) :
  entries ≠ [] →
  ∃ m, m ∈ entries ∧ ∀ e, e ∈ entries → ¬ before (Version m) (Version e).
Proof.
  induction entries as [|x entries IH]; [done|]. intros _.
  destruct entries as [|y entries].
  - exists x. split; [apply list_elem_of_here|].
    intros e He. apply list_elem_of_singleton in He as ->. apply before_irrefl.
  - destruct IH as (m & Hm & Hmax); [done|].
    destruct (before_dec (Version m) (Version x)) as [Hmx|Hmx].
    + exists x. split; [apply list_elem_of_here|].
      intros e He Hxe. apply elem_of_cons in He as [->|He].
      * by apply before_irrefl in Hxe.
      * apply (Hmax e He). by apply (before_trans _ (Version x)).
    + exists m. split; [by apply list_elem_of_further|].
      intros e He. apply elem_of_cons in He as [->|He]; [done|by apply Hmax].
Qed.

Lemma resolveByVectorClock_spec entries :
  entries ≠ [] →
  ∃ w, resolveByVectorClock entries = Ok w
    ∧ w ∈ entries
    ∧ (∀ e, e ∈ entries → ¬ before (Version w) (Version e))
    ∧ (∀ e, e ∈ entries →
         (∀ e', e' ∈ entries → ¬ before (Version e) (Version e')) →
         Timestamp (entry e) ≤ Timestamp (entry w)).
Proof.
  intros Hne. unfold resolveByVectorClock.
  pose proof (candidates_elem entries) as Hcand.
  set (candidates := (filter _ _).*2) in *.
  assert (Hcne : candidates ≠ []).
  { destruct (undominated_exists entries Hne) as (m & Hm & Hmax).
    intros E. assert (Hin : m ∈ candidates) by by apply Hcand.
    rewrite E in Hin. by apply elem_of_nil in Hin. }
  destruct (resolveByTimestamp_spec candidates Hcne) as (i & w & Hi & Hw & Hmax & _).
  assert (Hres : match candidates with
                 | [candidate] => Ok candidate
                 | _ => resolveByTimestamp candidates
                 end = Ok w).
  { destruct candidates as [|c [|c' rest]]; [done| |done].
    cbn in Hw. done. }
  rewrite Hres. exists w. split; [done|].
  apply list_elem_of_lookup_2 in Hi. apply Hcand in Hi as [Hin Hund].
  split_and!; [done|done|]. intros e He Hu. apply Hmax. by apply Hcand.
Qed.

Lemma Resolve_ok r entries :
  entries ≠ [] → ∃ w, Resolve r entries = Ok w ∧ w ∈ entries.
Proof.
  intros Hne. unfold Resolve.
  destruct entries as [|e [|e' rest]]; [done| |].
  - exists e. split; [done|apply list_elem_of_here].
  - assert (Hts : ∃ w, resolveByTimestamp (e :: e' :: rest) = Ok w
                       ∧ w ∈ e :: e' :: rest).
    { destruct (resolveByTimestamp_spec (e :: e' :: rest)) as (i & w & Hi & Hw & _);
        [done|]. exists w. split; [done|]. by apply list_elem_of_lookup_2 in Hi. }
    destruct (strategy r =? LastWriteWins); [done|].
    destruct (strategy r =? VectorClockBased); [|done].
    destruct (resolveByVectorClock_spec (e :: e' :: rest)) as (w & Hw & Hin & _);
      [done|]. by exists w.
Qed.

Lemma merged_clock entries :
  (∀ e, e ∈ entries → clock_ok (Version e)) →
  ∀ acc, clock_ok acc →
    let m := foldl (λ mergedClock e, VectorClock.Merge mergedClock (Version e))
               acc entries in
    clock_ok m
    ∧ (∀ k, VectorClock.get acc k ≤ VectorClock.get m k)
    ∧ (∀ e k, e ∈ entries → VectorClock.get (Version e) k ≤ VectorClock.get m k)
    ∧ (∀ k, VectorClock.get m k = VectorClock.get acc k
            ∨ ∃ e, e ∈ entries ∧ VectorClock.get m k = VectorClock.get (Version e) k).
Proof.
  induction entries as [|x entries IH]; intros Hoks acc Hacc; cbn [foldl].
  - split_and!; [done|done| |by left]. intros e k He. by apply elem_of_nil in He.
  - assert (Hx : clock_ok (Version x)) by apply Hoks, list_elem_of_here.
    destruct (IH (λ e He, Hoks e (list_elem_of_further _ _ _ He))
                (VectorClock.Merge acc (Version x)) (Merge_ok _ _ Hacc Hx))
      as (Hok & Hge & Hall & Hsrc).
    split_and!; [done| | |].
    + intros k. specialize (Hge k). rewrite get_Merge in Hge by done. lia.
    + intros e k He. apply elem_of_cons in He as [->|He]; [|by apply Hall].
      specialize (Hge k). rewrite get_Merge in Hge by done. lia.
    + intros k. destruct (Hsrc k) as [Heq|(e & He & Heq)].
      * rewrite get_Merge in Heq by done.
        destruct (Z.max_spec (VectorClock.get acc k) (VectorClock.get (Version x) k))
          as [[_ Hm]|[_ Hm]].
        -- right. exists x. split; [apply list_elem_of_here|lia].
        -- left. lia.
      * right. exists e. split; [by apply list_elem_of_further|done].
Qed.

End clock_facts.

Section clock_theorems.
Import types versioning Spec.

(** X25.  What [Compare] reports, whatever the order in which it ranges over
    the keys of the two clocks: -1 exactly when the receiver happened before
    the argument, 1 exactly when the argument happened before the receiver,
    and 0 in every other case, which covers two clocks with the same
    counters as well as concurrent ones. *)
Theorem Compare_any_order (keys : list string) (a b : VectorClock.t) :
  keys ≡ₚ elements (dom a ∪ dom b) →
  (VectorClock.Compare_in keys a b = -1 ↔ before a b)
  ∧ (VectorClock.Compare_in keys a b = 1 ↔ before b a)
  ∧ (VectorClock.Compare_in keys a b = 0 ↔ ¬ before a b ∧ ¬ before b a)
  ∧ ((∀ k, VectorClock.get a k = VectorClock.get b k) → VectorClock.Compare_in keys a b = 0).
Proof.
  intros Hperm.
  destruct (Compare_in_spec a b keys) as (H1 & H2 & H3).
  { intros k Hk. rewrite Hperm. by apply elem_of_elements. }
  split_and!; [done..|].
  intros Heq. apply H3. split; intros [_ [k Hk]]; specialize (Heq k); lia.
Qed.

Lemma Compare_any_order_witness :
  before {[ "n1" := 1 ]} {[ "n1" := 1; "n2" := 2 ]}.
Proof.
  pose proof (Compare_any_order ["n2"; "n1"] {[ "n1" := 1 ]}
                {[ "n1" := 1; "n2" := 2 ]}) as Hc.
  destruct Hc as (Hc & _).
  - vm_compute. first [reflexivity | apply perm_swap].
  - apply Hc. vm_compute. reflexivity.
Defined.

(** X26.  [Merge] takes the larger counter of each node, whatever the order
    in which it ranges over the other clock: the counter of every node in
    the result is the maximum of its counters in the two clocks, a missing
    one counting as zero, and the result is again a clock of [uint64]
    counters. *)
Theorem Merge_pointwise_max (order : list (string * Z)) (vc other : VectorClock.t) :
  order ≡ₚ map_to_list other → clock_ok vc → clock_ok other →
  clock_ok (VectorClock.Merge_in order vc)
  ∧ ∀ k, VectorClock.get (VectorClock.Merge_in order vc) k
         = Z.max (VectorClock.get vc k) (VectorClock.get other k).
Proof.
  intros Hperm Hvc Hother. split.
  - apply Merge_in_ok; [done|]. by apply (map_to_list_ok other).
  - intros k. apply get_Merge_in; [done|]. by apply get_nonneg.
Qed.

Lemma Merge_pointwise_max_witness :
  VectorClock.get (VectorClock.Merge_in [("n2", 2); ("n1", 1)] {[ "n1" := 3 ]}) "n2" = 2.
Proof.
  destruct (Merge_pointwise_max [("n2", 2); ("n1", 1)] {[ "n1" := 3 ]}
              {[ "n1" := 1; "n2" := 2 ]}) as [_ Hmax].
  - vm_compute. first [reflexivity | apply perm_swap].
  - intros k v Hk. apply lookup_singleton_Some in Hk as [_ <-]. lia.
  - intros k v Hk. apply lookup_insert_Some in Hk as [[_ <-]|[_ Hk]]; [lia|].
    apply lookup_singleton_Some in Hk as [_ <-]. lia.
  - rewrite Hmax. vm_compute. reflexivity.
Defined.

(** X27.  Last write wins.  With any strategy other than
    [VectorClockBased], [Resolve] on a non-empty slice returns the first of
    the newest entries: an entry of the slice whose timestamp no entry
    exceeds, every entry before it in the slice having a strictly smaller
    timestamp. *)
Theorem Resolve_last_write_wins (r : Resolver) (entries : list KeyValueEntry) :
  strategy r ≠ VectorClockBased → entries ≠ [] →
  ∃ (i : nat) w,
    entries !! i = Some w
    ∧ Resolve r entries = Ok w
    ∧ (∀ e, e ∈ entries → Timestamp (entry e) ≤ Timestamp (entry w))
    ∧ (∀ (j : nat) e, (j < i)%nat → entries !! j = Some e →
         Timestamp (entry e) < Timestamp (entry w)).
Proof.
  intros Hstrategy Hne. unfold Resolve.
  destruct entries as [|e [|e' rest]]; [done| |].
  - exists 0%nat, e. split_and!; [done|done| |intros j ? Hj; lia].
    intros e0 He0. apply list_elem_of_singleton in He0 as ->. lia.
  - assert (Hts : (if strategy r =? LastWriteWins
                   then resolveByTimestamp (e :: e' :: rest)
                   else if strategy r =? VectorClockBased
                        then resolveByVectorClock (e :: e' :: rest)
                        else resolveByTimestamp (e :: e' :: rest))
                  = resolveByTimestamp (e :: e' :: rest)).
    { destruct (strategy r =? LastWriteWins); [done|].
      destruct (Z.eqb_spec (strategy r) VectorClockBased); done. }
    rewrite Hts. by apply resolveByTimestamp_spec.
Qed.

Lemma Resolve_last_write_wins_witness :
  ∃ (i : nat) w,
    [Demo.left; Demo.right; Demo.old] !! i = Some w
    ∧ Resolve (NewResolver LastWriteWins) [Demo.left; Demo.right; Demo.old] = Ok w
    ∧ (∀ e, e ∈ [Demo.left; Demo.right; Demo.old] →
         Timestamp (entry e) ≤ Timestamp (entry w))
    ∧ (∀ (j : nat) e, (j < i)%nat → [Demo.left; Demo.right; Demo.old] !! j = Some e →
         Timestamp (entry e) < Timestamp (entry w)).
Proof. apply Resolve_last_write_wins; discriminate. Defined.

(** X28.  Resolving by vector clock never returns a superseded entry.  With
    the strategy [VectorClockBased], [Resolve] on a non-empty slice returns
    (without running out of candidates) an entry of the slice whose clock
    happened before the clock of no entry of the slice, and among the
    entries of that kind one with the largest timestamp. *)
Theorem Resolve_by_vector_clock (r : Resolver) (entries : list KeyValueEntry) :
  strategy r = VectorClockBased → entries ≠ [] →
  ∃ w, Resolve r entries = Ok w
    ∧ w ∈ entries
    ∧ (∀ e, e ∈ entries → ¬ before (Version w) (Version e))
    ∧ (∀ e, e ∈ entries →
         (∀ e', e' ∈ entries → ¬ before (Version e) (Version e')) →
         Timestamp (entry e) ≤ Timestamp (entry w)).
Proof.
  intros Hstrategy Hne. unfold Resolve. rewrite Hstrategy.
  destruct entries as [|e [|e' rest]]; [done| |].
  - exists e. split_and!; [done|apply list_elem_of_here| |].
    + intros e0 He0. apply list_elem_of_singleton in He0 as ->. apply before_irrefl.
    + intros e0 He0 _. apply list_elem_of_singleton in He0 as ->. lia.
  - change (VectorClockBased =? LastWriteWins) with false.
    change (VectorClockBased =? VectorClockBased) with true.
    by apply resolveByVectorClock_spec.
Qed.

Lemma Resolve_by_vector_clock_witness :
  ∃ w, Resolve (NewResolver VectorClockBased) [Demo.left; Demo.right; Demo.old] = Ok w
    ∧ w ∈ [Demo.left; Demo.right; Demo.old]
    ∧ (∀ e, e ∈ [Demo.left; Demo.right; Demo.old] →
         ¬ before (Version w) (Version e))
    ∧ (∀ e, e ∈ [Demo.left; Demo.right; Demo.old] →
         (∀ e', e' ∈ [Demo.left; Demo.right; Demo.old] →
            ¬ before (Version e) (Version e')) →
         Timestamp (entry e) ≤ Timestamp (entry w)).
Proof. apply Resolve_by_vector_clock; [reflexivity|discriminate]. Defined.

(** The two strategies disagree on these versions: the newest by timestamp
    is the one the other two supersede. *)
Example strategies_disagree :
  Resolve (NewResolver LastWriteWins) [Demo.left; Demo.right; Demo.old] = Ok Demo.old
  ∧ Resolve (NewResolver VectorClockBased) [Demo.left; Demo.right; Demo.old]
    = Ok Demo.right.
Proof. split; vm_compute; reflexivity. Qed.

(** X29.  The version [Resolver.Merge] gives the winner happened after every
    version it merged.  For a non-empty slice of entries whose clocks have
    [uint64] counters, the counter of [nodeID] below the largest [uint64]
    in each, [Merge] returns the entry [Resolve] picks, with a clock that
    every clock of the slice happened before. *)
Theorem Merge_happens_after (r : Resolver) (entries : list KeyValueEntry)
    (nodeID : string) :
  entries ≠ [] →
  (∀ e, e ∈ entries → clock_ok (Version e) ∧ VectorClock.get (Version e) nodeID < 2 ^ 64 - 1) →
  ∃ winner merged,
    Resolve r entries = Ok winner
    ∧ versioning.Merge r entries nodeID = Ok merged
    ∧ entry merged = entry winner
    ∧ ∀ e, e ∈ entries → before (Version e) (Version merged).
Proof.
  intros Hne Hoks.
  destruct (Resolve_ok r entries Hne) as (winner & Hres & _).
  destruct (merged_clock entries (λ e He, proj1 (Hoks e He)) ∅)
    as (Hok & _ & Hall & Hsrc).
  { apply map_Forall_empty. }
  unfold versioning.Merge. rewrite Hres.
  destruct entries as [|e0 rest] eqn:E; [done|]. rewrite <- E in *.
  eexists winner, _. split_and!; [done|done|done|].
  cbn [Version]. set (m := foldl _ ∅ entries) in *.
  assert (Hm : 0 ≤ VectorClock.get m nodeID < 2 ^ 64 - 1).
  { split; [by apply get_nonneg|].
    destruct (Hsrc nodeID) as [Heq|(e & He & Heq)].
    - rewrite Heq. unfold VectorClock.get, VectorClock.t. rewrite lookup_empty. cbn. lia.
    - rewrite Heq. by apply Hoks. }
  intros e He. split.
  - intros k. rewrite get_Increment. destruct (decide (k = nodeID)) as [->|_].
    + unfold uint64. rewrite Z.mod_small by lia.
      specialize (Hall e nodeID He). lia.
    + by apply Hall.
  - exists nodeID. rewrite get_Increment, decide_True by done.
    unfold uint64. rewrite Z.mod_small by lia. specialize (Hall e nodeID He). lia.
Qed.

Lemma Merge_happens_after_witness :
  ∃ winner merged,
    Resolve (NewResolver VectorClockBased) [Demo.left; Demo.right; Demo.old]
    = Ok winner
    ∧ versioning.Merge (NewResolver VectorClockBased)
        [Demo.left; Demo.right; Demo.old] "n1" = Ok merged
    ∧ entry merged = entry winner
    ∧ ∀ e, e ∈ [Demo.left; Demo.right; Demo.old] →
        before (Version e) (Version merged).
Proof.
  apply Merge_happens_after; [discriminate|].
  intros e He. split.
  - apply (bool_decide_unpack _).
    repeat (apply elem_of_cons in He as [->|He]; [vm_compute; reflexivity|]).
    by apply elem_of_nil in He.
  - repeat (apply elem_of_cons in He as [->|He]; [vm_compute; reflexivity|]).
    by apply elem_of_nil in He.
Defined.

(** At the largest [uint64] the counter wraps: the clock [Merge] gives the
    winner then happened before the clock it was merged from. *)
Example Merge_wraps :
  (versioning.Merge (NewResolver LastWriteWins)
     [Demo.version "a" 5 {[ "n1" := 2 ^ 64 - 1 ]}] "n1")
  = Ok (Demo.version "a" 5 {[ "n1" := 0 ]}).
Proof. vm_compute. reflexivity. Qed.

End clock_theorems.

(* ===================================================================== *)
(** * The hint store *)
(* ===================================================================== *)

Section handoff_more.
Import HintedHandoffStore Spec.








(** With a limit of zero the first [Store] panics. *)
Example Store_panics_without_room :
  Store (NewHintedHandoffStore 86400000000000 0) 1 "n2" (Demo.entry "a")
  = Err (Panic "slice bounds out of range [1:0]").
Proof. reflexivity. Qed.

End handoff_more.
